(** * MEArec extractors: a shallow embedding of
      [spikeextractors/extractors/mearecextractors/mearecextractors.py]

    The module adapts MEArec containers to the recording / sorting extractor
    interface.  Python objects become records, dictionaries become [gmap]s,
    raised exceptions become the [Raise] branch of [result], and the
    attributes a method assigns are threaded as an explicit state.

    Numbers.  Python integers are [Z]; an [int64] is a [Z] whose conversions
    are written out.  A binary64 value is an [f64]: a rational for a finite
    value, or an infinity, or NaN (the sign of zero is not kept).  Products
    and quotients are the exact results rounded to the nearest binary64, ties
    to even.  Frame arguments are [int64] values.  The trace samples, which
    are only moved, and the sampling rates are finite and kept as [Q]. *)

From Stdlib Require Import ZArith QArith Qround Qpower Lqa Ascii String Sorted Lia.
From stdpp Require Import gmap strings list fin_maps.

Local Open Scope Z_scope.

(** ** Exceptions and results *)

Inductive exn : Type :=
| ModuleNotFoundError (msg : string)
| IndexError
| KeyError (key : string)
| ValueError
| TypeError
| AttributeError
| ImportError (msg : string)
| OSError
| Exception (msg : string).

Inductive result (A : Type) : Type :=
| Ok (a : A)
| Raise (e : exn).
Arguments Ok {A} a.
Arguments Raise {A} e.

#[global] Instance result_ret : MRet result := fun A a => Ok a.

#[global] Instance result_bind : MBind result := fun A B k r =>
  match r with
  | Ok a => k a
  | Raise e => Raise e
  end.

#[global] Instance result_fmap : FMap result := fun A B f r =>
  match r with
  | Ok a => Ok (f a)
  | Raise e => Raise e
  end.

Definition raises {A} (r : result A) : Prop :=
  match r with Ok _ => False | Raise _ => True end.

(** [[f(x) for x in l]] with an [f] that may raise: the first exception
    aborts the comprehension. *)
Fixpoint mapM {A B} (f : A -> result B) (l : list A) : result (list B) :=
  match l with
  | [] => Ok []
  | x :: l' => y ← f x; ys ← mapM f l'; Ok (y :: ys)
  end.

(** [for x in l: s = body(x, s)] with a body that may raise. *)
Fixpoint foldM {A S} (body : A -> S -> result S) (l : list A) (s : S)
  : result S :=
  match l with
  | [] => Ok s
  | x :: l' => s' ← body x s; foldM body l' s'
  end.

(** ** Python values stored in annotation and property dictionaries *)

Inductive pyval : Type :=
| PInt (z : Z)
| PFloat (q : Q)
| PArr (a : list Q).

(** [int(q)] on a float truncates toward zero. *)
Definition Qtrunc (q : Q) : Z := Z.quot (Qnum q) (Z.pos (Qden q)).

(** [int(v)]: integers and floats convert, so does an array of size one. *)
Definition py_int (v : pyval) : result Z :=
  match v with
  | PInt z => Ok z
  | PFloat q => Ok (Qtrunc q)
  | PArr [q] => Ok (Qtrunc q)
  | PArr _ => Raise TypeError
  end.

(** [d[k]] on a dictionary. *)
Definition getitem (d : gmap string pyval) (k : string) : result pyval :=
  match d !! k with
  | Some v => Ok v
  | None => Raise (KeyError k)
  end.

(** [k in d]. *)
Definition contains (d : gmap string pyval) (k : string) : bool :=
  bool_decide (is_Some (d !! k)).

(** [l[i]] on a list with a non-negative index. *)
Definition list_getitem {A} (l : list A) (i : nat) : result A :=
  match l !! i with
  | Some x => Ok x
  | None => Raise IndexError
  end.

(** [l.index(x)]: position of the first element equal to [x]. *)
Fixpoint list_index (x : Z) (l : list Z) : result nat :=
  match l with
  | [] => Raise ValueError
  | y :: l' => if Z.eqb y x then Ok O
               else i ← list_index x l'; Ok (S i)
  end.

(** [list(range(n))]. *)
Definition range (n : nat) : list Z := Z.of_nat <$> seq 0 n.

(** ** [np.rint]: round to the nearest integer, ties to the even one *)

Definition rint (q : Q) : Z :=
  let f := Qfloor q in
  match Qcompare (q - inject_Z f) (1 # 2) with
  | Lt => f
  | Gt => f + 1
  | Eq => if Z.even f then f else f + 1
  end.

(** ** binary64 *)

Inductive f64 : Type :=
| Finite (q : Q)
| PInf
| NInf
| NaN.

(** [n / d] rounded to the nearest integer, ties to the even one, for
    [0 <= n] and [0 < d]. *)
Definition div_round_even (n d : Z) : Z :=
  let q := n / d in
  match Z.compare (2 * (n mod d)) d with
  | Lt => q
  | Gt => q + 1
  | Eq => if Z.even q then q else q + 1
  end.

(** [floor (log2 (n / d))] for positive [n] and [d]. *)
Definition log2_floor (n d : Z) : Z :=
  let k := Z.log2 n - Z.log2 d in
  if (if 0 <=? k then d * 2 ^ k <=? n else d <=? n * 2 ^ (- k))
  then k else k - 1.

(** The exponent of the last bit of the significand of [n / d]: 52 below
    the leading bit, and not below [-1074], where the subnormals are. *)
Definition exponent64 (n d : Z) : Z := Z.max (log2_floor n d - 52) (-1074).

(** The binary64 nearest to the positive rational [n / d], ties to even: a
    53-bit significand times a power of two not below [2^-1074]; [None] when
    the rounded value leaves the range. *)
Definition round64_pos (n d : Z) : option Q :=
  let e := exponent64 n d in
  if 0 <=? e then
    let v := div_round_even n (d * 2 ^ e) * 2 ^ e in
    if 2 ^ 1024 <=? v then None else Some (inject_Z v)
  else Some (Qmake (div_round_even (n * 2 ^ (- e)) d) (Z.to_pos (2 ^ (- e)))).

Definition round64 (q : Q) : f64 :=
  match Qnum q with
  | 0 => Finite 0
  | Z.pos n =>
      match round64_pos (Z.pos n) (Z.pos (Qden q)) with
      | Some r => Finite r
      | None => PInf
      end
  | Z.neg n =>
      match round64_pos (Z.pos n) (Z.pos (Qden q)) with
      | Some r => Finite (- r)
      | None => NInf
      end
  end.

(** What the rounding computes, on rationals: [x] is brought to the
    exponent [e], rounded there to an integer, and brought back. *)
Definition pow2 (k : Z) : Q := Qpower 2 k.

Definition val64 (e : Z) (x : Q) : Q := (inject_Z (rint (x / pow2 e)) * pow2 e)%Q.

(** [x * q] for a finite [q]. *)
Definition fmul (x : f64) (q : Q) : f64 :=
  match x with
  | Finite p => round64 (p * q)
  | PInf => match Qcompare q 0 with Gt => PInf | Lt => NInf | Eq => NaN end
  | NInf => match Qcompare q 0 with Gt => NInf | Lt => PInf | Eq => NaN end
  | NaN => NaN
  end.

(** [p / q] for finite [p] and [q]; a zero divisor is [+0.0]. *)
Definition fdiv (p q : Q) : f64 :=
  match Qcompare q 0 with
  | Eq => match Qcompare p 0 with Gt => PInf | Lt => NInf | Eq => NaN end
  | _ => round64 (p / q)
  end.

(** [x <= y] and [x < y]; a comparison with NaN is false. *)
Definition f64_leb (x y : f64) : bool :=
  match x, y with
  | NaN, _ | _, NaN => false
  | Finite p, Finite q => Qle_bool p q
  | NInf, _ | _, PInf => true
  | _, _ => false
  end.

Definition f64_ltb (x y : f64) : bool :=
  match x, y with
  | NaN, _ | _, NaN => false
  | Finite p, Finite q => match Qcompare p q with Lt => true | _ => false end
  | NInf, NInf | PInf, PInf => false
  | NInf, _ | _, PInf => true
  | _, _ => false
  end.

(** The conversion of an [int64] to binary64: exact up to [2^53] in
    magnitude, rounded to 53 significant bits beyond. *)
Definition round_int (z : Z) : Z :=
  let e := Z.log2 (Z.abs z) - 52 in
  if e <=? 0 then z
  else Z.sgn z * (div_round_even (Z.abs z) (2 ^ e) * 2 ^ e).

Definition float_of_int (z : Z) : f64 := Finite (inject_Z (round_int z)).

(** [np.rint] on binary64. *)
Definition f64_rint (x : f64) : f64 :=
  match x with
  | Finite q => Finite (inject_Z (rint q))
  | _ => x
  end.

Definition int64_min : Z := - 2 ^ 63.

(** [.astype(int)], with [int] the 64-bit integer it is on Linux: the
    conversion of binary64 to [int64] truncates; out of range, and on an
    infinity or NaN, it yields the least [int64], as the conversion
    instruction of x86-64 does. *)
Definition astype_int (x : f64) : Z :=
  match x with
  | Finite q =>
      let z := Z.quot (Qnum q) (Z.pos (Qden q)) in
      if (int64_min <=? z) && (z <? 2 ^ 63) then z else int64_min
  | _ => int64_min
  end.

(** A value whose rounding is an [int64]. *)
Definition fits_int64 (x : f64) : Prop :=
  exists q, x = Finite q /\ int64_min <= rint q < 2 ^ 63.

(** The order of binary64 values, as a relation. *)
Definition f64_le (x y : f64) : Prop := f64_leb x y = true.

(** ** [pathlib.Path] (POSIX flavour) *)

(** The anchor is [""], ["/"] or ["//"]. *)
Record Path : Type := { anchor : string; parts : list string }.

Fixpoint leading_slashes (s : string) : nat :=
  match s with
  | String c s' => if Ascii.eqb c "/"%char then S (leading_slashes s') else O
  | EmptyString => O
  end.

(** Components of a path string: split at ['/']. *)
Fixpoint split_slash (s : string) : list string :=
  match s with
  | EmptyString => [EmptyString]
  | String c s' =>
      if Ascii.eqb c "/"%char then EmptyString :: split_slash s'
      else match split_slash s' with
           | [] => [String c EmptyString]
           | p :: ps => String c p :: ps
           end
  end.

Definition is_component (p : string) : bool :=
  negb (String.eqb p "" || String.eqb p ".").

(** [Path(s)]: empty and ["."] components are dropped; exactly two leading
    slashes are kept, any other number of them is one. *)
Definition Path_of (s : string) : Path :=
  {| anchor := match leading_slashes s with
               | O => ""
               | 2%nat => "//"
               | _ => "/"
               end;
     parts := List.filter is_component (split_slash s) |}.

(** [p / name] for a relative one-component [name]. *)
Definition joinpath (p : Path) (name : string) : Path :=
  {| anchor := anchor p; parts := parts p ++ [name] |}.

(** [str(p)]. *)
Definition Path_str (p : Path) : string :=
  match parts p with
  | [] => if String.eqb (anchor p) "" then "." else anchor p
  | c :: cs =>
      (anchor p +:+ fold_left (fun acc x => acc +:+ "/" +:+ x) cs c)%string
  end.

(** [p.name]: the final component. *)
Definition Path_name (p : Path) : string := List.last (parts p) ""%string.

(** [s.rfind(c)], with [None] for Python's [-1]. *)
Fixpoint rfind (c : ascii) (s : string) : option nat :=
  match s with
  | EmptyString => None
  | String a s' =>
      match rfind c s' with
      | Some i => Some (S i)
      | None => if Ascii.eqb a c then Some O else None
      end
  end.

(** The suffix of a file name: the name from its last dot on, when that dot
    is neither the first nor the last character. *)
Definition name_suffix (name : string) : string :=
  match rfind "."%char name with
  | Some i =>
      if ((0 <? i) && (i <? String.length name - 1))%nat
      then String.substring i (String.length name - i) name
      else ""%string
  | None => ""%string
  end.

(** [p.suffix]. *)
Definition Path_suffix (p : Path) : string := name_suffix (Path_name p).

(** ** Arrays and datasets *)

(** A two-dimensional array, or the h5py dataset holding one: its shape and
    its rows. *)
Record ndarray2 : Type :=
  { shape0 : nat; shape1 : nat; rows : list (list Q) }.

(** What makes [rows] an array of that shape. *)
Definition wf_ndarray2 (a : ndarray2) : Prop :=
  length (rows a) = shape0 a ∧ Forall (fun r => length r = shape1 a) (rows a).

(** A slice bound on an axis of length [n]: negative bounds count from the
    end, and both are clipped to the axis. *)
Definition slice_bound (n : nat) (i : Z) : nat :=
  Z.to_nat (if i <? 0 then Z.max 0 (i + Z.of_nat n) else Z.min i (Z.of_nat n)).

(** [l[start:stop]] on an axis of length [n]. *)
Definition slice {A} (n : nat) (start stop : Z) (l : list A) : list A :=
  take (slice_bound n stop - slice_bound n start) (drop (slice_bound n start) l).

(** Whether the entries increase strictly. *)
Fixpoint increasing_from (x : Z) (a : list Z) : bool :=
  match a with
  | [] => true
  | y :: a' => (x <? y) && increasing_from y a'
  end.

Definition increasing (a : list Z) : bool :=
  match a with
  | [] => true
  | x :: a' => increasing_from x a'
  end.

(** An index list on an axis of length [n] of an h5py dataset.  Negative
    entries count from the end; an entry that is then negative or beyond [n]
    is an [IndexError]; the entries must increase strictly, or it is a
    [TypeError]; an entry equal to [n] passes both checks and the read
    fails.  (The model reads an empty list as an empty integer array.) *)
Definition fancy_index (n : nat) (ids : list Z) : result (list nat) :=
  let a := (fun c => if c <? 0 then c + Z.of_nat n else c) <$> ids in
  if existsb (fun c => (c <? 0) || (Z.of_nat n <? c)) a then Raise IndexError
  else if negb (increasing a) then Raise TypeError
  else if existsb (fun c => c =? Z.of_nat n) a then Raise OSError
  else Ok (Z.to_nat <$> a).

(** [dset[ids, start:stop]] on the dataset: the listed rows, each cut to the
    column slice. *)
Definition dataset_getitem (a : ndarray2) (ids : list Z) (start stop : Z)
  : result ndarray2 :=
  ks ← fancy_index (shape0 a) ids;
  rs ← mapM (fun k => r ← list_getitem (rows a) k;
                      Ok (slice (shape1 a) start stop r)) ks;
  Ok {| shape0 := length ids;
        shape1 := slice_bound (shape1 a) stop - slice_bound (shape1 a) start;
        rows := rs |}.

(** [np.where(mask)]: the positions at which the mask holds. *)
Fixpoint np_where_from (i : nat) (mask : list bool) : list nat :=
  match mask with
  | [] => []
  | b :: mask' =>
      if b then i :: np_where_from (S i) mask' else np_where_from (S i) mask'
  end.

Definition np_where (mask : list bool) : list nat := np_where_from 0 mask.

(** [a[inds]] for an index array produced by [np.where]. *)
Definition np_take {A} (a : list A) (inds : list nat) : list A :=
  omap (fun i => a !! i) inds.

(** [np.minimum] and [np.maximum] of two values: NaN wins. *)
Definition f64_min (x y : f64) : f64 :=
  match x, y with
  | NaN, _ | _, NaN => NaN
  | _, _ => if f64_leb x y then x else y
  end.

Definition f64_max (x y : f64) : f64 :=
  match x, y with
  | NaN, _ | _, NaN => NaN
  | _, _ => if f64_leb x y then y else x
  end.

(** [np.min] and [np.max] have no identity: an empty array is an error. *)
Definition np_min (a : list f64) : result f64 :=
  match a with
  | [] => Raise ValueError
  | x :: a' => Ok (fold_left f64_min a' x)
  end.

Definition np_max (a : list f64) : result f64 :=
  match a with
  | [] => Raise ValueError
  | x :: a' => Ok (fold_left f64_max a' x)
  end.

(** ** External objects: spike trains, generators, the outside world *)

(** A [neo.SpikeTrain]: times in seconds, bounds and annotations. *)
Record SpikeTrain : Type :=
  { times : list f64;
    t_start : f64;
    t_stop : f64;
    annotations : gmap string pyval }.

(** [st.annotate(k=v)]. *)
Definition annotate (st : SpikeTrain) (k : string) (v : pyval) : SpikeTrain :=
  {| times := times st; t_start := t_start st; t_stop := t_stop st;
     annotations := <[k := v]> (annotations st) |}.

(** What [mr.load_recordings] hands back: [info['recordings']['fs']],
    [recordings], [channel_positions] and [spiketrains]. *)
Record RecordingGenerator : Type :=
  { info_fs : Q;
    recordings : ndarray2;
    channel_positions : list (list Q);
    spiketrains : list SpikeTrain }.

(** The [rec_dict] and [info] given to [mr.RecordingGenerator] on export;
    a key that is not set is [None]. *)
Record GeneratorArgs : Type :=
  { arg_fs : Q;
    arg_recordings : option ndarray2;
    arg_channel_positions : option (list pyval);
    arg_spiketrains : option (list SpikeTrain) }.

(** One call [mr.save_recording_generator(recgen, path, verbose=False)]. *)
Record SaveCall : Type :=
  { saved_generator : GeneratorArgs; saved_path : string }.

(** The environment the module runs in: what importing a package does, what
    the loader returns for a path, and which paths are directories.  An
    absent package makes its import raise [ModuleNotFoundError]; a package
    that is there can still fail to import, with any exception. *)
Record World : Type :=
  { import_module : string -> result unit;
    load_recordings : string -> result RecordingGenerator;
    is_dir : Path -> bool }.

Definition install_message : string :=
  "To use the MEArec extractors, install MEArec: 

pip install MEArec

".

(** The body of the [try]: the three imports, in order. *)
Definition import_all (w : World) : result unit :=
  _ ← import_module w "MEArec";
  _ ← import_module w "quantities";
  import_module w "neo".

(** The import that fails first, in the order of the [try] body, raises
    [e]. *)
Definition first_failing_import (w : World) (e : exn) : Prop :=
  import_module w "MEArec" = Raise e \/
  (import_module w "MEArec" = Ok tt /\
   import_module w "quantities" = Raise e) \/
  (import_module w "MEArec" = Ok tt /\
   import_module w "quantities" = Ok tt /\
   import_module w "neo" = Raise e).

(** Only [ModuleNotFoundError] is caught and replaced. *)
Definition _load_required_modules (w : World) : result unit :=
  match import_all w with
  | Ok _ => Ok tt
  | Raise (ModuleNotFoundError _) => Raise (ModuleNotFoundError install_message)
  | Raise e => Raise e
  end.

(** [sub in s] on strings. *)
Fixpoint is_substring (sub s : string) : bool :=
  String.prefix sub s ||
  match s with
  | EmptyString => false
  | String _ s' => is_substring sub s'
  end.

Definition usage_message : string :=
  "Provide a folder or an .h5/.hdf5 as 'save_path'".

(** ** The extractor base classes *)

(** Modelled from the spec: the property store of the abstract extractor base
    classes, whose source is not in this module.  A property is "named
    metadata attached to a recording channel" (or to a unit): it is kept per
    identifier and per name, and setting it again replaces the value. *)
Definition set_property (props : gmap Z (gmap string pyval))
    (id : Z) (name : string) (v : pyval) : gmap Z (gmap string pyval) :=
  <[id := <[name := v]> (default ∅ (props !! id))]> props.

Definition get_property (props : gmap Z (gmap string pyval))
    (id : Z) (name : string) : option pyval :=
  props !! id ≫= fun d => d !! name.

Module spikeextractors.

(** What [writeRecording] asks of a recording source. *)
Class RecordingExtractor (R : Type) : Type :=
{ getSamplingFrequency : R -> Q;
  getTraces : R -> result ndarray2;
  getChannelIds : R -> list Z;
  getChannelPropertyNames : R -> list string;
  getChannelProperty : R -> Z -> string -> result pyval }.

(** What [writeSorting] asks of a sorting source. *)
Class SortingExtractor (S : Type) : Type :=
{ getUnitIds : S -> result (list Z);
  getUnitSpikeTrain : S -> Z -> result (list Z) }.

End spikeextractors.

(** [enumerate(l)]. *)
Definition enumerate {A} (l : list A) : list (Z * A) :=
  zip (range (length l)) l.

(** The save path both exporters compute: a directory gets the default file
    name, with a notice on standard output. *)
Definition resolve_save_path (w : World) (save_path : string)
    (default_name notice : string) : list string * Path :=
  let p := Path_of save_path in
  if is_dir w p then ([notice], joinpath p default_name) else ([], p).

Definition recording_notice : string :=
  "The file will be saved as recording.h5 in the provided folder".

Definition sorting_notice : string :=
  "The file will be saved as sorting.h5 in the provided folder".

Definition has_h5_suffix (p : Path) : bool :=
  String.eqb (Path_suffix p) ".h5" || String.eqb (Path_suffix p) ".hdf5".

(** ** class MEArecRecordingExtractor *)

Module MEArecRecordingExtractor.

(** The attributes of a constructed object.  [__init__] first sets
    placeholders and then calls [_initialize], which assigns every
    attribute below or raises, in which case no object exists. *)
Record t : Type :=
  { _recording_path : string;
    _fs : Q;
    _recordings : ndarray2;
    _num_channels : nat;
    _num_frames : nat;
    _locations : option (list (list Q));
    _channel_properties : gmap Z (gmap string pyval) }.

Definition setChannelProperty (self : t) (channel_id : Z)
    (property_name : string) (value : pyval) : t :=
  {| _recording_path := _recording_path self;
     _fs := _fs self;
     _recordings := _recordings self;
     _num_channels := _num_channels self;
     _num_frames := _num_frames self;
     _locations := _locations self;
     _channel_properties :=
       set_property (_channel_properties self) channel_id property_name value |}.

Definition _initialize (w : World) (recording_path : string) : result t :=
  _ ← _load_required_modules w;
  recgen ← load_recordings w recording_path;
  let num_channels := shape0 (recordings recgen) in
  let num_frames := shape1 (recordings recgen) in
  Ok {| _recording_path := recording_path;
        _fs := info_fs recgen;
        _recordings := recordings recgen;
        _num_channels := num_channels;
        _num_frames := num_frames;
        _locations :=
          if Nat.eqb (length (channel_positions recgen)) num_channels
          then Some (channel_positions recgen) else None;
        _channel_properties := ∅ |}.

(** The body of the loop over [enumerate(self._locations)]. *)
Definition set_location (self : t) (cp : Z * list Q) : t :=
  setChannelProperty self cp.1 "location" (PArr cp.2).

Definition __init__ (w : World) (recording_path : string) : result t :=
  self ← _initialize w recording_path;
  match _locations self with
  | Some locations => Ok (fold_left set_location (enumerate locations) self)
  | None => Ok self
  end.

Definition getChannelIds (self : t) : list Z := range (_num_channels self).

(** Modelled from the spec: [getNumChannels] of the base class, the number
    of channel identifiers ("all channels in index order"). *)
Definition getNumChannels (self : t) : nat := length (getChannelIds self).

Definition getNumFrames (self : t) : nat := _num_frames self.

Definition getSamplingFrequency (self : t) : Q := _fs self.

Definition getTraces (self : t) (channel_ids : option (list Z))
    (start_frame end_frame : option Z) : result ndarray2 :=
  let start_frame := default 0 start_frame in
  let end_frame := default (Z.of_nat (getNumFrames self)) end_frame in
  let channel_ids := default (range (getNumChannels self)) channel_ids in
  dataset_getitem (_recordings self) channel_ids start_frame end_frame.

(** The location property of a channel, read from the store. *)
Definition location (self : t) (channel_id : Z) : option pyval :=
  get_property (_channel_properties self) channel_id "location".

(** The [channel_positions] entry of [rec_dict]: present when the source
    has a [location] channel property. *)
Definition export_positions {R} `{spikeextractors.RecordingExtractor R}
    (recording : R) : result (option (list pyval)) :=
  if bool_decide ("location"%string ∈ spikeextractors.getChannelPropertyNames recording)
  then Some <$> mapM (fun chan => spikeextractors.getChannelProperty recording chan "location")
                     (spikeextractors.getChannelIds recording)
  else Ok None.

Definition writeRecording {R} `{spikeextractors.RecordingExtractor R}
    (w : World) (recording : R) (save_path : string)
  : list string * result SaveCall :=
  match _load_required_modules w with
  | Raise e => ([], Raise e)
  | Ok _ =>
      let '(out, save_path) :=
        resolve_save_path w save_path "recording.h5" recording_notice in
      (out,
       if has_h5_suffix save_path then
         let fs := spikeextractors.getSamplingFrequency recording in
         traces ← spikeextractors.getTraces recording;
         positions ← export_positions recording;
         Ok {| saved_generator :=
                 {| arg_fs := fs;
                    arg_recordings := Some traces;
                    arg_channel_positions := positions;
                    arg_spiketrains := None |};
               saved_path := Path_str save_path |}
       else Raise (Exception usage_message))
  end.

End MEArecRecordingExtractor.

(** ** class MEArecSortingExtractor *)

(** An attribute that is still [None] cannot be used. *)
Definition not_none {A} (e : exn) (o : option A) : result A :=
  match o with
  | Some a => Ok a
  | None => Raise e
  end.

Module MEArecSortingExtractor.

(** The attributes; [None] until [_initialize] has run. *)
Record t : Type :=
  { _recording_path : string;
    _num_units : option nat;
    _spike_trains : option (list SpikeTrain);
    _unit_ids : option (list Z);
    _fs : option Q;
    _unit_properties : gmap Z (gmap string pyval) }.

Definition setUnitProperty (self : t) (unit_id : Z)
    (property_name : string) (value : pyval) : t :=
  {| _recording_path := _recording_path self;
     _num_units := _num_units self;
     _spike_trains := _spike_trains self;
     _unit_ids := _unit_ids self;
     _fs := _fs self;
     _unit_properties :=
       set_property (_unit_properties self) unit_id property_name value |}.

(** [int(st.annotations['unit_id'])]. *)
Definition annotated_unit_id (st : SpikeTrain) : result Z :=
  v ← getitem (annotations st) "unit_id"; py_int v.

(** The unit identifiers: the annotations when the first spike train has
    one, positions otherwise. *)
Definition unit_ids_of (sts : list SpikeTrain) (first : SpikeTrain)
  : result (list Z) :=
  if contains (annotations first) "unit_id"
  then mapM annotated_unit_id sts
  else Ok (range (length sts)).

(** The body of the loop that propagates [soma_position]. *)
Definition set_soma_location (ust : Z * SpikeTrain) (self : t) : result t :=
  v ← getitem (annotations ust.2) "soma_position";
  Ok (setUnitProperty self ust.1 "soma_location" v).

Definition _initialize (w : World) (self : t) : result t :=
  _ ← _load_required_modules w;
  recgen ← load_recordings w (_recording_path self);
  let num_units := length (spiketrains recgen) in
  first ← list_getitem (spiketrains recgen) 0;
  unit_ids ←
    (if contains (annotations first) "unit_id"
     then mapM annotated_unit_id (spiketrains recgen)
     else Ok (range num_units));
  let spike_trains := spiketrains recgen in
  let self := {| _recording_path := _recording_path self;
                 _num_units := Some num_units;
                 _spike_trains := Some spike_trains;
                 _unit_ids := Some unit_ids;
                 _fs := Some (info_fs recgen);
                 _unit_properties := _unit_properties self |} in
  first ← list_getitem spike_trains 0;
  if contains (annotations first) "soma_position"
  then foldM set_soma_location (zip unit_ids spike_trains) self
  else Ok self.

Definition __init__ (w : World) (recording_path : string) : result t :=
  _initialize w {| _recording_path := recording_path;
                   _num_units := None;
                   _spike_trains := None;
                   _unit_ids := None;
                   _fs := None;
                   _unit_properties := ∅ |}.

Definition getUnitIds (w : World) (self : t)
  : result (option (list Z) * t) :=
  self ← (if _unit_ids self is None then _initialize w self else Ok self);
  Ok (_unit_ids self, self).

Definition getNumUnits (w : World) (self : t) : result (option nat * t) :=
  self ← (if _num_units self is None then _initialize w self else Ok self);
  Ok (_num_units self, self).

(** [(start_frame <= times) & (times < end_frame)] on one product: the
    frame bounds are converted to binary64, and [None] stands for the
    unbounded [np.Inf]. *)
Definition in_window (start_frame : Z) (end_frame : option Z) (t : f64) : bool :=
  f64_leb (float_of_int start_frame) t &&
  match end_frame with
  | Some e => f64_ltb t (float_of_int e)
  | None => f64_ltb t PInf
  end.

Definition getUnitSpikeTrain (w : World) (self : t) (unit_id : Z)
    (start_frame end_frame : option Z) : result (list Z * t) :=
  let start_frame := default 0 start_frame in
  self ← (if _spike_trains self is None then _initialize w self else Ok self);
  spike_trains ← not_none TypeError (_spike_trains self);
  '(unit_ids, self) ← getUnitIds w self;
  unit_ids ← not_none AttributeError unit_ids;
  k ← list_index unit_id unit_ids;
  st ← list_getitem spike_trains k;
  fs ← not_none AttributeError (_fs self);
  let times := (fun t => fmul t fs) <$> times st in
  let inds := np_where (in_window start_frame end_frame <$> times) in
  Ok (astype_int <$> (f64_rint <$> np_take times inds), self).

(** Two states agree on every attribute but the property store. *)
Definition same_attributes (self self' : t) : Prop :=
  _recording_path self' = _recording_path self /\
  _num_units self' = _num_units self /\
  _spike_trains self' = _spike_trains self /\
  _unit_ids self' = _unit_ids self /\
  _fs self' = _fs self.

(** The soma location property of a unit, read from the store. *)
Definition soma_location (self : t) (unit_id : Z) : option pyval :=
  get_property (_unit_properties self) unit_id "soma_location".

(** Sample indices divided by [float(sampling_frequency)]: each index is
    converted to binary64 and divided.  The rate is a value that binary64
    holds, so [float] leaves it as it is. *)
Definition to_seconds (sampling_frequency : Q) (a : list Z) : list f64 :=
  (fun i => fdiv (inject_Z (round_int i)) sampling_frequency) <$> a.

(** The body of the loop that builds one [neo.SpikeTrain] per unit. *)
Definition build_spiketrain {S} `{spikeextractors.SortingExtractor S}
    (sorting : S) (sampling_frequency : Q) (u : Z) : result SpikeTrain :=
  a ← spikeextractors.getUnitSpikeTrain sorting u;
  b ← spikeextractors.getUnitSpikeTrain sorting u;
  lo ← np_min (to_seconds sampling_frequency b);
  c ← spikeextractors.getUnitSpikeTrain sorting u;
  hi ← np_max (to_seconds sampling_frequency c);
  Ok (annotate {| times := to_seconds sampling_frequency a;
                  t_start := lo;
                  t_stop := hi;
                  annotations := ∅ |} "unit_id" (PInt u)).

Definition writeSorting {S} `{spikeextractors.SortingExtractor S}
    (w : World) (sorting : S) (save_path : string) (sampling_frequency : Q)
  : list string * result SaveCall :=
  match _load_required_modules w with
  | Raise e => ([], Raise e)
  | Ok _ =>
      let '(out, save_path) :=
        resolve_save_path w save_path "sorting.h5" sorting_notice in
      (out,
       if has_h5_suffix save_path then
         unit_ids ← spikeextractors.getUnitIds sorting;
         spiketrains ← mapM (build_spiketrain sorting sampling_frequency) unit_ids;
         Ok {| saved_generator :=
                 {| arg_fs := sampling_frequency;
                    arg_recordings := None;
                    arg_channel_positions := None;
                    arg_spiketrains := Some spiketrains |};
               saved_path := Path_str save_path |}
       else Raise (Exception usage_message))
  end.

End MEArecSortingExtractor.

(** ** Small concrete containers, used to run the model *)

Module Examples.

Definition all_installed (name : string) : result unit := Ok tt.

Definition no_directories (p : Path) : bool := false.

Definition train (ts : list Q) (ann : list (string * pyval)) : SpikeTrain :=
  {| times := Finite <$> ts; t_start := Finite 0; t_stop := Finite 1000;
     annotations := list_to_map ann |}.

Definition empty_traces : ndarray2 := {| shape0 := 0; shape1 := 0; rows := [] |}.

Definition sorting_world (fs : Q) (sts : list SpikeTrain) : World :=
  {| import_module := all_installed;
     load_recordings := fun _ =>
       Ok {| info_fs := fs; recordings := empty_traces;
             channel_positions := []; spiketrains := sts |};
     is_dir := no_directories |}.


(** A 3 x 20 trace matrix: channel [c] holds [100 c + j] at frame [j]. *)
Definition traces_3x20 : ndarray2 :=
  {| shape0 := 3; shape1 := 20;
     rows := (fun c => (fun j => inject_Z (100 * c + j)) <$> range 20)
               <$> range 3 |}.

Definition recording_world (traces : ndarray2) (positions : list (list Q))
  : World :=
  {| import_module := all_installed;
     load_recordings := fun _ =>
       Ok {| info_fs := 30000; recordings := traces;
             channel_positions := positions; spiketrains := [] |};
     is_dir := no_directories |}.

Definition positions_3 : list (list Q) :=
  [[0; 0; 0]; [0; 10; 0]; [0; 20; 0]]%Q.

Definition probe_3x20 : World := recording_world traces_3x20 positions_3.

(** One unit at 3 Hz with a spike at the binary64 nearest to a third of a
    second: the exact product is below 1, the binary64 product is 1. *)
Definition third_of_a_second : World :=
  sorting_world 3
    [train [6004799503160661 # 18014398509481984]%Q [("unit_id"%string, PInt 0)]].

(** One unit at 100 kHz with a spike at [10^15] s: the product [10^20] does
    not fit an [int64]. *)
Definition distant_spike : World :=
  sorting_world 100000
    [train [1000000000000000]%Q [("unit_id"%string, PInt 0)]].


(** Two units that carry identifiers 7 and 3 and a soma position each. *)
Definition two_units : World :=
  sorting_world 30000
    [train [(1 # 128); (1 # 64)]%Q
       [("unit_id"%string, PInt 7); ("soma_position"%string, PArr [1; 2; 3]%Q)];
     train [(1 # 256); (1 # 32)]%Q
       [("unit_id"%string, PFloat (7 # 2)); ("soma_position"%string, PArr [4; 5; 6]%Q)]].

(** Two units without annotations. *)
Definition two_plain_units : World :=
  sorting_world 30000 [train [(1 # 128)]%Q []; train [(1 # 256)]%Q []].

(** The first spike train carries a [unit_id], the second does not. *)
Definition mixed_unit_id_trains : list SpikeTrain :=
  [train [(1 # 128)]%Q [("unit_id"%string, PInt 5)]; train [(1 # 256)]%Q []].

Definition mixed_unit_ids : World := sorting_world 30000 mixed_unit_id_trains.

(** The first spike train carries a [soma_position], the second does not. *)
Definition mixed_soma_trains : list SpikeTrain :=
  [train [(1 # 128)]%Q [("soma_position"%string, PArr [1; 2; 3]%Q)];
   train [(1 # 256)]%Q []].

Definition mixed_soma : World := sorting_world 30000 mixed_soma_trains.

(** A world in which [neo] is not installed. *)
Definition without_neo : World :=
  {| import_module := fun name =>
       if String.eqb name "neo"
       then Raise (ModuleNotFoundError "No module named 'neo'")
       else Ok tt;
     load_recordings := fun _ => Raise IndexError;
     is_dir := no_directories |}.

(** A world in which [neo] is installed but its import fails. *)
Definition broken_neo : World :=
  {| import_module := fun name =>
       if String.eqb name "neo"
       then Raise (ImportError "cannot import name 'SpikeTrain'")
       else Ok tt;
     load_recordings := fun _ => Raise IndexError;
     is_dir := no_directories |}.

(** A world whose only directory is [out]. *)
Definition with_out_dir : World :=
  {| import_module := all_installed;
     load_recordings := fun _ => Raise IndexError;
     is_dir := fun p => String.eqb (Path_str p) "out" |}.

(** A recording source held in memory. *)
Record ArrayRecording : Type :=
  { array_fs : Q; array_traces : ndarray2; array_locations : list pyval }.

#[global] Instance ArrayRecording_source
  : spikeextractors.RecordingExtractor ArrayRecording :=
  {| spikeextractors.getSamplingFrequency := array_fs;
     spikeextractors.getTraces := fun r => Ok (array_traces r);
     spikeextractors.getChannelIds := fun r => range (shape0 (array_traces r));
     spikeextractors.getChannelPropertyNames := fun r =>
       match array_locations r with [] => [] | _ => ["location"%string] end;
     spikeextractors.getChannelProperty := fun r chan name =>
       if String.eqb name "location"
       then (if chan <? 0 then Raise IndexError
             else list_getitem (array_locations r) (Z.to_nat chan))
       else Raise (KeyError name) |}.

(** A sorting source held in memory: unit identifiers with their samples. *)
Record ListSorting : Type := { units : list (Z * list Z) }.

Fixpoint assoc (u : Z) (l : list (Z * list Z)) : result (list Z) :=
  match l with
  | [] => Raise ValueError
  | (u', a) :: l' => if Z.eqb u' u then Ok a else assoc u l'
  end.

#[global] Instance ListSorting_source
  : spikeextractors.SortingExtractor ListSorting :=
  {| spikeextractors.getUnitIds := fun s => Ok (units s).*1;
     spikeextractors.getUnitSpikeTrain := fun s u => assoc u (units s) |}.

Definition sorting_2 : ListSorting :=
  {| units := [(7, [30; 60; 90]); (3, [15])] |}.

Definition sorting_with_silent_unit : ListSorting :=
  {| units := [(7, [30; 60; 90]); (3, [])] |}.

Definition recording_3x20 : ArrayRecording :=
  {| array_fs := 30000; array_traces := traces_3x20;
     array_locations := PArr <$> positions_3 |}.

(** A recording source with three channels and a location for the first
    one only. *)
Definition recording_one_location : ArrayRecording :=
  {| array_fs := 30000; array_traces := traces_3x20;
     array_locations := [PArr [0; 0; 0]%Q] |}.

(** A sorting source without units. *)
Definition empty_sorting : ListSorting := {| units := [] |}.

(** The spike trains [writeSorting] builds for [sorting_2] at 30 kHz, and a
    world in which the loader returns them. *)
Definition exported_trains : list SpikeTrain :=
  match mapM (MEArecSortingExtractor.build_spiketrain sorting_2 30000) [7; 3] with
  | Ok sts => sts
  | Raise _ => []
  end.

Definition reloaded : World := sorting_world 30000 exported_trains.

End Examples.


(** * Properties *)

(** ** The result monad *)

Lemma bind_Ok {A B} (r : result A) (k : A -> result B) (b : B) :
  r ≫= k = Ok b -> exists a, r = Ok a /\ k a = Ok b.
Proof. destruct r as [a|e]; simpl; [eauto | discriminate]. Qed.

Lemma mapM_length {A B} (f : A -> result B) (l : list A) (l' : list B) :
  mapM f l = Ok l' -> length l' = length l.
Proof.
  revert l'; induction l as [|x l IH]; simpl; intros l' H.
  - by inversion H.
  - destruct (f x) as [y|]; simpl in H; [|discriminate].
    destruct (mapM f l) as [ys|]; simpl in H; [|discriminate].
    inversion H; subst; simpl. f_equal. by apply IH.
Qed.

Lemma mapM_Forall2 {A B} (f : A -> result B) (l : list A) (l' : list B) :
  mapM f l = Ok l' <-> Forall2 (fun x y => f x = Ok y) l l'.
Proof.
  revert l'; induction l as [|x l IH]; simpl; intros l'.
  - split; [intros H; inversion H; constructor | intros H; by inversion H].
  - split.
    + intros H. destruct (f x) as [y|] eqn:Hx; simpl in H; [|discriminate].
      destruct (mapM f l) as [ys|] eqn:Hl; simpl in H; [|discriminate].
      inversion H; subst. constructor; [done | by apply IH].
    + intros H. inversion H as [|? y ? ys Hx Hl]; subst.
      rewrite Hx; simpl. apply IH in Hl. by rewrite Hl.
Qed.

Lemma mapM_raises {A B} (f : A -> result B) (l : list A) (x : A) :
  x ∈ l -> raises (f x) -> raises (mapM f l).
Proof.
  intros Hin Hx. induction l as [|y l IH]; [by inversion Hin|].
  simpl. destruct (f y) as [b|] eqn:Hy; simpl; [|done].
  inversion Hin; subst.
  - rewrite Hy in Hx. destruct Hx.
  - destruct (mapM f l); simpl; [|done]. by apply IH.
Qed.

Lemma mapM_raises_with {A B} (f : A -> result B) (l : list A) (x : A) (e : exn) :
  (forall y e', y ∈ l -> f y = Raise e' -> e' = e) ->
  x ∈ l -> raises (f x) -> mapM f l = Raise e.
Proof.
  intros Honly Hin Hx. induction l as [|y l IH]; [by inversion Hin|].
  simpl. destruct (f y) as [b|e'] eqn:Hy; simpl.
  - apply elem_of_cons in Hin as [->|Hin]; [rewrite Hy in Hx; destruct Hx|].
    rewrite IH; [done | | done].
    intros z e' Hz. apply Honly. by apply elem_of_cons; right.
  - f_equal. apply (Honly y e'); [apply elem_of_cons; by left | done].
Qed.

Lemma foldM_raises_with {A S} (body : A -> S -> result S) (l : list A)
    (x : A) (e : exn) (s : S) :
  (forall y s' e', body y s' = Raise e' -> e' = e) ->
  x ∈ l -> (forall s', raises (body x s')) -> foldM body l s = Raise e.
Proof.
  intros Honly Hin Hx. revert s. induction l as [|y l IH]; intros s;
    [by inversion Hin|].
  simpl. destruct (body y s) as [s1|e'] eqn:Hy; simpl.
  - apply elem_of_cons in Hin as [->|Hin].
    + specialize (Hx s). rewrite Hy in Hx. destruct Hx.
    + by apply IH.
  - f_equal. by apply (Honly y s e').
Qed.

(** ** Ranges *)

Lemma range_length n : length (range n) = n.
Proof. unfold range. by rewrite length_fmap, length_seq. Qed.

Lemma range_lookup n k : (k < n)%nat -> range n !! k = Some (Z.of_nat k).
Proof.
  intros H. unfold range. rewrite list_lookup_fmap, lookup_seq_lt by done.
  done.
Qed.

Lemma range_S n : range (S n) = range n ++ [Z.of_nat n].
Proof. unfold range. by rewrite seq_S, fmap_app. Qed.

Lemma enumerate_snoc {A} (l : list A) (x : A) :
  enumerate (l ++ [x]) = enumerate l ++ [(Z.of_nat (length l), x)].
Proof.
  unfold enumerate. rewrite length_app; simpl length.
  rewrite Nat.add_1_r, range_S.
  by rewrite zip_with_app by apply range_length.
Qed.

(** ** The property store *)

Lemma get_set_property props id name v id' name' :
  get_property (set_property props id name v) id' name' =
  if decide (id = id' /\ name = name') then Some v
  else get_property props id' name'.
Proof.
  unfold get_property, set_property.
  destruct (decide (id = id')) as [->|Hid].
  - rewrite lookup_insert_eq; simpl.
    destruct (decide (name = name')) as [->|Hname].
    + rewrite lookup_insert_eq. by rewrite decide_True.
    + rewrite lookup_insert_ne by done. rewrite decide_False by tauto.
      destruct (props !! id'); simpl; [done | apply lookup_empty].
  - rewrite lookup_insert_ne by done. by rewrite decide_False by tauto.
Qed.

Lemma get_property_empty id name : get_property ∅ id name = None.
Proof. unfold get_property. by rewrite lookup_empty. Qed.

(** ** The recording extractor *)

Section Recording.
Import MEArecRecordingExtractor.

Lemma set_locations_fields (l : list (Z * list Q)) (self : t) :
  let self' := fold_left set_location l self in
  _fs self' = _fs self /\ _recordings self' = _recordings self /\
  _num_channels self' = _num_channels self /\
  _num_frames self' = _num_frames self /\
  _locations self' = _locations self.
Proof.
  revert self; induction l as [|[chan pos] l IH]; intros self; simpl; [done|].
  apply (IH (setChannelProperty self chan "location" (PArr pos))).
Qed.

Lemma set_locations_lookup (locations : list (list Q)) (self : t) (c : nat) :
  _channel_properties self = ∅ ->
  location (fold_left set_location (enumerate locations) self) (Z.of_nat c)
  = PArr <$> locations !! c.
Proof.
  intros Hempty. induction locations as [|pos locations IH] using rev_ind.
  - simpl. unfold location. rewrite Hempty. apply get_property_empty.
  - rewrite enumerate_snoc, fold_left_app; simpl.
    unfold location in *; simpl. rewrite get_set_property.
    destruct (decide (c = length locations)) as [->|Hc].
    + rewrite decide_True by done.
      by rewrite list_lookup_middle.
    + rewrite decide_False by (intros [? _]; lia). rewrite IH.
      destruct (decide (c < length locations)%nat).
      * by rewrite lookup_app_l.
      * rewrite !lookup_ge_None_2; try done; rewrite ?length_app; simpl; lia.
Qed.

Lemma init_inv (w : World) (path : string) (self : t) :
  __init__ w path = Ok self ->
  exists recgen self0,
    _load_required_modules w = Ok tt /\
    load_recordings w path = Ok recgen /\
    _initialize w path = Ok self0 /\
    _channel_properties self0 = ∅ /\
    _fs self = info_fs recgen /\
    _recordings self = recordings recgen /\
    _num_channels self = shape0 (recordings recgen) /\
    _num_frames self = shape1 (recordings recgen) /\
    _locations self0 =
      (if Nat.eqb (length (channel_positions recgen)) (shape0 (recordings recgen))
       then Some (channel_positions recgen) else None) /\
    self = match _locations self0 with
           | Some locations => fold_left set_location (enumerate locations) self0
           | None => self0
           end.
Proof.
  unfold __init__. intros H.
  apply bind_Ok in H as (self0 & Hinit & H).
  pose proof Hinit as Hinit'. unfold _initialize in Hinit'.
  apply bind_Ok in Hinit' as ([] & Hmod & Hinit').
  apply bind_Ok in Hinit' as (recgen & Hload & Hinit').
  inversion Hinit' as [Hself0]. exists recgen, self0.
  assert (Hself : self = match _locations self0 with
           | Some locations => fold_left set_location (enumerate locations) self0
           | None => self0
           end).
  { destruct (_locations self0); inversion H; done. }
  split_and!; try done; try (by subst self0).
  all: rewrite Hself; destruct (_locations self0) as [locs|] eqn:Hl;
    [ destruct (set_locations_fields (enumerate locs) self0) as (?&?&?&?&?) | ];
    subst self0; simpl in *; congruence.
Qed.

End Recording.

(** C9.  A constructed recording extractor lists its channels as the dense
    range [0, 1, ..., num_channels - 1], where [num_channels] is the first
    dimension of the loaded trace matrix; nothing else of the container
    enters the list. *)
Theorem getChannelIds_dense (w : World) (path : string)
    (self : MEArecRecordingExtractor.t) (recgen : RecordingGenerator) :
  MEArecRecordingExtractor.__init__ w path = Ok self ->
  load_recordings w path = Ok recgen ->
  MEArecRecordingExtractor.getChannelIds self
    = Z.of_nat <$> seq 0 (shape0 (recordings recgen)) /\
  length (MEArecRecordingExtractor.getChannelIds self)
    = shape0 (recordings recgen) /\
  forall k, (k < shape0 (recordings recgen))%nat ->
    MEArecRecordingExtractor.getChannelIds self !! k = Some (Z.of_nat k).
Proof.
  intros Hinit Hload.
  apply init_inv in Hinit as (recgen' & self0 & _ & Hload' & _ & _ & _ & _ & Hn & _).
  rewrite Hload in Hload'. inversion Hload'; subst recgen'.
  unfold MEArecRecordingExtractor.getChannelIds. rewrite Hn.
  split_and!; [done | apply range_length | apply range_lookup].
Qed.

Lemma getChannelIds_dense_witness :
  exists self,
    MEArecRecordingExtractor.__init__ Examples.probe_3x20 "rec.h5" = Ok self /\
    MEArecRecordingExtractor.getChannelIds self = [0; 1; 2].
Proof.
  eexists. split; [reflexivity|].
  apply (getChannelIds_dense Examples.probe_3x20 "rec.h5" _ _ eq_refl eq_refl).
Defined.

(** C4.  When the loaded position array is as long as the channel count,
    every channel [c] gets row [c] of the array as its [location] property;
    when the lengths differ, no channel has a [location] property. *)
Theorem channel_locations (w : World) (path : string)
    (self : MEArecRecordingExtractor.t) (recgen : RecordingGenerator) :
  MEArecRecordingExtractor.__init__ w path = Ok self ->
  load_recordings w path = Ok recgen ->
  (length (channel_positions recgen) = shape0 (recordings recgen) ->
   forall c, (c < shape0 (recordings recgen))%nat ->
     exists pos, channel_positions recgen !! c = Some pos /\
       MEArecRecordingExtractor.location self (Z.of_nat c) = Some (PArr pos)) /\
  (length (channel_positions recgen) <> shape0 (recordings recgen) ->
   forall c : Z, MEArecRecordingExtractor.location self c = None).
Proof.
  intros Hinit Hload.
  apply init_inv in Hinit
    as (recgen' & self0 & _ & Hload' & _ & Hempty & _ & _ & _ & _ & Hlocs & ->).
  rewrite Hload in Hload'. inversion Hload'; subst recgen'. clear Hload'.
  split; intros Hlen.
  - intros c Hc. apply Nat.eqb_eq in Hlen as Heq. rewrite Heq in Hlocs.
    rewrite Hlocs. rewrite <- Hlen in Hc.
    destruct (lookup_lt_is_Some_2 _ _ Hc) as [pos Hpos].
    exists pos. split; [done|].
    rewrite set_locations_lookup by done. by rewrite Hpos.
  - intros c. apply Nat.eqb_neq in Hlen as Heq. rewrite Heq in Hlocs.
    rewrite Hlocs. unfold MEArecRecordingExtractor.location.
    rewrite Hempty. apply get_property_empty.
Qed.

Lemma channel_locations_witness :
  exists self,
    MEArecRecordingExtractor.__init__ Examples.probe_3x20 "rec.h5" = Ok self /\
    MEArecRecordingExtractor.location self 1 = Some (PArr [0; 10; 0]%Q).
Proof.
  eexists. split; [reflexivity|].
  destruct (channel_locations Examples.probe_3x20 "rec.h5" _ _ eq_refl eq_refl)
    as [Hsame _].
  destruct (Hsame eq_refl 1%nat ltac:(simpl; lia)) as (pos & Hpos & Hloc).
  simpl in Hpos. inversion Hpos; subst pos. exact Hloc.
Defined.

(** ** Indexing the trace matrix *)

Lemma slice_bound_in_range (n : nat) (i : nat) :
  (i <= n)%nat -> slice_bound n (Z.of_nat i) = i.
Proof.
  intros H. unfold slice_bound.
  destruct (Z.ltb_spec (Z.of_nat i) 0); [lia|].
  rewrite Z.min_l by lia. apply Nat2Z.id.
Qed.

Lemma slice_in_range {A} (n i j : nat) (l : list A) :
  (i <= n)%nat -> (j <= n)%nat ->
  slice n (Z.of_nat i) (Z.of_nat j) l = take (j - i) (drop i l).
Proof.
  intros Hi Hj. unfold slice. by rewrite !slice_bound_in_range by done.
Qed.

Lemma existsb_false_Forall {A} (f : A -> bool) (l : list A) :
  existsb f l = false <-> Forall (fun x => f x = false) l.
Proof.
  induction l as [|x l IH]; simpl.
  - split; [constructor | done].
  - rewrite orb_false_iff, Forall_cons, IH. done.
Qed.

Lemma increasing_from_seq (x : Z) (i m : nat) :
  x < Z.of_nat i -> increasing_from x (Z.of_nat <$> seq i m) = true.
Proof.
  revert x i; induction m as [|m IH]; intros x i Hx; simpl; [done|].
  apply andb_true_iff. split; [by apply Z.ltb_lt|]. apply IH. lia.
Qed.

Lemma increasing_range (n : nat) : increasing (range n) = true.
Proof.
  unfold range. destruct n as [|n]; [done|]. simpl.
  apply increasing_from_seq. lia.
Qed.

Lemma fancy_index_in_range (n : nat) (ids : list Z) :
  Forall (fun c => 0 <= c < Z.of_nat n) ids -> increasing ids = true ->
  fancy_index n ids = Ok (Z.to_nat <$> ids).
Proof.
  intros Hids Hinc. unfold fancy_index.
  assert (Hwrap : (fun c => if c <? 0 then c + Z.of_nat n else c) <$> ids = ids).
  { clear Hinc. induction Hids as [|c ids Hc _ IH]; simpl; [done|].
    destruct (Z.ltb_spec c 0); [lia|]. f_equal. exact IH. }
  rewrite Hwrap.
  assert (H1 : existsb (fun c => (c <? 0) || (Z.of_nat n <? c)) ids = false).
  { apply existsb_false_Forall. eapply Forall_impl; [exact Hids|].
    intros c Hc. simpl in *. apply orb_false_iff. split; apply Z.ltb_ge; lia. }
  assert (H2 : existsb (fun c => c =? Z.of_nat n) ids = false).
  { apply existsb_false_Forall. eapply Forall_impl; [exact Hids|].
    intros c Hc. simpl in *. apply Z.eqb_neq. lia. }
  by rewrite H1, Hinc, H2.
Qed.

Lemma fancy_index_beyond (n : nat) (ids : list Z) (c : Z) :
  c ∈ ids -> Z.of_nat n <= c -> raises (fancy_index n ids).
Proof.
  intros Hin Hc. unfold fancy_index.
  set (a := (fun c => if c <? 0 then c + Z.of_nat n else c) <$> ids).
  assert (Ha : c ∈ a).
  { apply list_elem_of_fmap. exists c. split; [|done].
    destruct (Z.ltb_spec c 0); [lia | done]. }
  destruct (existsb (fun c => (c <? 0) || (Z.of_nat n <? c)) a) eqn:H1; [done|].
  destruct (negb (increasing a)); [done|].
  assert (H2 : existsb (fun c => c =? Z.of_nat n) a = true).
  { apply existsb_exists. exists c. split; [by apply list_elem_of_In|].
    apply Z.eqb_eq.
    rewrite existsb_false_Forall, Forall_forall in H1.
    specialize (H1 c Ha). simpl in H1. apply orb_false_iff in H1 as [_ H1].
    apply Z.ltb_ge in H1. lia. }
  by rewrite H2.
Qed.

Lemma dataset_getitem_all (a : ndarray2) :
  wf_ndarray2 a ->
  dataset_getitem a (range (shape0 a)) 0 (Z.of_nat (shape1 a)) = Ok a.
Proof.
  intros [Hrows Hcols]. unfold dataset_getitem.
  rewrite fancy_index_in_range; [| | apply increasing_range].
  2:{ apply Forall_forall. intros c Hc. unfold range in Hc.
      apply list_elem_of_fmap in Hc as (k & -> & Hk).
      apply elem_of_seq in Hk. lia. }
  simpl.
  assert (Hmap : mapM (fun k => r ← list_getitem (rows a) k;
                          Ok (slice (shape1 a) 0 (Z.of_nat (shape1 a)) r))
                   (Z.to_nat <$> range (shape0 a)) = Ok (rows a)).
  { apply mapM_Forall2. apply Forall2_same_length_lookup_2.
    - by rewrite length_fmap, range_length.
    - intros i k r Hk Hr.
      assert (Hi : (i < shape0 a)%nat).
      { rewrite <- Hrows. by eapply lookup_lt_Some. }
      rewrite list_lookup_fmap, range_lookup in Hk by done.
      simpl in Hk. rewrite Nat2Z.id in Hk. inversion Hk; subst k.
      unfold list_getitem. rewrite Hr. simpl. f_equal.
      change 0 with (Z.of_nat 0). rewrite slice_in_range by lia.
      rewrite Nat.sub_0_r, drop_0. apply take_ge.
      rewrite Forall_forall in Hcols. rewrite (Hcols r); [done|].
      by eapply list_elem_of_lookup_2. }
  rewrite Hmap. simpl. rewrite range_length.
  change 0 with (Z.of_nat 0). rewrite !slice_bound_in_range by lia.
  rewrite Nat.sub_0_r. by destruct a.
Qed.

(** C5.  With every argument omitted, [getTraces] returns the whole trace
    matrix unchanged; on a matrix that has a channel 2 and at least 20 frames,
    [getTraces(channel_ids=[2], start_frame=10, end_frame=20)] returns the
    1 x 10 matrix holding frames 10..19 of channel 2. *)
Theorem getTraces_defaults_and_window (w : World) (path : string)
    (self : MEArecRecordingExtractor.t) :
  MEArecRecordingExtractor.__init__ w path = Ok self ->
  wf_ndarray2 (MEArecRecordingExtractor._recordings self) ->
  MEArecRecordingExtractor.getTraces self None None None
    = Ok (MEArecRecordingExtractor._recordings self) /\
  ((2 < MEArecRecordingExtractor.getNumChannels self)%nat ->
   (20 <= MEArecRecordingExtractor.getNumFrames self)%nat ->
   exists channel2 window,
     rows (MEArecRecordingExtractor._recordings self) !! 2%nat = Some channel2 /\
     MEArecRecordingExtractor.getTraces self (Some [2]) (Some 10) (Some 20)
       = Ok {| shape0 := 1; shape1 := 10; rows := [window] |} /\
     length window = 10%nat /\
     forall j, (j < 10)%nat -> window !! j = channel2 !! (10 + j)%nat).
Proof.
  intros Hinit Hwf.
  apply init_inv in Hinit
    as (recgen & self0 & _ & _ & _ & _ & _ & Hrec & Hn & Hm & _).
  unfold MEArecRecordingExtractor.getTraces,
    MEArecRecordingExtractor.getNumChannels,
    MEArecRecordingExtractor.getNumFrames,
    MEArecRecordingExtractor.getChannelIds.
  rewrite range_length, Hn, Hm, <- Hrec. simpl.
  split; [by apply dataset_getitem_all|].
  intros Hchan Hframes. destruct Hwf as [Hrows Hcols].
  set (a := MEArecRecordingExtractor._recordings self) in *. clearbody a.
  destruct (lookup_lt_is_Some_2 (rows a) 2) as [channel2 Hrow]; [lia|].
  assert (Hlen : length channel2 = shape1 a).
  { rewrite Forall_forall in Hcols. apply Hcols.
    by eapply list_elem_of_lookup_2. }
  exists channel2, (take 10 (drop 10 channel2)). split_and!.
  - done.
  - unfold dataset_getitem.
    rewrite fancy_index_in_range; [|repeat constructor; lia | done].
    change (Z.to_nat <$> [2]) with [2%nat]. simpl.
    unfold list_getitem. rewrite Hrow. simpl.
    change 10 with (Z.of_nat 10). change 20 with (Z.of_nat 20).
    rewrite slice_in_range, !slice_bound_in_range by lia. done.
  - rewrite length_take, length_drop. lia.
  - intros j Hj. rewrite lookup_take_lt by done. by rewrite lookup_drop.
Qed.

Lemma getTraces_defaults_and_window_witness :
  exists self,
    MEArecRecordingExtractor.__init__ Examples.probe_3x20 "rec.h5" = Ok self /\
    MEArecRecordingExtractor.getTraces self None None None
      = Ok Examples.traces_3x20 /\
    exists channel2 window,
      rows Examples.traces_3x20 !! 2%nat = Some channel2 /\
      MEArecRecordingExtractor.getTraces self (Some [2]) (Some 10) (Some 20)
        = Ok {| shape0 := 1; shape1 := 10; rows := [window] |} /\
      length window = 10%nat /\
      forall j, (j < 10)%nat -> window !! j = channel2 !! (10 + j)%nat.
Proof.
  eexists. split; [reflexivity|].
  assert (Hwf : wf_ndarray2 Examples.traces_3x20).
  { split; [reflexivity | repeat constructor]. }
  destruct (getTraces_defaults_and_window Examples.probe_3x20 "rec.h5" _
              eq_refl Hwf) as [Hall Hwin].
  split; [exact Hall|].
  exact (Hwin ltac:(vm_compute; lia) ltac:(vm_compute; lia)).
Defined.

(** The same call, evaluated on the 3 x 20 example. *)
Example getTraces_probe_3x20 :
  (self ← MEArecRecordingExtractor.__init__ Examples.probe_3x20 "rec.h5";
   MEArecRecordingExtractor.getTraces self (Some [2]) (Some 10) (Some 20))
  = Ok {| shape0 := 1; shape1 := 10;
          rows := [[210; 211; 212; 213; 214; 215; 216; 217; 218; 219]%Q] |}.
Proof. reflexivity. Qed.


(** ** The dependency check *)

Lemma first_failing_import_all (w : World) (e : exn) :
  first_failing_import w e -> import_all w = Raise e.
Proof.
  unfold import_all. intros [H|[[H1 H]|(H1 & H2 & H)]].
  - by rewrite H.
  - by rewrite H1; simpl; rewrite H.
  - by rewrite H1; simpl; rewrite H2.
Qed.

Lemma modules_absent (w : World) (msg : string) :
  first_failing_import w (ModuleNotFoundError msg) ->
  _load_required_modules w = Raise (ModuleNotFoundError install_message).
Proof.
  intros H. apply first_failing_import_all in H.
  unfold _load_required_modules. by rewrite H.
Qed.

Lemma modules_failing (w : World) (e : exn) :
  first_failing_import w e -> (forall msg, e <> ModuleNotFoundError msg) ->
  _load_required_modules w = Raise e.
Proof.
  intros H Hother. apply first_failing_import_all in H.
  unfold _load_required_modules. rewrite H.
  destruct e; try done. by destruct (Hother msg).
Qed.

Lemma entry_points_without_modules (w : World) (e : exn) :
  _load_required_modules w = Raise e ->
  (forall path, MEArecRecordingExtractor.__init__ w path = Raise e) /\
  (forall path, MEArecSortingExtractor.__init__ w path = Raise e) /\
  (forall R (HR : spikeextractors.RecordingExtractor R) (recording : R) save_path,
     MEArecRecordingExtractor.writeRecording w recording save_path
     = ([], Raise e)) /\
  (forall S (HS : spikeextractors.SortingExtractor S) (sorting : S) save_path fs,
     MEArecSortingExtractor.writeSorting w sorting save_path fs
     = ([], Raise e)).
Proof.
  intros Hmissing. split_and!.
  - intros path. unfold MEArecRecordingExtractor.__init__,
      MEArecRecordingExtractor._initialize. by rewrite Hmissing.
  - intros path. unfold MEArecSortingExtractor.__init__,
      MEArecSortingExtractor._initialize. by rewrite Hmissing.
  - intros R HR recording save_path.
    unfold MEArecRecordingExtractor.writeRecording. by rewrite Hmissing.
  - intros S HS sorting save_path fs.
    unfold MEArecSortingExtractor.writeSorting. by rewrite Hmissing.
Qed.

(** C8, as the code has it.  When the first import that fails, in the order
    MEArec, quantities, neo, fails because the package is absent
    ([ModuleNotFoundError]), constructing either extractor, [writeRecording]
    and [writeSorting] all fail with the one [ModuleNotFoundError] whose
    message carries the installation instruction, before the loader or the
    save routine is reached.  When it fails with any other exception, that
    exception comes out of the four entry points unchanged. *)
Theorem missing_dependency (w : World) :
  (forall msg, first_failing_import w (ModuleNotFoundError msg) ->
     (forall path, MEArecRecordingExtractor.__init__ w path
                   = Raise (ModuleNotFoundError install_message)) /\
     (forall path, MEArecSortingExtractor.__init__ w path
                   = Raise (ModuleNotFoundError install_message)) /\
     (forall R (HR : spikeextractors.RecordingExtractor R) (recording : R) save_path,
        MEArecRecordingExtractor.writeRecording w recording save_path
        = ([], Raise (ModuleNotFoundError install_message))) /\
     (forall S (HS : spikeextractors.SortingExtractor S) (sorting : S) save_path fs,
        MEArecSortingExtractor.writeSorting w sorting save_path fs
        = ([], Raise (ModuleNotFoundError install_message)))) /\
  (forall e, first_failing_import w e ->
     (forall msg, e <> ModuleNotFoundError msg) ->
     (forall path, MEArecRecordingExtractor.__init__ w path = Raise e) /\
     (forall path, MEArecSortingExtractor.__init__ w path = Raise e) /\
     (forall R (HR : spikeextractors.RecordingExtractor R) (recording : R) save_path,
        MEArecRecordingExtractor.writeRecording w recording save_path
        = ([], Raise e)) /\
     (forall S (HS : spikeextractors.SortingExtractor S) (sorting : S) save_path fs,
        MEArecSortingExtractor.writeSorting w sorting save_path fs
        = ([], Raise e))) /\
  is_substring "pip install MEArec" install_message = true.
Proof.
  split_and!.
  - intros msg Habsent. apply entry_points_without_modules.
    by eapply modules_absent.
  - intros e Hfail Hother. apply entry_points_without_modules.
    by apply modules_failing.
  - reflexivity.
Qed.

Lemma missing_dependency_witness :
  (MEArecRecordingExtractor.__init__ Examples.without_neo "rec.h5"
     = Raise (ModuleNotFoundError install_message) /\
   MEArecSortingExtractor.__init__ Examples.without_neo "rec.h5"
     = Raise (ModuleNotFoundError install_message) /\
   MEArecRecordingExtractor.writeRecording Examples.without_neo
       Examples.recording_3x20 "rec.h5"
     = ([], Raise (ModuleNotFoundError install_message)) /\
   MEArecSortingExtractor.writeSorting Examples.without_neo
       Examples.sorting_2 "sorting.h5" 30000
     = ([], Raise (ModuleNotFoundError install_message))) /\
  MEArecSortingExtractor.writeSorting Examples.broken_neo
      Examples.sorting_2 "sorting.h5" 30000
    = ([], Raise (ImportError "cannot import name 'SpikeTrain'")).
Proof.
  destruct (missing_dependency Examples.without_neo) as (Habsent & _ & _).
  destruct (Habsent "No module named 'neo'")
    as (Hr & Hs & Hwr & Hws).
  { right. right. by split_and!. }
  destruct (missing_dependency Examples.broken_neo) as (_ & Hother & _).
  destruct (Hother (ImportError "cannot import name 'SpikeTrain'"))
    as (_ & _ & _ & Hbroken).
  { right. right. by split_and!. }
  { intros msg. discriminate. }
  split; [split_and!; [apply Hr | apply Hs | apply Hwr | apply Hws] | apply Hbroken].
Defined.

(** C8 as stated fails: a package that is installed but whose import raises
    something other than [ModuleNotFoundError] is not importable either, and
    then the raw exception propagates instead of the dependency-missing
    error. *)
Lemma import_failure_propagates :
  raises (import_module Examples.broken_neo "neo") /\
  MEArecRecordingExtractor.__init__ Examples.broken_neo "rec.h5"
    = Raise (ImportError "cannot import name 'SpikeTrain'") /\
  MEArecRecordingExtractor.__init__ Examples.broken_neo "rec.h5"
    <> Raise (ModuleNotFoundError install_message).
Proof. split_and!; [exact I | reflexivity | discriminate]. Qed.

(** ** Rounding *)

Lemma rint_floor (q : Q) : Qfloor q <= rint q <= Qfloor q + 1.
Proof.
  unfold rint. destruct (Qcompare _ _); [destruct (Z.even _)| |]; lia.
Qed.

Lemma rint_ge (z : Z) (q : Q) : (inject_Z z <= q)%Q -> z <= rint q.
Proof.
  intros H. apply Qfloor_resp_le in H. rewrite Qfloor_Z in H.
  pose proof (rint_floor q). lia.
Qed.

Lemma rint_le (z : Z) (q : Q) : (q < inject_Z z)%Q -> rint q <= z.
Proof.
  intros H. assert (Qfloor q < z).
  { rewrite Zlt_Qlt. eapply Qle_lt_trans; [apply Qfloor_le | done]. }
  pose proof (rint_floor q). lia.
Qed.

Lemma rint_mono (p q : Q) : (p <= q)%Q -> rint p <= rint q.
Proof.
  intros H. pose proof (Qfloor_resp_le _ _ H) as Hfl.
  pose proof (rint_floor p) as Hp. pose proof (rint_floor q) as Hq.
  destruct (decide (Qfloor p = Qfloor q)) as [Heq|]; [|lia].
  unfold rint in *. rewrite <- Heq in *.
  set (f := inject_Z (Qfloor p)) in *.
  assert (Hd : (p - f <= q - f)%Q) by (apply Qplus_le_l; done).
  destruct (Qcompare (p - f) (1 # 2)) eqn:Hcp;
    destruct (Qcompare (q - f) (1 # 2)) eqn:Hcq;
    try (destruct (Z.even (Qfloor p)); lia); exfalso.
  - apply Qeq_alt in Hcp. apply Qlt_alt in Hcq. rewrite Hcp in Hd.
    by apply Qle_not_lt in Hd.
  - apply Qgt_alt in Hcp. apply Qeq_alt in Hcq. rewrite Hcq in Hd.
    by apply Qle_not_lt in Hd.
  - apply Qgt_alt in Hcp. apply Qlt_alt in Hcq.
    apply (Qlt_irrefl (1 # 2)).
    eapply Qlt_le_trans; [exact Hcp|].
    eapply Qle_trans; [exact Hd|]. by apply Qlt_le_weak.
Qed.

Lemma rint_proper (p q : Q) : (p == q)%Q -> rint p = rint q.
Proof.
  intros H. unfold rint.
  assert (Hf : Qfloor p = Qfloor q) by (by rewrite H).
  assert (Hc : Qcompare (p - inject_Z (Qfloor p)) (1 # 2)
               = Qcompare (q - inject_Z (Qfloor q)) (1 # 2)).
  { rewrite Hf. by rewrite H. }
  by rewrite Hc, Hf.
Qed.

Lemma rint_inject_Z (z : Z) : rint (inject_Z z) = z.
Proof.
  unfold rint. rewrite Qfloor_Z.
  destruct (Qcompare (inject_Z z - inject_Z z) (1 # 2)) eqn:Hc; [| done |].
  - apply Qeq_alt in Hc. unfold Qeq in Hc. simpl in Hc. lia.
  - apply Qgt_alt in Hc. unfold Qlt in Hc. simpl in Hc. lia.
Qed.

Lemma rint_near (q : Q) :
  (inject_Z (rint q) - (1 # 2) <= q <= inject_Z (rint q) + (1 # 2))%Q.
Proof.
  pose proof (Qfloor_le q) as Hlo. pose proof (Qlt_floor q) as Hhi.
  unfold rint. set (f := Qfloor q) in *.
  rewrite inject_Z_plus in Hhi. change (inject_Z 1) with 1%Q in Hhi.
  clearbody f.
  destruct (Qcompare (q - inject_Z f) (1 # 2)) eqn:Hc.
  - apply Qeq_alt in Hc.
    destruct (Z.even f); [|rewrite inject_Z_plus; change (inject_Z 1) with 1%Q];
      lra.
  - apply Qlt_alt in Hc. lra.
  - apply Qgt_alt in Hc. rewrite inject_Z_plus. change (inject_Z 1) with 1%Q. lra.
Qed.

Lemma rint_within (q : Q) (z : Z) :
  (inject_Z z - (1 # 4) <= q <= inject_Z z + (1 # 4))%Q -> rint q = z.
Proof.
  intros [Hlo Hhi]. destruct (rint_near q) as [Hn1 Hn2].
  assert (H1 : (inject_Z (rint q) < inject_Z (z + 1))%Q).
  { rewrite inject_Z_plus. change (inject_Z 1) with 1%Q. lra. }
  assert (H2 : (inject_Z (z - 1) < inject_Z (rint q))%Q).
  { replace (z - 1) with (z + -1) by lia. rewrite inject_Z_plus.
    change (inject_Z (-1)) with (- (1))%Q. lra. }
  rewrite <- Zlt_Qlt in H1, H2. lia.
Qed.

(** ** Converting frame numbers to binary64 *)

Lemma div_round_even_bounds (n d : Z) :
  n / d <= div_round_even n d <= n / d + 1.
Proof.
  unfold div_round_even. destruct (Z.compare _ _); [destruct (Z.even _)| |]; lia.
Qed.

Lemma div_round_even_mono (n1 n2 d : Z) :
  0 < d -> n1 <= n2 -> div_round_even n1 d <= div_round_even n2 d.
Proof.
  intros Hd Hn.
  pose proof (Z.div_le_mono n1 n2 d Hd Hn) as Hq.
  pose proof (div_round_even_bounds n1 d) as H1.
  pose proof (div_round_even_bounds n2 d) as H2.
  destruct (Z.eq_dec (n1 / d) (n2 / d)) as [Heq|]; [|lia].
  pose proof (Z.div_mod n1 d ltac:(lia)) as E1.
  pose proof (Z.div_mod n2 d ltac:(lia)) as E2.
  unfold div_round_even. rewrite <- Heq.
  destruct (Z.compare_spec (2 * (n1 mod d)) d);
    destruct (Z.compare_spec (2 * (n2 mod d)) d);
    destruct (Z.even (n1 / d)); nia.
Qed.

Lemma round_int_exact (z : Z) : - 2 ^ 53 <= z <= 2 ^ 53 -> round_int z = z.
Proof.
  intros Hz. unfold round_int.
  destruct (Z.leb_spec (Z.log2 (Z.abs z) - 52) 0) as [|He]; [done|].
  assert (Habs : Z.abs z = 2 ^ 53).
  { assert (Z.log2 (Z.abs z) <= Z.log2 (2 ^ 53)) by (apply Z.log2_le_mono; lia).
    rewrite Z.log2_pow2 in H by lia.
    assert (0 < Z.abs z) by (destruct (Z.eq_dec (Z.abs z) 0) as [E|]; [rewrite E in He; simpl in He; lia | lia]).
    destruct (Z.log2_spec (Z.abs z)) as [Hlo _]; [done|].
    assert (Z.log2 (Z.abs z) = 53) as E by lia. rewrite E in Hlo. lia. }
  rewrite Habs. rewrite Z.log2_pow2 by lia.
  change (53 - 52) with 1. change (div_round_even (2 ^ 53) (2 ^ 1) * 2 ^ 1) with (2 ^ 53).
  rewrite <- Habs. lia.
Qed.

Lemma round_int_opp (z : Z) : round_int (- z) = - round_int z.
Proof.
  unfold round_int. rewrite Z.abs_opp, Z.sgn_opp.
  destruct (_ <=? 0); lia.
Qed.

Lemma round_int_pos_bounds (z : Z) :
  0 < z -> 0 < Z.log2 z - 52 ->
  2 ^ (Z.log2 z) <= round_int z <= 2 ^ (Z.log2 z + 1).
Proof.
  intros Hz He. unfold round_int. rewrite Z.abs_eq by lia.
  destruct (Z.leb_spec (Z.log2 z - 52) 0); [lia|].
  rewrite Z.sgn_pos by done. rewrite Z.mul_1_l.
  set (e := Z.log2 z - 52) in *.
  destruct (Z.log2_spec z Hz) as [Hlo Hhi].
  assert (Hpe : 0 < 2 ^ e) by (apply Z.pow_pos_nonneg; lia).
  assert (Hlo' : 2 ^ Z.log2 z = 2 ^ 52 * 2 ^ e).
  { rewrite <- Z.pow_add_r by lia. f_equal. lia. }
  assert (Hhi' : 2 ^ (Z.log2 z + 1) = 2 ^ 53 * 2 ^ e).
  { rewrite <- Z.pow_add_r by lia. f_equal. lia. }
  replace (Z.succ (Z.log2 z)) with (Z.log2 z + 1) in Hhi by lia.
  pose proof (div_round_even_bounds z (2 ^ e)) as Hb.
  assert (2 ^ 52 <= z / 2 ^ e).
  { apply Z.div_le_lower_bound; lia. }
  assert (z / 2 ^ e < 2 ^ 53).
  { apply Z.div_lt_upper_bound; lia. }
  rewrite Hlo', Hhi'. split; apply Z.mul_le_mono_nonneg_r; lia.
Qed.

Lemma round_int_pos (z : Z) : 0 < z -> 0 < round_int z.
Proof.
  intros Hz. destruct (Z.leb_spec (Z.log2 z - 52) 0) as [He|He].
  - unfold round_int. rewrite Z.abs_eq by lia.
    destruct (Z.leb_spec (Z.log2 z - 52) 0); [done | lia].
  - pose proof (round_int_pos_bounds z Hz He) as [Hlo _].
    assert (0 < 2 ^ Z.log2 z) by (apply Z.pow_pos_nonneg; lia). lia.
Qed.

Lemma round_int_mono_pos (a b : Z) :
  0 < a -> a <= b -> round_int a <= round_int b.
Proof.
  intros Ha Hab.
  pose proof (Z.log2_le_mono a b Hab) as Hlog.
  destruct (Z.leb_spec (Z.log2 b - 52) 0) as [Heb|Heb].
  - unfold round_int. rewrite !Z.abs_eq by lia.
    destruct (Z.leb_spec (Z.log2 a - 52) 0); [|lia].
    destruct (Z.leb_spec (Z.log2 b - 52) 0); [done|lia].
  - pose proof (round_int_pos_bounds b ltac:(lia) Heb) as [Hblo _].
    destruct (Z.leb_spec (Z.log2 a - 52) 0) as [Hea|Hea].
    + assert (round_int a = a) as ->.
      { unfold round_int. rewrite Z.abs_eq by lia.
        destruct (Z.leb_spec (Z.log2 a - 52) 0); [done|lia]. }
      destruct (Z.log2_spec a Ha) as [_ Hhi].
      assert (2 ^ Z.succ (Z.log2 a) <= 2 ^ Z.log2 b).
      { apply Z.pow_le_mono_r; lia. }
      lia.
    + pose proof (round_int_pos_bounds a Ha Hea) as [_ Hahi].
      destruct (Z.eq_dec (Z.log2 a) (Z.log2 b)) as [Heq|Hne].
      * unfold round_int. rewrite !Z.abs_eq by lia. rewrite <- Heq.
        destruct (Z.leb_spec (Z.log2 a - 52) 0); [lia|].
        rewrite !Z.sgn_pos by lia. rewrite !Z.mul_1_l.
        assert (0 < 2 ^ (Z.log2 a - 52)) by (apply Z.pow_pos_nonneg; lia).
        apply Z.mul_le_mono_nonneg_r; [lia|].
        by apply div_round_even_mono.
      * assert (2 ^ (Z.log2 a + 1) <= 2 ^ Z.log2 b).
        { apply Z.pow_le_mono_r; lia. }
        lia.
Qed.

Lemma round_int_mono (a b : Z) : a <= b -> round_int a <= round_int b.
Proof.
  intros Hab.
  destruct (Z.lt_trichotomy a 0) as [Ha|[->|Ha]].
  - destruct (Z.lt_trichotomy b 0) as [Hb|[->|Hb]].
    + pose proof (round_int_mono_pos (- b) (- a) ltac:(lia) ltac:(lia)) as H.
      rewrite !round_int_opp in H. lia.
    + pose proof (round_int_pos (- a) ltac:(lia)) as H.
      rewrite round_int_opp in H. change (round_int 0) with 0. lia.
    + pose proof (round_int_pos (- a) ltac:(lia)) as H.
      rewrite round_int_opp in H.
      pose proof (round_int_pos b Hb). lia.
  - destruct (Z.eq_dec b 0) as [->|]; [done|].
    pose proof (round_int_pos b ltac:(lia)). change (round_int 0) with 0. lia.
  - by apply round_int_mono_pos.
Qed.

(** ** Rounding to binary64 *)

Lemma div_round_even_rint (n d : Z) :
  0 < d -> div_round_even n d = rint (n # Z.to_pos d).
Proof.
  intros Hd. unfold div_round_even, rint.
  assert (Hf : Qfloor (n # Z.to_pos d) = n / d).
  { simpl. by rewrite Z2Pos.id. }
  rewrite Hf.
  assert (Hc : Qcompare ((n # Z.to_pos d) - inject_Z (n / d)) (1 # 2)
               = Z.compare (2 * (n mod d)) d).
  { unfold Qcompare. simpl. rewrite Pos.mul_1_r, Z2Pos.id by done.
    rewrite Z.mod_eq by lia. f_equal; lia. }
  by rewrite Hc.
Qed.

Lemma pow2_pos (k : Z) : (0 < pow2 k)%Q.
Proof. by apply Qpower_0_lt. Qed.

Lemma pow2_plus (j k : Z) : (pow2 (j + k) == pow2 j * pow2 k)%Q.
Proof. by apply Qpower_plus. Qed.

Lemma pow2_inject (k : Z) : 0 <= k -> (pow2 k == inject_Z (2 ^ k))%Q.
Proof. intros Hk. unfold pow2. by rewrite Zpower_Qpower. Qed.

Lemma pow2_le (j k : Z) : j <= k -> (pow2 j <= pow2 k)%Q.
Proof. intros H. by apply Qpower_le_compat_l. Qed.

Lemma pow2_lt_inv (j k : Z) : (pow2 j < pow2 k)%Q -> j < k.
Proof. intros H. by apply Qpower_lt_compat_l_inv in H. Qed.

Lemma pow2_opp (k : Z) : (pow2 (- k) * pow2 k == 1)%Q.
Proof. rewrite <- pow2_plus. by replace (- k + k) with 0 by lia. Qed.

Lemma log2_test (n d k : Z) :
  (if 0 <=? k then d * 2 ^ k <=? n else d <=? n * 2 ^ (- k)) = true <->
  (inject_Z d * pow2 k <= inject_Z n)%Q.
Proof.
  destruct (Z.leb_spec 0 k) as [Hk|Hk].
  - rewrite Z.leb_le, Zle_Qle, inject_Z_mult, <- pow2_inject by done. done.
  - rewrite Z.leb_le, Zle_Qle, inject_Z_mult, <- pow2_inject by lia.
    split; intros H.
    + apply (Qmult_le_r _ _ (pow2 (- k))); [apply pow2_pos|].
      rewrite <- Qmult_assoc, (Qmult_comm (pow2 k)), pow2_opp, Qmult_1_r. done.
    + apply (Qmult_le_r _ _ (pow2 (- k))) in H; [|apply pow2_pos].
      rewrite <- Qmult_assoc, (Qmult_comm (pow2 k)), pow2_opp, Qmult_1_r in H. done.
Qed.

Lemma log2_bounds (n : Z) :
  0 < n -> (pow2 (Z.log2 n) <= inject_Z n < pow2 (Z.log2 n + 1))%Q.
Proof.
  intros Hn. destruct (Z.log2_spec n Hn) as [Hlo Hhi].
  pose proof (Z.log2_nonneg n).
  rewrite !pow2_inject by lia. rewrite <- Zle_Qle, <- Zlt_Qlt.
  split; [done|]. by rewrite <- Z.add_1_r in Hhi.
Qed.

Lemma log2_floor_spec (n d : Z) :
  0 < n -> 0 < d ->
  (inject_Z d * pow2 (log2_floor n d) <= inject_Z n
   < inject_Z d * pow2 (log2_floor n d + 1))%Q.
Proof.
  intros Hn Hd. unfold log2_floor.
  destruct (log2_bounds n Hn) as [Hn1 Hn2].
  destruct (log2_bounds d Hd) as [Hd1 Hd2].
  set (ln := Z.log2 n) in *. set (ld := Z.log2 d) in *.
  assert (Hlow : (inject_Z d * pow2 (ln - ld - 1) <= inject_Z n)%Q).
  { eapply Qle_trans; [|exact Hn1].
    replace ln with ((ld + 1) + (ln - ld - 1)) at 2 by lia.
    rewrite pow2_plus. apply Qmult_le_compat_r; [by apply Qlt_le_weak|].
    apply Qlt_le_weak, pow2_pos. }
  assert (Hhigh : (inject_Z n < inject_Z d * pow2 (ln - ld + 1))%Q).
  { eapply Qlt_le_trans; [exact Hn2|].
    replace (ln + 1) with (ld + (ln - ld + 1)) by lia.
    rewrite pow2_plus. apply Qmult_le_compat_r; [done|].
    apply Qlt_le_weak, pow2_pos. }
  destruct (if 0 <=? ln - ld then _ else _) eqn:Htest.
  - apply log2_test in Htest. done.
  - replace (ln - ld - 1 + 1) with (ln - ld) by lia. split; [done|].
    apply Qnot_le_lt. intros H. apply log2_test in H. congruence.
Qed.

Lemma Qmake_to_pos (n d : Z) :
  0 < d -> (n # Z.to_pos d == inject_Z n / inject_Z d)%Q.
Proof. intros Hd. rewrite Qmake_Qdiv. by rewrite Z2Pos.id. Qed.

Lemma Qdiv_le_mono (x y c : Q) : (0 < c -> x <= y -> x / c <= y / c)%Q.
Proof.
  intros Hc H. apply Qmult_le_compat_r; [done|].
  apply Qlt_le_weak, Qinv_lt_0_compat, Hc.
Qed.

Lemma val64_mono (e : Z) (x y : Q) : (x <= y)%Q -> (val64 e x <= val64 e y)%Q.
Proof.
  intros H. unfold val64. apply Qmult_le_compat_r; [|apply Qlt_le_weak, pow2_pos].
  rewrite <- Zle_Qle. apply rint_mono, Qdiv_le_mono; [apply pow2_pos | done].
Qed.

Lemma val64_upper (e m : Z) (x : Q) :
  e <= m -> (x < pow2 m)%Q -> (val64 e x <= pow2 m)%Q.
Proof.
  intros Hem Hx. unfold val64.
  replace m with ((m - e) + e) at 1 by lia. rewrite pow2_plus.
  apply Qmult_le_compat_r; [|apply Qlt_le_weak, pow2_pos].
  rewrite (pow2_inject (m - e)) by lia. rewrite <- Zle_Qle. apply rint_le.
  rewrite <- pow2_inject by lia. apply Qlt_shift_div_r; [apply pow2_pos|].
  rewrite <- pow2_plus. by replace (m - e + e) with m by lia.
Qed.

Lemma val64_lower (e m : Z) (x : Q) :
  e <= m -> (pow2 m <= x)%Q -> (pow2 m <= val64 e x)%Q.
Proof.
  intros Hem Hx. unfold val64.
  replace m with ((m - e) + e) at 1 by lia. rewrite pow2_plus.
  apply Qmult_le_compat_r; [|apply Qlt_le_weak, pow2_pos].
  rewrite (pow2_inject (m - e)) by lia. rewrite <- Zle_Qle. apply rint_ge.
  rewrite <- pow2_inject by lia. apply Qle_shift_div_l; [apply pow2_pos|].
  rewrite <- pow2_plus. by replace (m - e + e) with m by lia.
Qed.

Lemma log2_floor_Q (n d : Z) :
  0 < n -> 0 < d ->
  (pow2 (log2_floor n d) <= n # Z.to_pos d < pow2 (log2_floor n d + 1))%Q.
Proof.
  intros Hn Hd. destruct (log2_floor_spec n d Hn Hd) as [Hlo Hhi].
  assert (Hd' : (0 < inject_Z d)%Q) by (by rewrite <- (Zlt_Qlt 0)).
  rewrite Qmake_to_pos by done. split.
  - apply Qle_shift_div_l; [done|]. by rewrite Qmult_comm.
  - apply Qlt_shift_div_r; [done|]. by rewrite Qmult_comm.
Qed.

Lemma round64_pos_spec (n d : Z) :
  0 < n -> 0 < d ->
  match round64_pos n d with
  | Some r => (r == val64 (exponent64 n d) (n # Z.to_pos d) /\ r < pow2 1024)%Q
  | None => (pow2 1024 <= val64 (exponent64 n d) (n # Z.to_pos d))%Q
  end.
Proof.
  intros Hn Hd. unfold round64_pos.
  destruct (log2_floor_Q n d Hn Hd) as [_ Hhi].
  assert (He : log2_floor n d + 1 <= exponent64 n d + 53)
    by (unfold exponent64; lia).
  set (e := exponent64 n d) in *. clearbody e.
  assert (Hd' : (0 < inject_Z d)%Q) by (by rewrite <- (Zlt_Qlt 0)).
  destruct (Z.leb_spec 0 e) as [He0|He0].
  - assert (Hp : 0 < 2 ^ e) by (by apply Z.pow_pos_nonneg).
    assert (Hv : (inject_Z (div_round_even n (d * 2 ^ e) * 2 ^ e)
                  == val64 e (n # Z.to_pos d))%Q).
    { unfold val64. rewrite inject_Z_mult, <- pow2_inject by done.
      rewrite div_round_even_rint by lia.
      assert (Hr : rint (n # Z.to_pos (d * 2 ^ e))
                   = rint ((n # Z.to_pos d) / pow2 e)).
      { apply rint_proper. rewrite !Qmake_to_pos by lia.
        rewrite inject_Z_mult, <- pow2_inject by done.
        assert (Hd0 : ~ (inject_Z d == 0)%Q).
        { intros H0. rewrite H0 in Hd'. by apply Qlt_irrefl in Hd'. }
        assert (Hp0 : ~ (pow2 e == 0)%Q) by (by apply Qpower_not_0).
        field. by split. }
      by rewrite Hr. }
    destruct (Z.leb_spec (2 ^ 1024) (div_round_even n (d * 2 ^ e) * 2 ^ e))
      as [Hov|Hov].
    + rewrite <- Hv, pow2_inject by done. by rewrite <- Zle_Qle.
    + split; [done|]. rewrite pow2_inject by done. by rewrite <- Zlt_Qlt.
  - assert (Hp : 0 < 2 ^ (- e)) by (apply Z.pow_pos_nonneg; lia).
    assert (Hv : (div_round_even (n * 2 ^ (- e)) d # Z.to_pos (2 ^ (- e))
                  == val64 e (n # Z.to_pos d))%Q).
    { unfold val64. rewrite (Qmake_to_pos _ (2 ^ (- e))) by done.
      rewrite <- pow2_inject by lia.
      rewrite div_round_even_rint by lia.
      assert (Hr : rint (n * 2 ^ (- e) # Z.to_pos d)
                   = rint ((n # Z.to_pos d) / pow2 e)).
      { apply rint_proper. rewrite !Qmake_to_pos by lia.
        rewrite inject_Z_mult, <- pow2_inject by lia.
        assert (Hd0 : ~ (inject_Z d == 0)%Q).
        { intros H0. rewrite H0 in Hd'. by apply Qlt_irrefl in Hd'. }
        assert (Hp0 : ~ (2 ^ e == 0)%Q) by (by apply Qpower_not_0).
        unfold pow2. rewrite Qpower_opp. field. by split. }
      rewrite Hr. unfold pow2. rewrite Qpower_opp. field.
      apply Qpower_not_0; done. }
    split; [done|]. rewrite Hv.
    eapply Qle_lt_trans; [apply (val64_upper e (e + 53)); [lia|]|].
    + eapply Qlt_le_trans; [exact Hhi|]. by apply pow2_le.
    + apply Qpower_lt_compat_l; [lia | done].
Qed.

Lemma exponent64_mono (n1 d1 n2 d2 : Z) :
  0 < n1 -> 0 < d1 -> 0 < n2 -> 0 < d2 ->
  (n1 # Z.to_pos d1 <= n2 # Z.to_pos d2)%Q ->
  log2_floor n1 d1 <= log2_floor n2 d2.
Proof.
  intros Hn1 Hd1 Hn2 Hd2 Hle.
  destruct (log2_floor_Q n1 d1 Hn1 Hd1) as [Hlo _].
  destruct (log2_floor_Q n2 d2 Hn2 Hd2) as [_ Hhi].
  assert (H : (pow2 (log2_floor n1 d1) < pow2 (log2_floor n2 d2 + 1))%Q).
  { eapply Qle_lt_trans; [exact Hlo|]. by eapply Qle_lt_trans. }
  apply pow2_lt_inv in H. lia.
Qed.

Lemma val64_exponent_mono (n1 d1 n2 d2 : Z) :
  0 < n1 -> 0 < d1 -> 0 < n2 -> 0 < d2 ->
  (n1 # Z.to_pos d1 <= n2 # Z.to_pos d2)%Q ->
  (val64 (exponent64 n1 d1) (n1 # Z.to_pos d1)
   <= val64 (exponent64 n2 d2) (n2 # Z.to_pos d2))%Q.
Proof.
  intros Hn1 Hd1 Hn2 Hd2 Hle.
  pose proof (exponent64_mono n1 d1 n2 d2 Hn1 Hd1 Hn2 Hd2 Hle) as Hl.
  destruct (log2_floor_Q n1 d1 Hn1 Hd1) as [_ Hhi1].
  destruct (log2_floor_Q n2 d2 Hn2 Hd2) as [Hlo2 _].
  unfold exponent64.
  set (l1 := log2_floor n1 d1) in *. set (l2 := log2_floor n2 d2) in *.
  destruct (decide (Z.max (l1 - 52) (-1074) = Z.max (l2 - 52) (-1074))) as [Heq|Hne].
  - rewrite Heq. by apply val64_mono.
  - assert (Hlt : l1 + 1 <= l2) by lia.
    apply (Qle_trans _ (pow2 l2)).
    + apply val64_upper; [lia|].
      eapply Qlt_le_trans; [exact Hhi1 | by apply pow2_le].
    + apply val64_lower; [lia | done].
Qed.

Lemma val64_nonneg (e : Z) (x : Q) : (0 <= x)%Q -> (0 <= val64 e x)%Q.
Proof.
  intros Hx. unfold val64. apply Qmult_le_0_compat; [|apply Qlt_le_weak, pow2_pos].
  rewrite <- (Zle_Qle 0). apply rint_ge.
  apply Qle_shift_div_l; [apply pow2_pos|]. by rewrite Qmult_0_l.
Qed.

Lemma round64_pos_mono (n1 d1 n2 d2 : Z) :
  0 < n1 -> 0 < d1 -> 0 < n2 -> 0 < d2 ->
  (n1 # Z.to_pos d1 <= n2 # Z.to_pos d2)%Q ->
  match round64_pos n1 d1, round64_pos n2 d2 with
  | Some r1, Some r2 => (r1 <= r2)%Q
  | None, Some _ => False
  | _, None => True
  end.
Proof.
  intros Hn1 Hd1 Hn2 Hd2 Hle.
  pose proof (val64_exponent_mono n1 d1 n2 d2 Hn1 Hd1 Hn2 Hd2 Hle) as Hv.
  pose proof (round64_pos_spec n1 d1 Hn1 Hd1) as H1.
  pose proof (round64_pos_spec n2 d2 Hn2 Hd2) as H2.
  destruct (round64_pos n1 d1) as [r1|], (round64_pos n2 d2) as [r2|]; [| done | | done].
  - destruct H1 as [H1 _], H2 as [H2 _]. by rewrite H1, H2.
  - destruct H2 as [H2 Hlt]. rewrite H2 in Hlt.
    apply (Qlt_irrefl (pow2 1024)).
    eapply Qle_lt_trans; [exact H1|]. by eapply Qle_lt_trans.
Qed.

Lemma round64_pos_nonneg (n d : Z) (r : Q) :
  0 < n -> 0 < d -> round64_pos n d = Some r -> (0 <= r)%Q.
Proof.
  intros Hn Hd Hr. pose proof (round64_pos_spec n d Hn Hd) as H.
  rewrite Hr in H. destruct H as [H _]. rewrite H.
  apply val64_nonneg. unfold Qle. simpl. lia.
Qed.

Lemma round64_never_NaN (q : Q) : round64 q <> NaN.
Proof.
  unfold round64. destruct (Qnum q); [done | |]; by destruct (round64_pos _ _).
Qed.

Lemma round64_mono (p q : Q) : (p <= q)%Q -> f64_le (round64 p) (round64 q).
Proof.
  intros Hle. unfold f64_le, round64.
  destruct p as [pn pd], q as [qn qd]. simpl.
  assert (Hcmp : pn * Z.pos qd <= qn * Z.pos pd) by exact Hle.
  destruct pn as [|pn|pn], qn as [|qn|qn]; try lia.
  - done.
  - destruct (round64_pos _ _) as [r|] eqn:Hr; [|done].
    apply round64_pos_nonneg in Hr; [|done..]. simpl. by apply Qle_bool_iff.
  - pose proof (round64_pos_mono (Z.pos pn) (Z.pos pd) (Z.pos qn) (Z.pos qd)) as H.
    simpl in H. specialize (H eq_refl eq_refl eq_refl eq_refl Hle).
    destruct (round64_pos (Z.pos pn) _), (round64_pos (Z.pos qn) _); try done.
    simpl. by apply Qle_bool_iff.
  - destruct (round64_pos _ _) as [r|] eqn:Hr; [|done].
    apply round64_pos_nonneg in Hr; [|done..]. simpl. apply Qle_bool_iff.
    apply (Qopp_le_compat 0) in Hr. exact Hr.
  - destruct (round64_pos (Z.pos pn) _) as [r1|] eqn:Hr1;
      destruct (round64_pos (Z.pos qn) _) as [r2|] eqn:Hr2; try done.
    apply round64_pos_nonneg in Hr1; [|done..].
    apply round64_pos_nonneg in Hr2; [|done..].
    simpl. apply Qle_bool_iff. apply (Qle_trans _ 0); [|done].
    apply (Qopp_le_compat 0) in Hr1. exact Hr1.
  - pose proof (round64_pos_mono (Z.pos qn) (Z.pos qd) (Z.pos pn) (Z.pos pd)) as H.
    simpl in H.
    assert (Hle' : (Z.pos qn # qd <= Z.pos pn # pd)%Q).
    { unfold Qle. simpl. lia. }
    specialize (H eq_refl eq_refl eq_refl eq_refl Hle').
    destruct (round64_pos (Z.pos pn) _), (round64_pos (Z.pos qn) _); try done.
    simpl. apply Qle_bool_iff. by apply Qopp_le_compat.
Qed.

Lemma val64_error (e : Z) (x : Q) :
  (val64 e x - pow2 e * (1 # 2) <= x <= val64 e x + pow2 e * (1 # 2))%Q.
Proof.
  pose proof (pow2_pos e) as Hp. unfold val64.
  destruct (rint_near (x / pow2 e)) as [Hlo Hhi].
  set (r := inject_Z (rint (x / pow2 e))) in *. clearbody r.
  assert (Hx : (x == x / pow2 e * pow2 e)%Q).
  { field. intros H0. rewrite H0 in Hp. by apply Qlt_irrefl in Hp. }
  set (y := (x / pow2 e)%Q) in *. clearbody y. rewrite Hx.
  apply (Qmult_le_compat_r _ _ (pow2 e)) in Hlo; [|by apply Qlt_le_weak].
  apply (Qmult_le_compat_r _ _ (pow2 e)) in Hhi; [|by apply Qlt_le_weak].
  split; lra.
Qed.

Lemma round64_of_positive (x : Q) :
  (0 < x)%Q ->
  round64 x = match round64_pos (Qnum x) (Z.pos (Qden x)) with
              | Some r => Finite r
              | None => PInf
              end /\
  0 < Qnum x /\ Qnum x # Z.to_pos (Z.pos (Qden x)) = x.
Proof.
  intros Hx. destruct x as [n d]. unfold Qlt in Hx. simpl in Hx.
  unfold round64. simpl. destruct n as [|n|n]; try lia. by split_and!.
Qed.

Lemma round64_normal (x : Q) :
  (pow2 (-1022) <= x)%Q -> (x < pow2 1023)%Q ->
  exists r, round64 x = Finite r /\
    (x * (1 - pow2 (-53)) <= r <= x * (1 + pow2 (-53)))%Q.
Proof.
  intros Hlo Hhi.
  assert (Hx : (0 < x)%Q) by (eapply Qlt_le_trans; [apply (pow2_pos (-1022)) | done]).
  destruct (round64_of_positive x Hx) as (Hr & Hn & Hrep). rewrite Hr.
  pose proof (round64_pos_spec (Qnum x) (Z.pos (Qden x)) Hn eq_refl) as Hspec.
  destruct (log2_floor_Q (Qnum x) (Z.pos (Qden x)) Hn eq_refl) as [Hl1 Hl2].
  unfold exponent64 in Hspec.
  set (l := log2_floor (Qnum x) (Z.pos (Qden x))) in *. clearbody l.
  rewrite Hrep in Hspec, Hl1, Hl2.
  assert (Hl : -1022 <= l < 1023).
  { split.
    - assert (H : (pow2 (-1022) < pow2 (l + 1))%Q) by (by eapply Qle_lt_trans).
      apply pow2_lt_inv in H. lia.
    - apply pow2_lt_inv. by eapply Qle_lt_trans. }
  rewrite Z.max_l in Hspec by lia.
  pose proof (val64_upper (l - 52) (l + 1) x ltac:(lia) Hl2) as Hup.
  assert (Hfin : (val64 (l - 52) x < pow2 1024)%Q).
  { eapply Qle_lt_trans; [exact Hup|]. apply Qpower_lt_compat_l; [lia | done]. }
  destruct (round64_pos _ _) as [r|].
  - exists r. split; [done|]. destruct Hspec as [Hval _]. rewrite Hval.
    destruct (val64_error (l - 52) x) as [He1 He2].
    assert (Hp : (pow2 (l - 52) * (1 # 2) <= x * pow2 (-53))%Q).
    { replace (l - 52) with (l + -53 + 1) by lia.
      rewrite !pow2_plus.
      assert (H1 : (pow2 1 * (1 # 2) == 1)%Q) by reflexivity.
      rewrite <- !Qmult_assoc, H1, Qmult_1_r.
      apply Qmult_le_compat_r; [done|]. apply Qlt_le_weak, pow2_pos. }
    split; lra.
  - exfalso. apply (Qlt_irrefl (pow2 1024)). by eapply Qle_lt_trans.
Qed.

Lemma round64_exact (z k : Z) :
  0 < z < 2 ^ 53 -> -1074 <= k <= 971 ->
  exists r, round64 (inject_Z z * pow2 k) = Finite r /\
            (r == inject_Z z * pow2 k)%Q.
Proof.
  intros Hz Hk. set (x := (inject_Z z * pow2 k)%Q).
  assert (Hz' : (0 < inject_Z z)%Q) by (rewrite <- (Zlt_Qlt 0); lia).
  assert (Hx : (0 < x)%Q).
  { unfold x. apply Qmult_lt_0_compat; [done | apply pow2_pos]. }
  assert (Hxhi : (x < pow2 (53 + k))%Q).
  { unfold x. rewrite pow2_plus. apply Qmult_lt_compat_r; [apply pow2_pos|].
    rewrite pow2_inject by lia. rewrite <- Zlt_Qlt. lia. }
  destruct (round64_of_positive x Hx) as (Hr & Hn & Hrep). rewrite Hr.
  pose proof (round64_pos_spec (Qnum x) (Z.pos (Qden x)) Hn eq_refl) as Hspec.
  destruct (log2_floor_Q (Qnum x) (Z.pos (Qden x)) Hn eq_refl) as [Hl1 _].
  unfold exponent64 in Hspec.
  set (l := log2_floor (Qnum x) (Z.pos (Qden x))) in *. clearbody l.
  rewrite Hrep in Hspec, Hl1.
  assert (Hl : l < 53 + k).
  { apply pow2_lt_inv. by eapply Qle_lt_trans. }
  set (e := Z.max (l - 52) (-1074)) in *.
  assert (He : e <= k) by lia. clearbody e.
  assert (Hval : (val64 e x == x)%Q).
  { unfold val64.
    assert (Hq : (x / pow2 e == inject_Z (z * 2 ^ (k - e)))%Q).
    { unfold x. rewrite inject_Z_mult, <- pow2_inject by lia.
      unfold pow2. rewrite Qpower_minus by done. field.
      by apply Qpower_not_0. }
    rewrite (rint_proper _ _ Hq), rint_inject_Z.
    rewrite inject_Z_mult, <- pow2_inject by lia.
    unfold x, pow2. rewrite Qpower_minus by done. field.
    by apply Qpower_not_0. }
  destruct (round64_pos _ _) as [r|].
  - exists r. split; [done|]. destruct Hspec as [Hspec _]. by rewrite Hspec.
  - exfalso. rewrite Hval in Hspec.
    apply (Qlt_irrefl x). eapply Qlt_le_trans; [exact Hxhi|].
    eapply Qle_trans; [|exact Hspec]. apply pow2_le. lia.
Qed.

Lemma inject_Z_quarter (z c : Z) :
  (inject_Z (4 * z + c) * pow2 (-2) == inject_Z z + inject_Z c * (1 # 4))%Q.
Proof.
  assert (H : (pow2 (-2) == 1 # 4)%Q) by reflexivity.
  rewrite H, inject_Z_plus, inject_Z_mult. change (inject_Z 4) with 4%Q. ring.
Qed.

Lemma f64_le_Finite (p q : Q) : f64_le (Finite p) (Finite q) <-> (p <= q)%Q.
Proof. unfold f64_le. simpl. apply Qle_bool_iff. Qed.

Lemma fmul_mono (x y : f64) (fs : Q) :
  f64_le x y -> (0 <= fs)%Q -> fmul x fs <> NaN -> fmul y fs <> NaN ->
  f64_le (fmul x fs) (fmul y fs).
Proof.
  intros Hxy Hfs Hx Hy.
  assert (Hsign : Qcompare fs 0 <> Lt).
  { intros Hlt. apply Qlt_alt in Hlt. by apply Qle_not_lt in Hfs. }
  destruct x as [p| | |], y as [q| | |]; try discriminate; simpl in *.
  - apply round64_mono. apply Qmult_le_compat_r; [|done]. by apply f64_le_Finite.
  - pose proof (round64_never_NaN (p * fs)). unfold f64_le.
    destruct (Qcompare fs 0); [done| done |]. by destruct (round64 (p * fs)).
  - unfold f64_le. by destruct (Qcompare fs 0).
  - pose proof (round64_never_NaN (q * fs)). unfold f64_le.
    destruct (Qcompare fs 0); [done| done |]. by destruct (round64 (q * fs)).
  - unfold f64_le. by destruct (Qcompare fs 0).
  - unfold f64_le. by destruct (Qcompare fs 0).
Qed.

(** ** Selecting by a mask *)

Lemma np_take_where_from {A} (f : A -> bool) (pre l : list A) :
  np_take (pre ++ l) (np_where_from (length pre) (f <$> l)) = List.filter f l.
Proof.
  revert pre; induction l as [|x l IH]; intros pre; simpl; [done|].
  specialize (IH (pre ++ [x])).
  rewrite length_app, Nat.add_1_r, <- app_assoc in IH; simpl in IH.
  destruct (f x); simpl.
  - unfold np_take in *; simpl. rewrite list_lookup_middle by done.
    simpl. f_equal. exact IH.
  - exact IH.
Qed.

Lemma np_take_where {A} (f : A -> bool) (l : list A) :
  np_take l (np_where (f <$> l)) = List.filter f l.
Proof. apply (np_take_where_from f [] l). Qed.

(** ** Looking a unit up by value *)

Lemma list_index_Ok (x : Z) (l : list Z) (k : nat) :
  list_index x l = Ok k <->
  l !! k = Some x /\ forall j, (j < k)%nat -> l !! j <> Some x.
Proof.
  revert k; induction l as [|y l IH]; intros k; simpl.
  - split; [discriminate | intros [H _]; discriminate].
  - destruct (Z.eqb_spec y x) as [->|Hne].
    + split.
      * intros H; inversion H; subst. split; [done | intros; lia].
      * intros [Hk Hfirst]. destruct k as [|k]; [done|].
        exfalso. apply (Hfirst O); [lia | done].
    + split.
      * intros H. apply bind_Ok in H as (i & Hi & H). inversion H; subst.
        apply IH in Hi as [Hi Hfirst]. split; [done|].
        intros [|j] Hj; simpl; [congruence | apply Hfirst; lia].
      * intros [Hk Hfirst]. destruct k as [|k]; simpl in Hk; [congruence|].
        assert (Hi : list_index x l = Ok k).
        { apply IH. split; [done|]. intros j Hj. apply (Hfirst (S j)). lia. }
        by rewrite Hi.
Qed.

Lemma list_index_absent (x : Z) (l : list Z) :
  x ∉ l -> list_index x l = Raise ValueError.
Proof.
  induction l as [|y l IH]; simpl; intros Hnotin; [done|].
  apply not_elem_of_cons in Hnotin as [Hne Hnotin].
  destruct (Z.eqb_spec y x); [congruence|]. by rewrite IH.
Qed.

Lemma list_index_present (x : Z) (l : list Z) :
  x ∈ l -> exists k, list_index x l = Ok k.
Proof.
  induction l as [|y l IH]; simpl; intros Hin; [by inversion Hin|].
  destruct (Z.eqb_spec y x) as [|Hne]; [eauto|].
  apply elem_of_cons in Hin as [|Hin]; [congruence|].
  destruct (IH Hin) as [k ->]. eauto.
Qed.

(** ** The sorting extractor *)

Lemma foldM_snoc {A S} (body : A -> S -> result S) (l : list A) (x : A) (s : S) :
  foldM body (l ++ [x]) s = foldM body l s ≫= body x.
Proof.
  revert s; induction l as [|y l IH]; intros s; simpl.
  - by destruct (body x s).
  - destruct (body y s); simpl; [apply IH | done].
Qed.

Section Sorting.
Import MEArecSortingExtractor.

Lemma set_soma_location_Ok (ust : Z * SpikeTrain) (self self' : t) :
  set_soma_location ust self = Ok self' ->
  exists v, annotations ust.2 !! "soma_position" = Some v /\
    self' = setUnitProperty self ust.1 "soma_location" v.
Proof.
  unfold set_soma_location, getitem. intros H.
  destruct (annotations ust.2 !! "soma_position") as [v|]; simpl in H;
    [|discriminate].
  inversion H. eauto.
Qed.

Lemma soma_fold_attributes (l : list (Z * SpikeTrain)) (self self' : t) :
  foldM set_soma_location l self = Ok self' -> same_attributes self self'.
Proof.
  revert self; induction l as [|ust l IH]; simpl; intros self H.
  - inversion H; subst. by repeat split.
  - apply bind_Ok in H as (self1 & H1 & H).
    apply set_soma_location_Ok in H1 as (v & _ & ->).
    apply IH in H. exact H.
Qed.

Lemma soma_fold_lookup (l : list (Z * SpikeTrain)) (self self' : t) :
  foldM set_soma_location l self = Ok self' ->
  (forall ust, ust ∈ l -> is_Some (annotations ust.2 !! "soma_position")) /\
  (forall u, u ∉ l.*1 -> soma_location self' u = soma_location self u) /\
  (forall k u st, l !! k = Some (u, st) ->
     (forall j ust, (k < j)%nat -> l !! j = Some ust -> ust.1 <> u) ->
     soma_location self' u = annotations st !! "soma_position").
Proof.
  revert self'; induction l as [|[u0 st0] l IH] using rev_ind; intros self' H.
  - simpl in H. inversion H; subst. split_and!.
    + intros ust Hin. inversion Hin.
    + done.
    + intros k u st Hk. by rewrite lookup_nil in Hk.
  - rewrite foldM_snoc in H. apply bind_Ok in H as (self1 & H1 & H).
    apply set_soma_location_Ok in H as (v & Hv & ->). simpl in Hv.
    destruct (IH _ H1) as (IHall & IHout & IHlast). split_and!.
    + intros ust Hin. apply elem_of_app in Hin as [Hin|Hin]; [by apply IHall|].
      apply list_elem_of_singleton in Hin as ->. simpl. by rewrite Hv.
    + intros u Hu. rewrite fmap_app in Hu. apply not_elem_of_app in Hu as [Hu Hu0].
      unfold soma_location; simpl. rewrite get_set_property.
      rewrite decide_False; [by apply IHout|].
      intros [-> _]. apply Hu0. simpl. apply list_elem_of_singleton. done.
    + intros k u st Hk Hlast. unfold soma_location; simpl.
      rewrite get_set_property.
      destruct (decide (k < length l)%nat) as [Hlt|Hge].
      * rewrite lookup_app_l in Hk by done.
        rewrite decide_False.
        { apply (IHlast k u st Hk). intros j ust Hj Hjl.
          apply (Hlast j ust Hj). apply lookup_app_l_Some. done. }
        intros [-> _]. apply (Hlast (length l) (u, st0)); [done| |done].
        by rewrite list_lookup_middle.
      * assert (k = length l) as ->.
        { apply lookup_lt_Some in Hk. rewrite length_app in Hk. simpl in Hk. lia. }
        rewrite list_lookup_middle in Hk by done. inversion Hk; subst.
        rewrite decide_True by done. done.
Qed.

Lemma sorting_init_inv (w : World) (path : string) (self : t) :
  __init__ w path = Ok self ->
  exists recgen first unit_ids self0,
    _load_required_modules w = Ok tt /\
    load_recordings w path = Ok recgen /\
    spiketrains recgen !! 0%nat = Some first /\
    unit_ids_of (spiketrains recgen) first = Ok unit_ids /\
    _unit_properties self0 = ∅ /\
    same_attributes self0 self /\
    _num_units self = Some (length (spiketrains recgen)) /\
    _spike_trains self = Some (spiketrains recgen) /\
    _unit_ids self = Some unit_ids /\
    _fs self = Some (info_fs recgen) /\
    (if contains (annotations first) "soma_position"
     then foldM set_soma_location (zip unit_ids (spiketrains recgen)) self0
     else Ok self0) = Ok self.
Proof.
  unfold __init__, _initialize. simpl. intros H.
  apply bind_Ok in H as ([] & Hmod & H).
  apply bind_Ok in H as (recgen & Hload & H).
  apply bind_Ok in H as (first & Hfirst & H).
  apply bind_Ok in H as (unit_ids & Hids & H).
  rewrite Hfirst in H. simpl in H.
  unfold list_getitem in Hfirst.
  destruct (spiketrains recgen !! 0%nat) as [first'|] eqn:H0; [|discriminate].
  inversion Hfirst; subst first'.
  eexists recgen, first, unit_ids, _.
  split_and!; [done | done | done | exact Hids | | | | | | | exact H];
    try reflexivity.
  all: destruct (contains (annotations first) "soma_position");
    [ apply soma_fold_attributes in H as (?&?&?&?&?); simpl in *
    | inversion H; subst; simpl ]; try done.
Qed.

Lemma length_unit_ids_of (sts : list SpikeTrain) (first : SpikeTrain)
    (unit_ids : list Z) :
  unit_ids_of sts first = Ok unit_ids -> length unit_ids = length sts.
Proof.
  unfold unit_ids_of. destruct (contains _ _); intros H.
  - by apply mapM_length in H.
  - inversion H. apply range_length.
Qed.

End Sorting.

Lemma annotated_unit_id_Ok (st : SpikeTrain) (u : Z) :
  MEArecSortingExtractor.annotated_unit_id st = Ok u <->
  exists v, annotations st !! "unit_id" = Some v /\ py_int v = Ok u.
Proof.
  unfold MEArecSortingExtractor.annotated_unit_id, getitem.
  destruct (annotations st !! "unit_id") as [v|]; simpl.
  - split; [eauto | by intros (v' & [= <-] & H)].
  - split; [discriminate | by intros (v' & [=] & _)].
Qed.

Lemma contains_true (d : gmap string pyval) (k : string) :
  contains d k = true <-> is_Some (d !! k).
Proof. unfold contains. apply bool_decide_eq_true. Qed.

Lemma contains_false (d : gmap string pyval) (k : string) :
  contains d k = false <-> d !! k = None.
Proof.
  unfold contains. rewrite bool_decide_eq_false. symmetry. apply eq_None_not_Some.
Qed.

Lemma getUnitIds_constructed (w : World) (self : MEArecSortingExtractor.t)
    (ids : list Z) :
  MEArecSortingExtractor._unit_ids self = Some ids ->
  MEArecSortingExtractor.getUnitIds w self = Ok (Some ids, self).
Proof.
  intros H. unfold MEArecSortingExtractor.getUnitIds. rewrite H. simpl.
  by rewrite H.
Qed.

(** C2, as the code has it.  Once construction has succeeded: if every spike
    train carries a [unit_id] annotation, [getUnitIds] returns those values
    cast to integers, in stored order; if the first spike train has no such
    annotation, it returns the positions [0, ..., N-1].  When the first spike
    train carries the annotation and another one lacks it, construction
    raises; the error is [KeyError('unit_id')] when the packages import and
    every [unit_id] annotation that is present converts to an integer. *)
Theorem unit_ids_on_construction (w : World) (path : string)
    (recgen : RecordingGenerator) :
  load_recordings w path = Ok recgen ->
  (forall self, MEArecSortingExtractor.__init__ w path = Ok self ->
     (forall ids,
        Forall2 (fun st u => exists v, annotations st !! "unit_id" = Some v /\
                                       py_int v = Ok u)
                (spiketrains recgen) ids ->
        MEArecSortingExtractor.getUnitIds w self = Ok (Some ids, self)) /\
     (forall first, spiketrains recgen !! 0%nat = Some first ->
        annotations first !! "unit_id" = None ->
        MEArecSortingExtractor.getUnitIds w self
        = Ok (Some (range (length (spiketrains recgen))), self))) /\
  (forall first st, spiketrains recgen !! 0%nat = Some first ->
     is_Some (annotations first !! "unit_id") ->
     st ∈ spiketrains recgen -> annotations st !! "unit_id" = None ->
     raises (MEArecSortingExtractor.__init__ w path) /\
     (_load_required_modules w = Ok tt ->
      (forall st' v, st' ∈ spiketrains recgen ->
         annotations st' !! "unit_id" = Some v -> exists u, py_int v = Ok u) ->
      MEArecSortingExtractor.__init__ w path = Raise (KeyError "unit_id"))).
Proof.
  intros Hload.
  assert (Hinv : forall self, MEArecSortingExtractor.__init__ w path = Ok self ->
            exists first unit_ids,
              spiketrains recgen !! 0%nat = Some first /\
              MEArecSortingExtractor.unit_ids_of (spiketrains recgen) first
                = Ok unit_ids /\
              MEArecSortingExtractor._unit_ids self = Some unit_ids).
  { intros self Hinit.
    apply sorting_init_inv in Hinit
      as (recgen' & first & unit_ids & self0 & _ & Hload' & H0 & Hids & _ & _
          & _ & _ & Huids & _).
    rewrite Hload in Hload'. inversion Hload'; subst recgen'. eauto. }
  split.
  - intros self Hinit.
    destruct (Hinv self Hinit) as (first & unit_ids & H0 & Hids & Huids).
    unfold MEArecSortingExtractor.unit_ids_of in Hids. split.
    + intros ids Hall. apply getUnitIds_constructed. rewrite Huids. do 2 f_equal.
      assert (Hfirst : is_Some (annotations first !! "unit_id")).
      { destruct (Forall2_lookup_l _ _ _ _ _ Hall H0) as (u & _ & v & Hv & _).
        by rewrite Hv. }
      apply contains_true in Hfirst. rewrite Hfirst in Hids.
      assert (Hids' : mapM MEArecSortingExtractor.annotated_unit_id
                        (spiketrains recgen) = Ok ids).
      { apply mapM_Forall2. eapply Forall2_impl; [exact Hall|].
        intros st u. apply annotated_unit_id_Ok. }
      congruence.
    + intros first' H0' Hnone. apply getUnitIds_constructed.
      rewrite H0 in H0'. inversion H0'; subst first'.
      apply contains_false in Hnone. rewrite Hnone in Hids.
      inversion Hids. by subst.
  - intros first st H0 Hfirst Hin Hnone. split.
    + destruct (MEArecSortingExtractor.__init__ w path) as [self|] eqn:Hinit;
        simpl; [|done].
      destruct (Hinv self eq_refl) as (first' & unit_ids & H0' & Hids & _).
      rewrite H0 in H0'. inversion H0'; subst first'.
      unfold MEArecSortingExtractor.unit_ids_of in Hids.
      apply contains_true in Hfirst. rewrite Hfirst in Hids.
      apply mapM_Forall2 in Hids.
      apply list_elem_of_lookup in Hin as [k Hk].
      destruct (Forall2_lookup_l _ _ _ _ _ Hids Hk) as (u & _ & Hu).
      apply annotated_unit_id_Ok in Hu as (v & Hv & _). congruence.
    + intros Hmod Hconv.
      unfold MEArecSortingExtractor.__init__, MEArecSortingExtractor._initialize.
      rewrite Hmod. simpl. rewrite Hload. simpl.
      unfold list_getitem. rewrite H0. simpl.
      apply contains_true in Hfirst. rewrite Hfirst.
      rewrite (mapM_raises_with _ _ st (KeyError "unit_id")); [done | | done | ].
      * intros st' e' Hin' He'.
        unfold MEArecSortingExtractor.annotated_unit_id, getitem in He'.
        destruct (annotations st' !! "unit_id") as [v|] eqn:Hv; simpl in He';
          [|congruence].
        destruct (Hconv st' v Hin' Hv) as [u Hu]. congruence.
      * unfold MEArecSortingExtractor.annotated_unit_id, getitem.
        by rewrite Hnone.
Qed.

Lemma unit_ids_on_construction_witness :
  exists self,
    MEArecSortingExtractor.__init__ Examples.two_units "x.h5" = Ok self /\
    MEArecSortingExtractor.getUnitIds Examples.two_units self
    = Ok (Some [7; 3], self).
Proof.
  eexists. split; [reflexivity|].
  destruct (unit_ids_on_construction Examples.two_units "x.h5" _ eq_refl)
    as [Hok _].
  destruct (Hok _ eq_refl) as [Hannotated _].
  apply Hannotated.
  repeat constructor; eexists; (split; [reflexivity | reflexivity]).
Defined.

(** C2 as stated fails: with the first spike train annotated and the second
    one not, "some spike train lacks the annotation", yet no extractor with
    unit identifiers [0, 1] comes out: construction raises [KeyError]. *)
Lemma unit_ids_mixed_annotations :
  ~ Forall (fun st => is_Some (annotations st !! "unit_id"))
      Examples.mixed_unit_id_trains /\
  MEArecSortingExtractor.__init__ Examples.mixed_unit_ids "x.h5"
    = Raise (KeyError "unit_id") /\
  ~ exists self,
      MEArecSortingExtractor.__init__ Examples.mixed_unit_ids "x.h5" = Ok self /\
      MEArecSortingExtractor.getUnitIds Examples.mixed_unit_ids self
      = Ok (Some [0; 1], self).
Proof.
  split_and!.
  - intros H. apply Forall_cons in H as [_ H]. apply Forall_cons in H as [H _].
    destruct H as [v Hv]. vm_compute in Hv. discriminate.
  - reflexivity.
  - intros (self & Hinit & _). vm_compute in Hinit. discriminate.
Qed.

(** C3, as the code has it.  When the first spike train carries a
    [soma_position] annotation and construction succeeds, every spike train
    carries one and each unit's [soma_location] property is the annotation of
    the (last) spike train stored under that identifier; when the first spike
    train has none, no unit gets the property.  When the first spike train
    carries the annotation and another one lacks it, construction raises; the
    error is [KeyError('soma_position')] when the packages import and the
    unit identifiers have been computed. *)
Theorem soma_location_on_construction (w : World) (path : string)
    (recgen : RecordingGenerator) (first : SpikeTrain) :
  load_recordings w path = Ok recgen ->
  spiketrains recgen !! 0%nat = Some first ->
  (forall self, MEArecSortingExtractor.__init__ w path = Ok self ->
     (is_Some (annotations first !! "soma_position") ->
        (forall st, st ∈ spiketrains recgen ->
           is_Some (annotations st !! "soma_position")) /\
        (forall ids k u st,
           MEArecSortingExtractor._unit_ids self = Some ids ->
           ids !! k = Some u -> spiketrains recgen !! k = Some st ->
           (forall j, (k < j)%nat -> ids !! j <> Some u) ->
           MEArecSortingExtractor.soma_location self u
           = annotations st !! "soma_position")) /\
     (annotations first !! "soma_position" = None ->
        forall u, MEArecSortingExtractor.soma_location self u = None)) /\
  (forall st, is_Some (annotations first !! "soma_position") ->
     st ∈ spiketrains recgen -> annotations st !! "soma_position" = None ->
     raises (MEArecSortingExtractor.__init__ w path) /\
     (_load_required_modules w = Ok tt ->
      forall ids,
        MEArecSortingExtractor.unit_ids_of (spiketrains recgen) first = Ok ids ->
        MEArecSortingExtractor.__init__ w path
        = Raise (KeyError "soma_position"))).
Proof.
  intros Hload H0.
  assert (Hok : forall self, MEArecSortingExtractor.__init__ w path = Ok self ->
     (is_Some (annotations first !! "soma_position") ->
        (forall st, st ∈ spiketrains recgen ->
           is_Some (annotations st !! "soma_position")) /\
        (forall ids k u st,
           MEArecSortingExtractor._unit_ids self = Some ids ->
           ids !! k = Some u -> spiketrains recgen !! k = Some st ->
           (forall j, (k < j)%nat -> ids !! j <> Some u) ->
           MEArecSortingExtractor.soma_location self u
           = annotations st !! "soma_position")) /\
     (annotations first !! "soma_position" = None ->
        forall u, MEArecSortingExtractor.soma_location self u = None)).
  { intros self Hinit.
    apply sorting_init_inv in Hinit
      as (recgen' & first' & unit_ids & self0 & _ & Hload' & H0' & Hids & Hempty
          & _ & _ & _ & Huids & _ & Hfold).
    rewrite Hload in Hload'. inversion Hload'; subst recgen'. clear Hload'.
    rewrite H0 in H0'. inversion H0'; subst first'. clear H0'.
    apply length_unit_ids_of in Hids as Hlen.
    split.
    - intros Hfirst. apply contains_true in Hfirst. rewrite Hfirst in Hfold.
      apply soma_fold_lookup in Hfold as (Hall & _ & Hlast). split.
      + intros st Hin. apply list_elem_of_lookup in Hin as [k Hk].
        destruct (lookup_lt_is_Some_2 unit_ids k) as [u Hu].
        { rewrite Hlen. by eapply lookup_lt_Some. }
        apply (Hall (u, st)). apply list_elem_of_lookup. exists k.
        apply lookup_zip_with_Some. eauto.
      + intros ids k u st Hself Hu Hst Hlater.
        rewrite Huids in Hself. inversion Hself; subst ids.
        apply (Hlast k u st).
        * apply lookup_zip_with_Some. eauto.
        * intros j [u' st'] Hj Hjl. apply lookup_zip_with_Some in Hjl
            as (u'' & st'' & [= <- <-] & Hu'' & _). simpl.
          intros ->. by apply (Hlater j Hj).
    - intros Hnone u. apply contains_false in Hnone. rewrite Hnone in Hfold.
      inversion Hfold; subst self0.
      unfold MEArecSortingExtractor.soma_location. rewrite Hempty.
      apply get_property_empty. }
  split; [exact Hok|].
  intros st Hfirst Hin Hnone. split.
  - destruct (MEArecSortingExtractor.__init__ w path) as [self|] eqn:Hinit;
      simpl; [|done].
    destruct (Hok self eq_refl) as [Hsome _].
    destruct (Hsome Hfirst) as [Hall _].
    apply Hall in Hin as [v Hv]. congruence.
  - intros Hmod ids Hids.
    pose proof (length_unit_ids_of _ _ _ Hids) as Hlen.
    unfold MEArecSortingExtractor.unit_ids_of in Hids.
    unfold MEArecSortingExtractor.__init__, MEArecSortingExtractor._initialize.
    rewrite Hmod. simpl. rewrite Hload. simpl.
    unfold list_getitem. rewrite H0. simpl. rewrite Hids. simpl.
    apply contains_true in Hfirst. rewrite Hfirst.
    apply list_elem_of_lookup in Hin as [k Hk].
    destruct (lookup_lt_is_Some_2 ids k) as [u Hu].
    { rewrite Hlen. by eapply lookup_lt_Some. }
    apply (foldM_raises_with _ _ (u, st)).
    + intros [u' st'] s0 e' He'.
      unfold MEArecSortingExtractor.set_soma_location, getitem in He'.
      simpl in He'.
      destruct (annotations st' !! "soma_position"); simpl in He'; congruence.
    + apply list_elem_of_lookup. exists k. apply lookup_zip_with_Some. eauto.
    + intros s0. unfold MEArecSortingExtractor.set_soma_location, getitem.
      simpl. by rewrite Hnone.
Qed.

Lemma soma_location_on_construction_witness :
  exists self,
    MEArecSortingExtractor.__init__ Examples.two_units "x.h5" = Ok self /\
    MEArecSortingExtractor.soma_location self 3 = Some (PArr [4; 5; 6]%Q).
Proof.
  eexists. split; [reflexivity|].
  destruct (soma_location_on_construction Examples.two_units "x.h5" _ _
              eq_refl eq_refl) as [Hok _].
  destruct (Hok _ eq_refl) as [Hsome _].
  destruct (Hsome ltac:(eexists; reflexivity)) as [_ Hprop].
  rewrite (Hprop [7; 3] 1%nat 3 _ eq_refl eq_refl eq_refl).
  - reflexivity.
  - intros [|[|j]] Hj; [lia | lia | discriminate].
Defined.

(** C3 as stated fails: with a [soma_position] on the first spike train only,
    the unit lacking it is not "left without the property" by a construction
    that "still succeeds": construction raises [KeyError]. *)
Lemma soma_position_missing_on_second :
  (exists first, Examples.mixed_soma_trains !! 0%nat = Some first /\
     is_Some (annotations first !! "soma_position")) /\
  MEArecSortingExtractor.__init__ Examples.mixed_soma "x.h5"
    = Raise (KeyError "soma_position") /\
  ~ exists self,
      MEArecSortingExtractor.__init__ Examples.mixed_soma "x.h5" = Ok self.
Proof.
  split_and!.
  - eexists. split; [reflexivity | eexists; reflexivity].
  - reflexivity.
  - intros (self & Hinit). vm_compute in Hinit. discriminate.
Qed.

(** ** Spike trains in a frame window *)

Lemma f64_ltb_Finite (p q : Q) : f64_ltb (Finite p) (Finite q) = true <-> (p < q)%Q.
Proof. simpl. rewrite Qlt_alt. destruct (Qcompare p q); split; congruence. Qed.

Lemma in_window_finite (start_frame : Z) (end_frame : option Z) (t : f64) :
  MEArecSortingExtractor.in_window start_frame end_frame t = true ->
  exists q, t = Finite q.
Proof.
  unfold MEArecSortingExtractor.in_window, float_of_int.
  destruct t as [q| | |]; [eauto | | | ]; destruct end_frame; simpl; discriminate.
Qed.

Lemma in_window_spec (start_frame : Z) (end_frame : option Z) (q : Q) :
  MEArecSortingExtractor.in_window start_frame end_frame (Finite q) = true <->
  (inject_Z (round_int start_frame) <= q)%Q /\
  forall e, end_frame = Some e -> (q < inject_Z (round_int e))%Q.
Proof.
  unfold MEArecSortingExtractor.in_window, float_of_int.
  rewrite andb_true_iff. change (f64_leb (Finite ?p) (Finite q)) with (Qle_bool p q).
  rewrite Qle_bool_iff.
  destruct end_frame as [e|].
  - rewrite f64_ltb_Finite. split; intros [Hs He]; (split; [done|]).
    + by intros e' [= <-].
    + by apply He.
  - split; intros [Hs _]; (split; [done|]); [intros e' [=] | done].
Qed.

Lemma astype_int_rint (q : Q) :
  int64_min <= rint q < 2 ^ 63 ->
  astype_int (f64_rint (Finite q)) = rint q.
Proof.
  intros [Hlo Hhi]. simpl. rewrite Z.quot_1_r.
  destruct (Z.leb_spec int64_min (rint q)); [|lia].
  destruct (Z.ltb_spec (rint q) (2 ^ 63)); [done | lia].
Qed.

Lemma getUnitSpikeTrain_constructed (w : World) (self : MEArecSortingExtractor.t)
    (ids : list Z) (trains : list SpikeTrain) (fs : Q)
    (unit_id : Z) (start_frame end_frame : option Z) :
  MEArecSortingExtractor._unit_ids self = Some ids ->
  MEArecSortingExtractor._spike_trains self = Some trains ->
  MEArecSortingExtractor._fs self = Some fs ->
  MEArecSortingExtractor.getUnitSpikeTrain w self unit_id start_frame end_frame
  = (k ← list_index unit_id ids;
     st ← list_getitem trains k;
     Ok (astype_int <$>
           (f64_rint <$>
              List.filter
                (MEArecSortingExtractor.in_window (default 0 start_frame) end_frame)
                ((fun t => fmul t fs) <$> times st)),
         self)).
Proof.
  intros Hids Htrains Hfs. unfold MEArecSortingExtractor.getUnitSpikeTrain.
  rewrite Htrains. simpl. rewrite Htrains. simpl.
  rewrite (getUnitIds_constructed w self ids Hids). simpl.
  destruct (list_index unit_id ids) as [k|]; simpl; [|done].
  destruct (list_getitem trains k) as [st|]; simpl; [|done].
  rewrite Hfs. simpl. by rewrite np_take_where.
Qed.



Lemma constructed_lookup (w : World) (path : string)
    (self : MEArecSortingExtractor.t) (ids : list Z) (unit_id : Z) :
  MEArecSortingExtractor.__init__ w path = Ok self ->
  MEArecSortingExtractor._unit_ids self = Some ids ->
  unit_id ∈ ids ->
  exists k st trains fs,
    list_index unit_id ids = Ok k /\
    MEArecSortingExtractor._spike_trains self = Some trains /\
    MEArecSortingExtractor._fs self = Some fs /\
    trains !! k = Some st.
Proof.
  intros Hinit Hids Hin. destruct (list_index_present _ _ Hin) as [k Hk].
  pose proof Hk as Hk'. apply list_index_Ok in Hk' as [Hat _].
  apply sorting_init_inv in Hinit
    as (recgen & first & unit_ids & self0 & _ & _ & _ & Huids & _ & _ & _
        & Htrains & Hids' & Hfs & _).
  rewrite Hids in Hids'. inversion Hids'; subst unit_ids.
  apply length_unit_ids_of in Huids.
  destruct (lookup_lt_is_Some_2 (spiketrains recgen) k) as [st Hst].
  { rewrite <- Huids. by eapply lookup_lt_Some. }
  by exists k, st, (spiketrains recgen), (info_fs recgen).
Qed.

(** C7.  [getUnitSpikeTrain] finds the spike train by the value of the unit
    identifier: it uses the spike train stored at the position where the
    identifier first occurs in the unit list, whatever that identifier is,
    and raises [ValueError] when the identifier is not in the list. *)
Theorem getUnitSpikeTrain_by_value (w : World) (path : string)
    (self : MEArecSortingExtractor.t) (ids : list Z)
    (trains : list SpikeTrain) (fs : Q)
    (unit_id : Z) (start_frame end_frame : option Z) :
  MEArecSortingExtractor.__init__ w path = Ok self ->
  MEArecSortingExtractor._unit_ids self = Some ids ->
  MEArecSortingExtractor._spike_trains self = Some trains ->
  MEArecSortingExtractor._fs self = Some fs ->
  (unit_id ∉ ids ->
   MEArecSortingExtractor.getUnitSpikeTrain w self unit_id start_frame end_frame
   = Raise ValueError) /\
  (unit_id ∈ ids ->
   exists k st,
     ids !! k = Some unit_id /\ (forall j, (j < k)%nat -> ids !! j <> Some unit_id) /\
     trains !! k = Some st /\
     MEArecSortingExtractor.getUnitSpikeTrain w self unit_id start_frame end_frame
     = Ok (astype_int <$>
             (f64_rint <$>
                List.filter
                  (MEArecSortingExtractor.in_window (default 0 start_frame) end_frame)
                  ((fun t => fmul t fs) <$> times st)),
           self)).
Proof.
  intros Hinit Hids Htrains Hfs.
  rewrite (getUnitSpikeTrain_constructed w self ids trains fs) by done.
  split.
  - intros Habsent. by rewrite list_index_absent.
  - intros Hin.
    destruct (constructed_lookup w path self ids unit_id Hinit Hids Hin)
      as (k & st & trains' & fs' & Hk & Htrains' & _ & Hst).
    rewrite Htrains in Htrains'. inversion Htrains'; subst trains'.
    pose proof Hk as Hk'. apply list_index_Ok in Hk' as [Hat Hfirst].
    exists k, st. split_and!; try done.
    rewrite Hk. simpl. unfold list_getitem. by rewrite Hst.
Qed.

Lemma getUnitSpikeTrain_by_value_witness :
  exists self,
    MEArecSortingExtractor.__init__ Examples.two_units "x.h5" = Ok self /\
    MEArecSortingExtractor.getUnitSpikeTrain Examples.two_units self 1 None None
    = Raise ValueError /\
    MEArecSortingExtractor.getUnitSpikeTrain Examples.two_units self 3 None None
    = Ok ([117; 938], self).
Proof.
  eexists. split; [reflexivity|].
  split.
  - destruct (getUnitSpikeTrain_by_value Examples.two_units "x.h5" _ [7; 3] _ _
                1 None None eq_refl eq_refl eq_refl eq_refl) as [Habsent _].
    apply Habsent. intros Hin.
    apply elem_of_cons in Hin as [|Hin]; [discriminate|].
    apply elem_of_cons in Hin as [|Hin]; [discriminate | inversion Hin].
  - destruct (getUnitSpikeTrain_by_value Examples.two_units "x.h5" _ [7; 3] _ _
                3 None None eq_refl eq_refl eq_refl eq_refl) as [_ Hpresent].
    destruct Hpresent as (k & st & Hk & Hfirst & Hst & Hget).
    { apply elem_of_cons. right. apply elem_of_cons. by left. }
    destruct k as [|[|k]]; [discriminate | | discriminate].
    inversion Hst; subst st. etrans; [exact Hget | reflexivity].
Defined.




(** The product is the binary64 one: the nearest binary64 to a third of a
    second, times 3 Hz, is exactly 1 and so falls in [1, 2), not in
    [0, 1). *)
Example product_is_rounded :
  exists self,
    MEArecSortingExtractor.__init__ Examples.third_of_a_second "x.h5" = Ok self /\
    MEArecSortingExtractor.getUnitSpikeTrain Examples.third_of_a_second self 0
      (Some 0) (Some 1) = Ok ([], self) /\
    MEArecSortingExtractor.getUnitSpikeTrain Examples.third_of_a_second self 0
      (Some 1) (Some 2) = Ok ([1], self).
Proof. eexists. split_and!; reflexivity. Qed.

(** The conversion to [int64] overflows: a product of [10^20] comes back as
    the least [int64]. *)
Example index_overflows :
  exists self,
    MEArecSortingExtractor.__init__ Examples.distant_spike "x.h5" = Ok self /\
    MEArecSortingExtractor.getUnitSpikeTrain Examples.distant_spike self 0
      None None = Ok ([-9223372036854775808], self).
Proof. eexists. split; reflexivity. Qed.

(** ** The save path *)

Lemma Path_suffix_joinpath (p : Path) (name : string) :
  Path_suffix (joinpath p name) = name_suffix name.
Proof. unfold Path_suffix, Path_name, joinpath. simpl. by rewrite last_last. Qed.

Lemma has_h5_suffix_true (p : Path) :
  has_h5_suffix p = true <->
  Path_suffix p = ".h5"%string \/ Path_suffix p = ".hdf5"%string.
Proof. unfold has_h5_suffix. by rewrite orb_true_iff, !String.eqb_eq. Qed.

Lemma has_h5_suffix_false (p : Path) :
  has_h5_suffix p = false <->
  Path_suffix p <> ".h5"%string /\ Path_suffix p <> ".hdf5"%string.
Proof. unfold has_h5_suffix. by rewrite orb_false_iff, !String.eqb_neq. Qed.

Lemma resolve_directory (w : World) (save_path default_name notice : string) :
  is_dir w (Path_of save_path) = true ->
  resolve_save_path w save_path default_name notice
  = ([notice], joinpath (Path_of save_path) default_name).
Proof. intros H. unfold resolve_save_path. by rewrite H. Qed.

(** ** Building the spike trains to export *)

Section BuildSpikeTrains.
Context {S : Type} `{spikeextractors.SortingExtractor S}.
Variables (sorting : S) (sampling_frequency : Q).

Lemma build_spiketrain_nonempty (u : Z) (a : list Z) :
  spikeextractors.getUnitSpikeTrain sorting u = Ok a -> a <> [] ->
  exists st,
    MEArecSortingExtractor.build_spiketrain sorting sampling_frequency u = Ok st /\
    times st = MEArecSortingExtractor.to_seconds sampling_frequency a /\
    annotations st !! "unit_id" = Some (PInt u).
Proof.
  intros Ha Hne. unfold MEArecSortingExtractor.build_spiketrain.
  rewrite Ha. simpl. destruct a as [|i a]; [done|]. simpl.
  eexists. split; [reflexivity|]. split; [done|].
  simpl. apply lookup_insert_eq.
Qed.

Lemma build_spiketrain_empty (u : Z) :
  spikeextractors.getUnitSpikeTrain sorting u = Ok [] ->
  MEArecSortingExtractor.build_spiketrain sorting sampling_frequency u
  = Raise ValueError.
Proof.
  intros Ha. unfold MEArecSortingExtractor.build_spiketrain. by rewrite Ha.
Qed.

Lemma build_spiketrains_Ok (ids : list Z) :
  Forall (fun u => exists a, spikeextractors.getUnitSpikeTrain sorting u = Ok a /\
                             a <> []) ids ->
  exists sts,
    mapM (MEArecSortingExtractor.build_spiketrain sorting sampling_frequency) ids
    = Ok sts.
Proof.
  induction 1 as [|u ids (a & Ha & Hne) _ [sts IH]]; simpl; [eauto|].
  destruct (build_spiketrain_nonempty u a Ha Hne) as (st & -> & _).
  simpl. rewrite IH. simpl. eauto.
Qed.

Lemma build_spiketrains_ValueError (ids : list Z) (u : Z) :
  Forall (fun u => exists a, spikeextractors.getUnitSpikeTrain sorting u = Ok a) ids ->
  u ∈ ids -> spikeextractors.getUnitSpikeTrain sorting u = Ok [] ->
  mapM (MEArecSortingExtractor.build_spiketrain sorting sampling_frequency) ids
  = Raise ValueError.
Proof.
  intros Hall Hin Hu. induction Hall as [|u' ids [a Ha] _ IH]; [by inversion Hin|].
  simpl. destruct a as [|i a].
  - by rewrite build_spiketrain_empty.
  - destruct (build_spiketrain_nonempty u' (i :: a) Ha) as (st & -> & _); [done|].
    simpl. apply elem_of_cons in Hin as [->|Hin]; [congruence|].
    by rewrite IH.
Qed.

End BuildSpikeTrains.

(** C6.  With the packages installed: a save path that is a directory gets
    [recording.h5] (or [sorting.h5]) appended and the exporter goes on to the
    save call with that path; a path whose suffix, after this rewriting, is
    neither [.h5] nor [.hdf5] makes the exporter raise the usage error, and
    no save call is made. *)
Theorem save_path_rule (w : World) (save_path : string) :
  _load_required_modules w = Ok tt ->
  (is_dir w (Path_of save_path) = true ->
   (forall R (HR : spikeextractors.RecordingExtractor R) (recording : R)
      traces positions,
      spikeextractors.getTraces recording = Ok traces ->
      MEArecRecordingExtractor.export_positions recording = Ok positions ->
      MEArecRecordingExtractor.writeRecording w recording save_path
      = ([recording_notice],
         Ok {| saved_generator :=
                 {| arg_fs := spikeextractors.getSamplingFrequency recording;
                    arg_recordings := Some traces;
                    arg_channel_positions := positions;
                    arg_spiketrains := None |};
               saved_path :=
                 Path_str (joinpath (Path_of save_path) "recording.h5") |})) /\
   (forall S (HS : spikeextractors.SortingExtractor S) (sorting : S) fs ids,
      spikeextractors.getUnitIds sorting = Ok ids ->
      Forall (fun u => exists a,
                spikeextractors.getUnitSpikeTrain sorting u = Ok a /\ a <> []) ids ->
      exists sts,
        MEArecSortingExtractor.writeSorting w sorting save_path fs
        = ([sorting_notice],
           Ok {| saved_generator :=
                   {| arg_fs := fs;
                      arg_recordings := None;
                      arg_channel_positions := None;
                      arg_spiketrains := Some sts |};
                 saved_path :=
                   Path_str (joinpath (Path_of save_path) "sorting.h5") |}))) /\
  (forall R (HR : spikeextractors.RecordingExtractor R) (recording : R),
     let p := (resolve_save_path w save_path "recording.h5" recording_notice).2 in
     Path_suffix p <> ".h5"%string -> Path_suffix p <> ".hdf5"%string ->
     (MEArecRecordingExtractor.writeRecording w recording save_path).2
     = Raise (Exception usage_message)) /\
  (forall S (HS : spikeextractors.SortingExtractor S) (sorting : S) fs,
     let p := (resolve_save_path w save_path "sorting.h5" sorting_notice).2 in
     Path_suffix p <> ".h5"%string -> Path_suffix p <> ".hdf5"%string ->
     (MEArecSortingExtractor.writeSorting w sorting save_path fs).2
     = Raise (Exception usage_message)) /\
  usage_message = "Provide a folder or an .h5/.hdf5 as 'save_path'"%string.
Proof.
  intros Hmod. split_and!.
  - intros Hdir. split.
    + intros R HR recording traces positions Htraces Hpos.
      unfold MEArecRecordingExtractor.writeRecording.
      rewrite Hmod, (resolve_directory w save_path _ _ Hdir).
      assert (Hsuffix : has_h5_suffix (joinpath (Path_of save_path) "recording.h5") = true).
      { apply has_h5_suffix_true. left. by rewrite Path_suffix_joinpath. }
      rewrite Hsuffix, Htraces. simpl. rewrite Hpos. done.
    + intros S HS sorting fs ids Hids Hall.
      destruct (build_spiketrains_Ok sorting fs ids Hall) as [sts Hsts].
      exists sts. unfold MEArecSortingExtractor.writeSorting.
      rewrite Hmod, (resolve_directory w save_path _ _ Hdir).
      assert (Hsuffix : has_h5_suffix (joinpath (Path_of save_path) "sorting.h5") = true).
      { apply has_h5_suffix_true. left. by rewrite Path_suffix_joinpath. }
      rewrite Hsuffix, Hids. simpl. rewrite Hsts. done.
  - intros R HR recording p H5 Hdf5.
    unfold MEArecRecordingExtractor.writeRecording. rewrite Hmod.
    subst p. destruct (resolve_save_path _ _ _ _) as [out p]. simpl in *.
    by rewrite (proj2 (has_h5_suffix_false p)).
  - intros S HS sorting fs p H5 Hdf5.
    unfold MEArecSortingExtractor.writeSorting. rewrite Hmod.
    subst p. destruct (resolve_save_path _ _ _ _) as [out p]. simpl in *.
    by rewrite (proj2 (has_h5_suffix_false p)).
  - reflexivity.
Qed.

Lemma save_path_rule_witness :
  (exists call,
     MEArecRecordingExtractor.writeRecording Examples.with_out_dir
       Examples.recording_3x20 "out" = ([recording_notice], Ok call) /\
     saved_path call = "out/recording.h5"%string) /\
  (exists call,
     MEArecSortingExtractor.writeSorting Examples.with_out_dir
       Examples.sorting_2 "out" 30000 = ([sorting_notice], Ok call) /\
     saved_path call = "out/sorting.h5"%string) /\
  (MEArecRecordingExtractor.writeRecording Examples.with_out_dir
     Examples.recording_3x20 "out/notes.txt").2
  = Raise (Exception usage_message) /\
  (MEArecSortingExtractor.writeSorting Examples.with_out_dir
     Examples.sorting_2 "out/notes.txt" 30000).2
  = Raise (Exception usage_message).
Proof.
  destruct (save_path_rule Examples.with_out_dir "out" eq_refl)
    as (Hdir & _ & _ & _).
  destruct (Hdir eq_refl) as [Hrec Hsort].
  destruct (save_path_rule Examples.with_out_dir "out/notes.txt" eq_refl)
    as (_ & Hbad_rec & Hbad_sort & _).
  split_and!.
  - eexists. split.
    + apply (Hrec _ _ Examples.recording_3x20 Examples.traces_3x20
               (Some (PArr <$> Examples.positions_3))); reflexivity.
    + reflexivity.
  - assert (Hids : spikeextractors.getUnitIds Examples.sorting_2 = Ok [7; 3])
      by reflexivity.
    destruct (Hsort _ _ Examples.sorting_2 30000%Q [7; 3] Hids) as [sts Hsts].
    { repeat constructor; eexists; (split; [reflexivity | discriminate]). }
    eexists. split; [exact Hsts | reflexivity].
  - apply Hbad_rec; vm_compute; discriminate.
  - apply Hbad_sort; vm_compute; discriminate.
Defined.

(** C10.  [writeSorting] raises whenever some unit of the source has an empty
    spike-sample sequence, since the minimum of the converted sequence is
    taken; it reaches the save call only if every unit has a spike.  With the
    packages installed, an accepted path and a source that answers for each of
    its units, the exception is the [ValueError] of the empty minimum, and
    all spike trains are built when no unit is empty. *)
Theorem writeSorting_empty_unit {S : Type}
    `{spikeextractors.SortingExtractor S}
    (w : World) (sorting : S) (save_path : string) (fs : Q) (ids : list Z) :
  spikeextractors.getUnitIds sorting = Ok ids ->
  (forall u, u ∈ ids -> spikeextractors.getUnitSpikeTrain sorting u = Ok [] ->
     raises (MEArecSortingExtractor.writeSorting w sorting save_path fs).2) /\
  (forall call,
     (MEArecSortingExtractor.writeSorting w sorting save_path fs).2 = Ok call ->
     forall u, u ∈ ids ->
       spikeextractors.getUnitSpikeTrain sorting u <> Ok []) /\
  (_load_required_modules w = Ok tt ->
   has_h5_suffix (resolve_save_path w save_path "sorting.h5" sorting_notice).2
     = true ->
   Forall (fun u => exists a, spikeextractors.getUnitSpikeTrain sorting u = Ok a)
     ids ->
   (forall u, u ∈ ids -> spikeextractors.getUnitSpikeTrain sorting u = Ok [] ->
      (MEArecSortingExtractor.writeSorting w sorting save_path fs).2
      = Raise ValueError) /\
   ((forall u, u ∈ ids -> spikeextractors.getUnitSpikeTrain sorting u <> Ok []) ->
      exists sts call,
        mapM (MEArecSortingExtractor.build_spiketrain sorting fs) ids = Ok sts /\
        length sts = length ids /\
        (MEArecSortingExtractor.writeSorting w sorting save_path fs).2 = Ok call /\
        arg_spiketrains (saved_generator call) = Some sts)).
Proof.
  intros Hids.
  assert (Hraises : forall u, u ∈ ids ->
            spikeextractors.getUnitSpikeTrain sorting u = Ok [] ->
            raises (MEArecSortingExtractor.writeSorting w sorting save_path fs).2).
  { intros u Hin Hu. unfold MEArecSortingExtractor.writeSorting.
    destruct (_load_required_modules w); simpl; [|done].
    destruct (resolve_save_path _ _ _ _) as [out p]. simpl.
    destruct (has_h5_suffix p); simpl; [|done].
    rewrite Hids. simpl.
    pose proof (mapM_raises
                  (MEArecSortingExtractor.build_spiketrain sorting fs) ids u Hin)
      as Hmap.
    rewrite build_spiketrain_empty in Hmap by done.
    specialize (Hmap I).
    by destruct (mapM _ ids). }
  split_and!.
  - exact Hraises.
  - intros call Hcall u Hin Hu. specialize (Hraises u Hin Hu).
    rewrite Hcall in Hraises. exact Hraises.
  - intros Hmod Hsuffix Hall.
    unfold MEArecSortingExtractor.writeSorting. rewrite Hmod.
    destruct (resolve_save_path _ _ _ _) as [out p]. simpl in *.
    rewrite Hsuffix, Hids. simpl. split.
    + intros u Hin Hu.
      by rewrite (build_spiketrains_ValueError sorting fs ids u Hall Hin Hu).
    + intros Hnonempty.
      destruct (build_spiketrains_Ok sorting fs ids) as [sts Hsts].
      { rewrite Forall_forall in Hall. apply Forall_forall. intros u Hin.
        destruct (Hall u Hin) as [a Ha]. exists a. split; [done|].
        intros ->. by apply (Hnonempty u Hin). }
      exists sts. eexists. rewrite Hsts. simpl.
      split_and!; [done | by apply mapM_length in Hsts | done | done].
Qed.

Lemma writeSorting_empty_unit_witness :
  raises (MEArecSortingExtractor.writeSorting Examples.with_out_dir
            Examples.sorting_with_silent_unit "out/sorting.h5" 30000).2 /\
  (MEArecSortingExtractor.writeSorting Examples.with_out_dir
     Examples.sorting_with_silent_unit "out/sorting.h5" 30000).2
  = Raise ValueError.
Proof.
  assert (Hids : spikeextractors.getUnitIds Examples.sorting_with_silent_unit
                 = Ok [7; 3]) by reflexivity.
  destruct (writeSorting_empty_unit Examples.with_out_dir
              Examples.sorting_with_silent_unit "out/sorting.h5" 30000 [7; 3]
              Hids) as (Hraises & _ & Hvalue).
  assert (Hin : 3 ∈ [7; 3]).
  { apply elem_of_cons. right. apply elem_of_cons. by left. }
  split.
  - apply (Hraises 3 Hin). reflexivity.
  - destruct (Hvalue eq_refl eq_refl) as [Herr _].
    + repeat constructor; eexists; reflexivity.
    + apply (Herr 3 Hin). reflexivity.
Defined.

(** The same export with a spike in every unit reaches the save call. *)
Example writeSorting_two_units :
  exists call,
    (MEArecSortingExtractor.writeSorting Examples.with_out_dir
       Examples.sorting_2 "out/sorting.h5" 30000).2 = Ok call /\
    saved_path call = "out/sorting.h5"%string.
Proof. eexists. split; reflexivity. Qed.

(** * Further properties of the module *)

(** ** More on the result monad *)

Lemma mapM_total {A B} (f : A -> result B) (l : list A) :
  Forall (fun x => exists y, f x = Ok y) l -> exists l', mapM f l = Ok l'.
Proof.
  induction 1 as [|x l [y Hy] _ [l' IH]]; simpl; [eauto|].
  rewrite Hy. simpl. rewrite IH. simpl. eauto.
Qed.

(** ** Reading traces *)

Lemma slice_bound_clip (n : nat) (i : Z) :
  Z.of_nat n <= i -> slice_bound n i = n.
Proof.
  intros H. unfold slice_bound.
  destruct (Z.ltb_spec i 0); [lia|]. rewrite Z.min_r by lia. apply Nat2Z.id.
Qed.

(** X1.  On a constructed recording extractor, [getTraces] with a non-empty
    list of strictly increasing channel ids inside [0, num_channels) and
    frames [0 <= start <= end <= num_frames] returns a well-formed matrix with
    one row per requested id and [end - start] columns, whose row [i] is
    frames [start .. end-1] of the channel requested at position [i]. *)
Theorem getTraces_submatrix (w : World) (path : string)
    (self : MEArecRecordingExtractor.t) (ids : list Z) (s e : nat) :
  MEArecRecordingExtractor.__init__ w path = Ok self ->
  wf_ndarray2 (MEArecRecordingExtractor._recordings self) ->
  ids <> [] ->
  Forall (fun c => 0 <= c < Z.of_nat (MEArecRecordingExtractor.getNumChannels self)) ids ->
  increasing ids = true ->
  (s <= e <= MEArecRecordingExtractor.getNumFrames self)%nat ->
  exists m,
    MEArecRecordingExtractor.getTraces self (Some ids)
      (Some (Z.of_nat s)) (Some (Z.of_nat e)) = Ok m /\
    shape0 m = length ids /\ shape1 m = (e - s)%nat /\ wf_ndarray2 m /\
    forall i c, ids !! i = Some c ->
      exists channel,
        rows (MEArecRecordingExtractor._recordings self) !! Z.to_nat c = Some channel /\
        rows m !! i = Some (take (e - s) (drop s channel)) /\
        forall j, (j < e - s)%nat ->
          take (e - s) (drop s channel) !! j = channel !! (s + j)%nat.
Proof.
  intros Hinit [Hrows Hcols] _ Hids Hinc Hse.
  apply init_inv in Hinit
    as (recgen & self0 & _ & _ & _ & _ & _ & Hrec & Hn & Hm & _).
  unfold MEArecRecordingExtractor.getTraces,
    MEArecRecordingExtractor.getNumChannels,
    MEArecRecordingExtractor.getNumFrames,
    MEArecRecordingExtractor.getChannelIds in *.
  rewrite range_length, Hn, <- Hrec in Hids. rewrite Hm, <- Hrec in Hse.
  set (a := MEArecRecordingExtractor._recordings self) in *. clearbody a.
  simpl. unfold dataset_getitem.
  rewrite fancy_index_in_range by done. simpl.
  set (f := fun k => r ← list_getitem (rows a) k;
                     Ok (slice (shape1 a) (Z.of_nat s) (Z.of_nat e) r)).
  assert (Hf : forall c, 0 <= c < Z.of_nat (shape0 a) ->
            exists channel, rows a !! Z.to_nat c = Some channel /\
              length channel = shape1 a /\
              f (Z.to_nat c) = Ok (take (e - s) (drop s channel))).
  { intros c Hc.
    destruct (lookup_lt_is_Some_2 (rows a) (Z.to_nat c)) as [channel Hch]; [lia|].
    exists channel. split; [done|]. split.
    { rewrite Forall_forall in Hcols. apply Hcols.
      by eapply list_elem_of_lookup_2. }
    unfold f, list_getitem. rewrite Hch. simpl.
    by rewrite slice_in_range by lia. }
  destruct (mapM_total f (Z.to_nat <$> ids)) as [rs Hrs].
  { apply Forall_fmap. eapply Forall_impl; [exact Hids|]. intros c Hc.
    destruct (Hf c Hc) as (channel & _ & _ & Hfc). simpl. eauto. }
  rewrite Hrs. simpl. eexists. split; [reflexivity|]. simpl.
  rewrite !slice_bound_in_range by lia.
  apply mapM_Forall2 in Hrs as Hall.
  split_and!; [done | done | | ].
  - split; simpl; [apply mapM_length in Hrs; by rewrite Hrs, length_fmap|].
    apply Forall_forall. intros r Hr.
    apply list_elem_of_lookup in Hr as [i Hi].
    destruct (Forall2_lookup_r _ _ _ _ _ Hall Hi) as (k & Hk & Hfk).
    rewrite list_lookup_fmap in Hk.
    destruct (ids !! i) as [c|] eqn:Hc; [|discriminate].
    simpl in Hk. inversion Hk; subst k.
    rewrite Forall_forall in Hids.
    destruct (Hf c (Hids c (list_elem_of_lookup_2 _ _ _ Hc)))
      as (channel & _ & Hlen & Hfc').
    rewrite Hfk in Hfc'. inversion Hfc'; subst r.
    rewrite length_take, length_drop. lia.
  - intros i c Hc.
    rewrite Forall_forall in Hids.
    destruct (Hf c (Hids c (list_elem_of_lookup_2 _ _ _ Hc)))
      as (channel & Hch & Hlen & Hfc).
    exists channel. split; [done|]. split.
    + assert (Hk : (Z.to_nat <$> ids) !! i = Some (Z.to_nat c)).
      { by rewrite list_lookup_fmap, Hc. }
      destruct (Forall2_lookup_l _ _ _ _ _ Hall Hk) as (r & Hr & Hfr).
      rewrite Hfc in Hfr. by inversion Hfr; subst r.
    + intros j Hj. rewrite lookup_take_lt by done. by rewrite lookup_drop.
Qed.

Lemma getTraces_submatrix_witness :
  exists self m,
    MEArecRecordingExtractor.__init__ Examples.probe_3x20 "rec.h5" = Ok self /\
    MEArecRecordingExtractor.getTraces self (Some [0; 2]) (Some 5) (Some 8) = Ok m /\
    shape0 m = 2%nat /\ shape1 m = 3%nat /\ wf_ndarray2 m.
Proof.
  eexists.
  assert (Hwf : wf_ndarray2 Examples.traces_3x20).
  { split; [reflexivity | repeat constructor]. }
  destruct (getTraces_submatrix Examples.probe_3x20 "rec.h5" _ [0; 2] 5 8
              eq_refl Hwf) as (m & Hm & H0 & H1 & Hwfm & _).
  - discriminate.
  - repeat constructor; vm_compute; congruence.
  - reflexivity.
  - vm_compute. lia.
  - exists m. split; [reflexivity|]. split; [exact Hm|]. by split_and!.
Defined.

(** The dataset refuses what an array accepts: ids out of order. *)
Example getTraces_unordered_channels :
  exists self,
    MEArecRecordingExtractor.__init__ Examples.probe_3x20 "rec.h5" = Ok self /\
    MEArecRecordingExtractor.getTraces self (Some [2; 0]) (Some 5) (Some 8)
    = Raise TypeError.
Proof. eexists. split; reflexivity. Qed.

(** X2.  A requested channel id at or beyond the channel count makes
    [getTraces] fail with an error of the dataset, whatever the other ids and
    the frame window are. *)
Theorem getTraces_bad_channel (w : World) (path : string)
    (self : MEArecRecordingExtractor.t) (ids : list Z) (c : Z)
    (start_frame end_frame : option Z) :
  MEArecRecordingExtractor.__init__ w path = Ok self ->
  c ∈ ids -> Z.of_nat (MEArecRecordingExtractor.getNumChannels self) <= c ->
  raises (MEArecRecordingExtractor.getTraces self (Some ids) start_frame end_frame).
Proof.
  intros Hinit Hin Hc.
  apply init_inv in Hinit
    as (recgen & self0 & _ & _ & _ & _ & _ & Hrec & Hn & _).
  unfold MEArecRecordingExtractor.getTraces,
    MEArecRecordingExtractor.getNumChannels,
    MEArecRecordingExtractor.getChannelIds in *.
  rewrite range_length, Hn, <- Hrec in Hc. simpl. unfold dataset_getitem.
  pose proof (fancy_index_beyond _ ids c Hin Hc) as Hraises.
  by destruct (fancy_index _ ids).
Qed.

Lemma getTraces_bad_channel_witness :
  exists self,
    MEArecRecordingExtractor.__init__ Examples.probe_3x20 "rec.h5" = Ok self /\
    raises (MEArecRecordingExtractor.getTraces self (Some [0; 3]) None None).
Proof.
  eexists. split; [reflexivity|].
  apply (getTraces_bad_channel Examples.probe_3x20 "rec.h5" _ [0; 3] 3 None None
           eq_refl).
  - apply elem_of_cons. right. apply elem_of_cons. by left.
  - vm_compute. congruence.
Defined.

(** X3.  An [end_frame] at or past the number of frames is clipped: the call
    returns what the call with [end_frame] omitted returns. *)
Theorem getTraces_end_clipped (w : World) (path : string)
    (self : MEArecRecordingExtractor.t) (channel_ids : option (list Z))
    (start_frame : option Z) (e : Z) :
  MEArecRecordingExtractor.__init__ w path = Ok self ->
  Z.of_nat (MEArecRecordingExtractor.getNumFrames self) <= e ->
  MEArecRecordingExtractor.getTraces self channel_ids start_frame (Some e)
  = MEArecRecordingExtractor.getTraces self channel_ids start_frame None.
Proof.
  intros Hinit He.
  apply init_inv in Hinit
    as (recgen & self0 & _ & _ & _ & _ & _ & Hrec & _ & Hm & _).
  unfold MEArecRecordingExtractor.getTraces,
    MEArecRecordingExtractor.getNumFrames in *. simpl.
  rewrite Hm, <- Hrec in *.
  unfold dataset_getitem, slice.
  rewrite (slice_bound_clip _ e) by done.
  by rewrite (slice_bound_clip _ (Z.of_nat _)) by lia.
Qed.

Lemma getTraces_end_clipped_witness :
  exists self,
    MEArecRecordingExtractor.__init__ Examples.probe_3x20 "rec.h5" = Ok self /\
    MEArecRecordingExtractor.getTraces self (Some [1]) (Some 18) (Some 500)
    = MEArecRecordingExtractor.getTraces self (Some [1]) (Some 18) None.
Proof.
  eexists. split; [reflexivity|].
  apply (getTraces_end_clipped Examples.probe_3x20 "rec.h5" _ _ _ 500 eq_refl).
  vm_compute. congruence.
Defined.

(** X4.  The accessors of a constructed recording extractor report the
    loaded container: the channel count and the frame count are the two
    dimensions of the trace matrix and the sampling frequency is the stored
    rate; assigning the channel locations does not disturb them. *)
Theorem recording_accessors (w : World) (path : string)
    (self : MEArecRecordingExtractor.t) (recgen : RecordingGenerator) :
  MEArecRecordingExtractor.__init__ w path = Ok self ->
  load_recordings w path = Ok recgen ->
  MEArecRecordingExtractor.getNumChannels self = shape0 (recordings recgen) /\
  MEArecRecordingExtractor.getNumFrames self = shape1 (recordings recgen) /\
  MEArecRecordingExtractor.getSamplingFrequency self = info_fs recgen /\
  MEArecRecordingExtractor._recordings self = recordings recgen.
Proof.
  intros Hinit Hload.
  apply init_inv in Hinit
    as (recgen' & self0 & _ & Hload' & _ & _ & Hfs & Hrec & Hn & Hm & _).
  rewrite Hload in Hload'. inversion Hload'; subst recgen'.
  unfold MEArecRecordingExtractor.getNumChannels,
    MEArecRecordingExtractor.getChannelIds,
    MEArecRecordingExtractor.getNumFrames,
    MEArecRecordingExtractor.getSamplingFrequency.
  by rewrite range_length.
Qed.

Lemma recording_accessors_witness :
  exists self,
    MEArecRecordingExtractor.__init__ Examples.probe_3x20 "rec.h5" = Ok self /\
    MEArecRecordingExtractor.getNumChannels self = 3%nat /\
    MEArecRecordingExtractor.getNumFrames self = 20%nat /\
    MEArecRecordingExtractor.getSamplingFrequency self = 30000%Q.
Proof.
  eexists. split; [reflexivity|].
  destruct (recording_accessors Examples.probe_3x20 "rec.h5" _ _ eq_refl eq_refl)
    as (Hn & Hm & Hfs & _).
  by split_and!.
Defined.

Lemma set_locations_only (locations : list (list Q))
    (self : MEArecRecordingExtractor.t) (c : Z) (name : string) :
  MEArecRecordingExtractor._channel_properties self = ∅ ->
  is_Some (get_property
             (MEArecRecordingExtractor._channel_properties
                (fold_left MEArecRecordingExtractor.set_location
                   (enumerate locations) self)) c name) ->
  name = "location"%string /\ 0 <= c < Z.of_nat (length locations).
Proof.
  intros Hempty. induction locations as [|pos locations IH] using rev_ind.
  - simpl. rewrite Hempty, get_property_empty. by intros [? ?].
  - rewrite enumerate_snoc, fold_left_app, length_app; simpl.
    rewrite get_set_property. case_decide as Hd.
    + intros _. destruct Hd as [<- <-]. split; [done | lia].
    + intros H. destruct (IH H) as [-> Hc]. split; [done | lia].
Qed.

(** X5.  Construction of a recording extractor sets no channel property but
    [location], and that one only on channels [0 .. num_channels - 1] of a
    container whose position array is as long as the channel count. *)
Theorem only_locations_are_set (w : World) (path : string)
    (self : MEArecRecordingExtractor.t) (recgen : RecordingGenerator)
    (c : Z) (name : string) :
  MEArecRecordingExtractor.__init__ w path = Ok self ->
  load_recordings w path = Ok recgen ->
  is_Some (get_property (MEArecRecordingExtractor._channel_properties self) c name) ->
  name = "location"%string /\
  0 <= c < Z.of_nat (MEArecRecordingExtractor.getNumChannels self) /\
  length (channel_positions recgen) = shape0 (recordings recgen).
Proof.
  intros Hinit Hload Hsome.
  apply init_inv in Hinit
    as (recgen' & self0 & _ & Hload' & _ & Hempty & _ & _ & Hn & _ & Hlocs & ->).
  rewrite Hload in Hload'. inversion Hload'; subst recgen'. clear Hload'.
  unfold MEArecRecordingExtractor.getNumChannels,
    MEArecRecordingExtractor.getChannelIds. rewrite range_length.
  destruct (Nat.eqb_spec (length (channel_positions recgen))
              (shape0 (recordings recgen))) as [Heq|Hne];
    rewrite Hlocs in *.
  - apply set_locations_only in Hsome as [-> Hc]; [|done].
    rewrite Hn, <- Heq. done.
  - rewrite Hempty, get_property_empty in Hsome. by destruct Hsome.
Qed.

Lemma only_locations_are_set_witness :
  exists self,
    MEArecRecordingExtractor.__init__ Examples.probe_3x20 "rec.h5" = Ok self /\
    is_Some (get_property (MEArecRecordingExtractor._channel_properties self)
               2 "location") /\
    0 <= 2 < Z.of_nat (MEArecRecordingExtractor.getNumChannels self).
Proof.
  eexists. split; [reflexivity|].
  assert (Hsome : is_Some (get_property
            (MEArecRecordingExtractor._channel_properties
               (fold_left MEArecRecordingExtractor.set_location
                  (enumerate Examples.positions_3)
                  {| MEArecRecordingExtractor._recording_path := "rec.h5";
                     MEArecRecordingExtractor._fs := 30000;
                     MEArecRecordingExtractor._recordings := Examples.traces_3x20;
                     MEArecRecordingExtractor._num_channels := 3;
                     MEArecRecordingExtractor._num_frames := 20;
                     MEArecRecordingExtractor._locations := Some Examples.positions_3;
                     MEArecRecordingExtractor._channel_properties := ∅ |}))
            2 "location")).
  { eexists. reflexivity. }
  split; [exact Hsome|].
  destruct (only_locations_are_set Examples.probe_3x20 "rec.h5" _ _ 2 "location"
              eq_refl eq_refl Hsome) as (_ & Hc & _).
  exact Hc.
Defined.

(** ** Constructing and reading a sorting extractor *)

(** X6.  With the packages installed, an error raised by the loader comes
    out of either constructor unchanged. *)
Theorem loader_failure_propagates (w : World) (path : string) (e : exn) :
  _load_required_modules w = Ok tt ->
  load_recordings w path = Raise e ->
  MEArecRecordingExtractor.__init__ w path = Raise e /\
  MEArecSortingExtractor.__init__ w path = Raise e.
Proof.
  intros Hmod Hload. split.
  - unfold MEArecRecordingExtractor.__init__,
      MEArecRecordingExtractor._initialize. by rewrite Hmod; simpl; rewrite Hload.
  - unfold MEArecSortingExtractor.__init__,
      MEArecSortingExtractor._initialize. by rewrite Hmod; simpl; rewrite Hload.
Qed.

Lemma loader_failure_propagates_witness :
  MEArecRecordingExtractor.__init__ Examples.with_out_dir "gone.h5"
    = Raise IndexError /\
  MEArecSortingExtractor.__init__ Examples.with_out_dir "gone.h5"
    = Raise IndexError.
Proof.
  exact (loader_failure_propagates Examples.with_out_dir "gone.h5" IndexError
           eq_refl eq_refl).
Defined.

(** X7.  A container without spike trains cannot be opened as a sorting:
    construction raises [IndexError] when it inspects the first spike
    train. *)
Theorem sorting_of_empty_collection (w : World) (path : string)
    (recgen : RecordingGenerator) :
  _load_required_modules w = Ok tt ->
  load_recordings w path = Ok recgen ->
  spiketrains recgen = [] ->
  MEArecSortingExtractor.__init__ w path = Raise IndexError.
Proof.
  intros Hmod Hload Hempty.
  unfold MEArecSortingExtractor.__init__, MEArecSortingExtractor._initialize.
  rewrite Hmod. simpl. rewrite Hload. simpl. by rewrite Hempty.
Qed.

Lemma sorting_of_empty_collection_witness :
  MEArecSortingExtractor.__init__ Examples.probe_3x20 "rec.h5" = Raise IndexError.
Proof.
  exact (sorting_of_empty_collection Examples.probe_3x20 "rec.h5" _
           eq_refl eq_refl eq_refl).
Defined.

Lemma getNumUnits_constructed (w : World) (self : MEArecSortingExtractor.t)
    (n : nat) :
  MEArecSortingExtractor._num_units self = Some n ->
  MEArecSortingExtractor.getNumUnits w self = Ok (Some n, self).
Proof.
  intros H. unfold MEArecSortingExtractor.getNumUnits. rewrite H. simpl.
  by rewrite H.
Qed.

(** X8.  On a constructed sorting extractor, in whatever world the accessors
    are called, [getNumUnits] and [getUnitIds] answer from the stored
    attributes and leave the object as it is: the unit count is the number of
    loaded spike trains, it is positive, and there is one identifier per
    spike train. *)
Theorem sorting_accessors (w : World) (path : string)
    (self : MEArecSortingExtractor.t) (recgen : RecordingGenerator) :
  MEArecSortingExtractor.__init__ w path = Ok self ->
  load_recordings w path = Ok recgen ->
  exists ids,
    length ids = length (spiketrains recgen) /\
    (0 < length (spiketrains recgen))%nat /\
    MEArecSortingExtractor._spike_trains self = Some (spiketrains recgen) /\
    forall w',
      MEArecSortingExtractor.getUnitIds w' self = Ok (Some ids, self) /\
      MEArecSortingExtractor.getNumUnits w' self
      = Ok (Some (length (spiketrains recgen)), self).
Proof.
  intros Hinit Hload.
  apply sorting_init_inv in Hinit
    as (recgen' & first & ids & self0 & _ & Hload' & H0 & Hids & _ & _ & Hn
        & Htrains & Huids & _).
  rewrite Hload in Hload'. inversion Hload'; subst recgen'.
  exists ids. split_and!.
  - by eapply length_unit_ids_of.
  - by eapply lookup_lt_Some.
  - done.
  - intros w'. split;
      [by apply getUnitIds_constructed | by apply getNumUnits_constructed].
Qed.

Lemma sorting_accessors_witness :
  exists self,
    MEArecSortingExtractor.__init__ Examples.two_units "x.h5" = Ok self /\
    MEArecSortingExtractor.getNumUnits Examples.without_neo self
    = Ok (Some 2%nat, self).
Proof.
  eexists. split; [reflexivity|].
  destruct (sorting_accessors Examples.two_units "x.h5" _ _ eq_refl eq_refl)
    as (ids & _ & _ & _ & Hacc).
  destruct (Hacc Examples.without_neo) as [_ Hn]. exact Hn.
Defined.

(** X9.  [getUnitSpikeTrain] on a constructed sorting extractor does not load
    again: its outcome is the same in every world, and when it returns it
    hands back the object unchanged. *)
Theorem getUnitSpikeTrain_reads_only (w : World) (path : string)
    (self : MEArecSortingExtractor.t) (unit_id : Z)
    (start_frame end_frame : option Z) :
  MEArecSortingExtractor.__init__ w path = Ok self ->
  (forall w',
     MEArecSortingExtractor.getUnitSpikeTrain w' self unit_id start_frame end_frame
     = MEArecSortingExtractor.getUnitSpikeTrain w self unit_id start_frame end_frame) /\
  (forall inds self',
     MEArecSortingExtractor.getUnitSpikeTrain w self unit_id start_frame end_frame
     = Ok (inds, self') -> self' = self).
Proof.
  intros Hinit.
  apply sorting_init_inv in Hinit
    as (recgen & first & ids & self0 & _ & _ & _ & _ & _ & _ & _
        & Htrains & Huids & Hfs & _).
  split.
  - intros w'.
    by rewrite !(getUnitSpikeTrain_constructed _ self ids (spiketrains recgen)
                   (info_fs recgen)) by done.
  - intros inds self'.
    rewrite (getUnitSpikeTrain_constructed w self ids (spiketrains recgen)
               (info_fs recgen)) by done.
    intros H. apply bind_Ok in H as (k & _ & H).
    apply bind_Ok in H as (st & _ & H). by inversion H.
Qed.

Lemma getUnitSpikeTrain_reads_only_witness :
  exists self,
    MEArecSortingExtractor.__init__ Examples.two_units "x.h5" = Ok self /\
    MEArecSortingExtractor.getUnitSpikeTrain Examples.without_neo self 7 None None
    = MEArecSortingExtractor.getUnitSpikeTrain Examples.two_units self 7 None None.
Proof.
  eexists. split; [reflexivity|].
  destruct (getUnitSpikeTrain_reads_only Examples.two_units "x.h5" _ 7 None None
              eq_refl) as [Hsame _].
  apply Hsame.
Defined.

(** ** Windows over a spike train *)

Lemma filter_all {A} (f : A -> bool) (l : list A) :
  Forall (fun x => f x = true) l -> List.filter f l = l.
Proof. induction 1 as [|x l Hx _ IH]; simpl; [done|]. by rewrite Hx, IH. Qed.

Lemma filter_none {A} (f : A -> bool) (l : list A) :
  Forall (fun x => f x = false) l -> List.filter f l = [].
Proof. induction 1 as [|x l Hx _ IH]; simpl; [done|]. by rewrite Hx. Qed.

Lemma in_window_not_finite (s : Z) (e : option Z) (t : f64) :
  (forall q, t <> Finite q) ->
  MEArecSortingExtractor.in_window s e t = false.
Proof.
  intros Ht. apply not_true_is_false. intros Hw.
  apply in_window_finite in Hw as [q ->]. by apply (Ht q).
Qed.

Lemma in_window_after (a b : Z) (e : option Z) (t t' : f64) :
  MEArecSortingExtractor.in_window b e t = true -> f64_le t t' ->
  MEArecSortingExtractor.in_window a (Some b) t' = false.
Proof.
  intros Ht Hle. apply not_true_is_false. intros Ht'.
  destruct (in_window_finite _ _ _ Ht) as [q ->].
  destruct (in_window_finite _ _ _ Ht') as [q' ->].
  apply in_window_spec in Ht as [Hs _].
  apply in_window_spec in Ht' as [_ He]. specialize (He b eq_refl).
  apply f64_le_Finite in Hle.
  apply (Qlt_irrefl q'). eapply Qlt_le_trans; [exact He|]. by eapply Qle_trans.
Qed.

Lemma in_window_cases (a b c : Z) (t : f64) :
  a <= b <= c ->
  MEArecSortingExtractor.in_window a (Some c) t
  = MEArecSortingExtractor.in_window a (Some b) t
    || MEArecSortingExtractor.in_window b (Some c) t.
Proof.
  intros [Hab Hbc].
  destruct t as [q| | |]; [|by rewrite !in_window_not_finite..].
  apply round_int_mono in Hab, Hbc. rewrite Zle_Qle in Hab, Hbc.
  destruct (MEArecSortingExtractor.in_window a (Some b) (Finite q)) eqn:Hfirst; simpl.
  - apply in_window_spec in Hfirst as [Hs He]. specialize (He b eq_refl).
    apply in_window_spec. split; [done|]. intros e [= <-].
    by eapply Qlt_le_trans.
  - destruct (MEArecSortingExtractor.in_window b (Some c) (Finite q)) eqn:Hsecond.
    + apply in_window_spec in Hsecond as [Hs He].
      apply in_window_spec. split; [by eapply Qle_trans | done].
    + apply not_true_is_false. intros Hw.
      apply in_window_spec in Hw as [Hs He]. specialize (He c eq_refl).
      destruct (Qlt_le_dec q (inject_Z (round_int b))) as [Hlt|Hge].
      * apply not_true_iff_false in Hfirst. apply Hfirst.
        apply in_window_spec. split; [done|]. by intros e [= <-].
      * apply not_true_iff_false in Hsecond. apply Hsecond.
        apply in_window_spec. split; [done|]. by intros e [= <-].
Qed.

Lemma in_window_disjoint (a b c : Z) (t : f64) :
  MEArecSortingExtractor.in_window a (Some b) t = true ->
  MEArecSortingExtractor.in_window b (Some c) t = false.
Proof.
  intros Hfirst. destruct (in_window_finite _ _ _ Hfirst) as [q ->].
  apply in_window_spec in Hfirst as [_ He].
  specialize (He b eq_refl). apply not_true_is_false. intros Hw.
  apply in_window_spec in Hw as [Hs _]. by apply Qle_not_lt in Hs.
Qed.

Lemma filter_window_split (a b c : Z) (l : list f64) :
  a <= b <= c ->
  List.filter (MEArecSortingExtractor.in_window a (Some c)) l
  ≡ₚ List.filter (MEArecSortingExtractor.in_window a (Some b)) l
     ++ List.filter (MEArecSortingExtractor.in_window b (Some c)) l.
Proof.
  intros Habc. induction l as [|t l IH]; simpl; [done|].
  rewrite (in_window_cases a b c t Habc).
  destruct (MEArecSortingExtractor.in_window a (Some b) t) eqn:Hfirst; simpl.
  - rewrite (in_window_disjoint a b c t Hfirst). by rewrite IH.
  - destruct (MEArecSortingExtractor.in_window b (Some c) t); simpl; [|done].
    rewrite IH. apply Permutation_middle.
Qed.

Lemma filter_window_split_sorted (a b c : Z) (fs : Q) (l : list f64) :
  a <= b <= c -> StronglySorted f64_le l -> (0 <= fs)%Q ->
  List.filter (MEArecSortingExtractor.in_window a (Some c))
    ((fun t => fmul t fs) <$> l)
  = List.filter (MEArecSortingExtractor.in_window a (Some b))
      ((fun t => fmul t fs) <$> l)
    ++ List.filter (MEArecSortingExtractor.in_window b (Some c))
         ((fun t => fmul t fs) <$> l).
Proof.
  intros Habc Hsorted Hfs.
  induction Hsorted as [|x l Hsorted IH Hall]; [done|].
  rewrite !fmap_cons. cbn [List.filter].
  rewrite (in_window_cases a b c _ Habc).
  destruct (MEArecSortingExtractor.in_window a (Some b) (fmul x fs)) eqn:Hfirst;
    cbn [orb].
  - rewrite (in_window_disjoint a b c _ Hfirst). by rewrite IH.
  - destruct (MEArecSortingExtractor.in_window b (Some c) (fmul x fs)) eqn:Hsecond;
      [|done].
    assert (Hnone : List.filter (MEArecSortingExtractor.in_window a (Some b))
                      ((fun t => fmul t fs) <$> l) = []).
    { apply filter_none, Forall_fmap. eapply Forall_impl; [exact Hall|].
      intros y Hxy. simpl.
      destruct (MEArecSortingExtractor.in_window a (Some b) (fmul y fs)) eqn:Hy;
        [exfalso | done].
      destruct (in_window_finite _ _ _ Hsecond) as [q Hq].
      destruct (in_window_finite _ _ _ Hy) as [q' Hq'].
      assert (Hle : f64_le (fmul x fs) (fmul y fs)).
      { apply fmul_mono; [done | done | by rewrite Hq | by rewrite Hq']. }
      pose proof (in_window_after a b (Some c) _ _ Hsecond Hle). congruence. }
    rewrite Hnone in *. simpl in *. by rewrite IH.
Qed.

(** X10.  Adjacent windows partition the spikes of a unit: for
    [a <= b <= c] the indices returned for [a, b) together with those for
    [b, c) are, up to order, the indices returned for [a, c), so no spike is
    lost or counted twice at the boundary; when the stored times are ascending
    and the rate is not negative the two results simply concatenate. *)
Theorem adjacent_windows (w : World) (path : string)
    (self : MEArecSortingExtractor.t) (ids : list Z) (unit_id : Z) (a b c : Z) :
  MEArecSortingExtractor.__init__ w path = Ok self ->
  MEArecSortingExtractor._unit_ids self = Some ids ->
  unit_id ∈ ids -> a <= b <= c ->
  exists k st fs left right whole,
    list_index unit_id ids = Ok k /\
    MEArecSortingExtractor._spike_trains self ≫= (fun sts => sts !! k) = Some st /\
    MEArecSortingExtractor._fs self = Some fs /\
    MEArecSortingExtractor.getUnitSpikeTrain w self unit_id (Some a) (Some b)
    = Ok (left, self) /\
    MEArecSortingExtractor.getUnitSpikeTrain w self unit_id (Some b) (Some c)
    = Ok (right, self) /\
    MEArecSortingExtractor.getUnitSpikeTrain w self unit_id (Some a) (Some c)
    = Ok (whole, self) /\
    whole ≡ₚ left ++ right /\
    (StronglySorted f64_le (times st) -> (0 <= fs)%Q -> whole = left ++ right).
Proof.
  intros Hinit Hids Hin Habc.
  destruct (constructed_lookup w path self ids unit_id Hinit Hids Hin)
    as (k & st & trains & fs & Hk & Htrains & Hfs & Hst).
  eexists k, st, fs, _, _, _.
  rewrite !(getUnitSpikeTrain_constructed w self ids trains fs) by done.
  rewrite Hk. simpl. unfold list_getitem. rewrite Hst. simpl.
  split_and!; [done | by rewrite Htrains | done | done | done | done | | ].
  - rewrite <- !fmap_app. do 2 apply fmap_Permutation. by apply filter_window_split.
  - intros Hsorted Hrate. rewrite <- !fmap_app. do 2 f_equal.
    by apply filter_window_split_sorted.
Qed.

Lemma adjacent_windows_witness :
  exists self left right whole,
    MEArecSortingExtractor.__init__ Examples.two_units "x.h5" = Ok self /\
    MEArecSortingExtractor.getUnitSpikeTrain Examples.two_units self 7
      (Some 0) (Some 600) = Ok (left, self) /\
    MEArecSortingExtractor.getUnitSpikeTrain Examples.two_units self 7
      (Some 600) (Some 900) = Ok (right, self) /\
    MEArecSortingExtractor.getUnitSpikeTrain Examples.two_units self 7
      (Some 0) (Some 900) = Ok (whole, self) /\
    whole ≡ₚ left ++ right.
Proof.
  eexists.
  destruct (adjacent_windows Examples.two_units "x.h5" _ [7; 3] 7 0 600 900
              eq_refl eq_refl)
    as (k & st & fs & left & right & whole & _ & _ & _ & Hl & Hr & Hw & Hperm & _).
  - apply elem_of_cons. by left.
  - lia.
  - exists left, right, whole. split; [reflexivity|]. by split_and!.
Defined.

Lemma round64_0 : round64 0 = Finite 0.
Proof. reflexivity. Qed.

Lemma fmul_nonneg (q fs : Q) :
  (0 <= q)%Q -> (0 <= fs)%Q ->
  fmul (Finite q) fs = PInf \/ exists r, fmul (Finite q) fs = Finite r /\ (0 <= r)%Q.
Proof.
  intros Hq Hfs. simpl.
  pose proof (round64_mono 0 (q * fs) (Qmult_le_0_compat _ _ Hq Hfs)) as H.
  rewrite round64_0 in H. unfold f64_le in H.
  destruct (round64 (q * fs)) as [r| | |]; try discriminate; [right | by left].
  exists r. split; [done|]. by apply f64_le_Finite.
Qed.

(** X11.  With both frame arguments omitted, [getUnitSpikeTrain] keeps the
    products that are finite and not negative, in stored order; the indices
    are not negative when the rounded products are [int64]s; on a spike train
    with finite non-negative times and a non-negative rate, whose products
    stay finite, it returns one index per stored spike. *)
Theorem default_window (w : World) (path : string)
    (self : MEArecSortingExtractor.t) (ids : list Z) (unit_id : Z) :
  MEArecSortingExtractor.__init__ w path = Ok self ->
  MEArecSortingExtractor._unit_ids self = Some ids ->
  unit_id ∈ ids ->
  exists k st fs kept inds,
    list_index unit_id ids = Ok k /\
    MEArecSortingExtractor._spike_trains self ≫= (fun sts => sts !! k) = Some st /\
    MEArecSortingExtractor._fs self = Some fs /\
    MEArecSortingExtractor.getUnitSpikeTrain w self unit_id None None
    = Ok (inds, self) /\
    kept = List.filter (MEArecSortingExtractor.in_window 0 None)
             ((fun t => fmul t fs) <$> times st) /\
    inds = astype_int <$> (f64_rint <$> kept) /\
    (forall t, MEArecSortingExtractor.in_window 0 None t = true <->
               exists q, t = Finite q /\ (0 <= q)%Q) /\
    (Forall fits_int64 kept -> Forall (fun i => 0 <= i) inds) /\
    (Forall (fun t => exists q, t = Finite q /\ (0 <= q)%Q) (times st) ->
     (0 <= fs)%Q ->
     Forall (fun t => exists q, t = Finite q) ((fun t => fmul t fs) <$> times st) ->
     kept = (fun t => fmul t fs) <$> times st /\
     length inds = length (times st)).
Proof.
  intros Hinit Hids Hin.
  destruct (constructed_lookup w path self ids unit_id Hinit Hids Hin)
    as (k & st & trains & fs & Hk & Htrains & Hfs & Hst).
  eexists k, st, fs, _, _.
  rewrite (getUnitSpikeTrain_constructed w self ids trains fs) by done.
  rewrite Hk. simpl. unfold list_getitem. rewrite Hst. simpl.
  assert (Hwin : forall t, MEArecSortingExtractor.in_window 0 None t = true <->
                           exists q, t = Finite q /\ (0 <= q)%Q).
  { intros t. split.
    - intros Ht. destruct (in_window_finite _ _ _ Ht) as [q ->].
      exists q. split; [done|]. by apply in_window_spec in Ht as [Ht _].
    - intros (q & -> & Hq). apply in_window_spec. split; [done|]. by intros e [=]. }
  split_and!; [done | by rewrite Htrains | done | done | reflexivity | reflexivity
               | done | | ].
  - intros Hfits. rewrite <- list_fmap_compose. apply Forall_fmap.
    apply Forall_forall. intros t Ht. rewrite Forall_forall in Hfits.
    destruct (Hfits t Ht) as (q & -> & Hq).
    apply list_elem_of_In, filter_In in Ht as [_ Ht].
    apply Hwin in Ht as (q' & [= <-] & Hq').
    cbn [compose]. rewrite astype_int_rint by done.
    by apply (rint_ge 0).
  - intros Htimes Hrate Hfinite. rewrite filter_all.
    + split; [done|]. by rewrite !length_fmap.
    + rewrite Forall_fmap in Hfinite |- *.
      rewrite Forall_forall in Htimes, Hfinite. apply Forall_forall.
      intros t Ht. destruct (Htimes t Ht) as (q & -> & Hq).
      destruct (Hfinite _ Ht) as [r Hr]. cbn [compose] in *.
      apply Hwin.
      destruct (fmul_nonneg q fs Hq Hrate) as [Hinf|(r' & Hr' & Hpos)];
        [congruence|]. by exists r'.
Qed.

Lemma default_window_witness :
  exists self inds,
    MEArecSortingExtractor.__init__ Examples.two_units "x.h5" = Ok self /\
    MEArecSortingExtractor.getUnitSpikeTrain Examples.two_units self 3 None None
    = Ok (inds, self) /\
    Forall (fun i => 0 <= i) inds.
Proof.
  eexists.
  destruct (default_window Examples.two_units "x.h5" _ [7; 3] 3 eq_refl eq_refl)
    as (k & st & fs & kept & inds & Hk & Hst & Hfs & Hget & Hkept & _ & _ & Hpos & _).
  - apply elem_of_cons. right. apply elem_of_cons. by left.
  - exists inds. split; [reflexivity|]. split; [exact Hget|].
    apply Hpos. vm_compute in Hk. inversion Hk; subst k.
    vm_compute in Hfs. inversion Hfs; subst fs.
    simpl in Hst. inversion Hst; subst st. rewrite Hkept.
    repeat constructor; eexists; (split; [reflexivity|]);
      vm_compute; split; congruence.
Defined.

Lemma elem_of_range (n : nat) (z : Z) : z ∈ range n <-> 0 <= z < Z.of_nat n.
Proof.
  unfold range. rewrite list_elem_of_fmap. split.
  - intros (k & -> & Hk). apply elem_of_seq in Hk. lia.
  - intros Hz. exists (Z.to_nat z). split; [lia|]. apply elem_of_seq. lia.
Qed.

Lemma list_index_range (n k : nat) :
  (k < n)%nat -> list_index (Z.of_nat k) (range n) = Ok k.
Proof.
  intros Hk. apply list_index_Ok. split; [by apply range_lookup|].
  intros j Hj. rewrite range_lookup by lia. intros [= Heq]. lia.
Qed.

(** X12.  When the first spike train has no [unit_id] annotation the units
    are numbered by position: [getUnitSpikeTrain(k)] reads the [k]-th stored
    spike train for [0 <= k < N], and any other identifier raises
    [ValueError]. *)
Theorem positional_units (w : World) (path : string)
    (self : MEArecSortingExtractor.t) (recgen : RecordingGenerator)
    (first : SpikeTrain) (start_frame end_frame : option Z) :
  MEArecSortingExtractor.__init__ w path = Ok self ->
  load_recordings w path = Ok recgen ->
  spiketrains recgen !! 0%nat = Some first ->
  annotations first !! "unit_id" = None ->
  (forall k st, spiketrains recgen !! k = Some st ->
     MEArecSortingExtractor.getUnitSpikeTrain w self (Z.of_nat k)
       start_frame end_frame
     = Ok (astype_int <$>
             (f64_rint <$>
                List.filter
                  (MEArecSortingExtractor.in_window (default 0 start_frame) end_frame)
                  ((fun t => fmul t (info_fs recgen)) <$> times st)),
           self)) /\
  (forall u, ~ 0 <= u < Z.of_nat (length (spiketrains recgen)) ->
     MEArecSortingExtractor.getUnitSpikeTrain w self u start_frame end_frame
     = Raise ValueError).
Proof.
  intros Hinit Hload H0 Hnone.
  apply sorting_init_inv in Hinit
    as (recgen' & first' & ids & self0 & _ & Hload' & H0' & Hids & _ & _ & _
        & Htrains & Huids & Hfs & _).
  rewrite Hload in Hload'. inversion Hload'; subst recgen'.
  rewrite H0 in H0'. inversion H0'; subst first'.
  unfold MEArecSortingExtractor.unit_ids_of in Hids.
  apply contains_false in Hnone. rewrite Hnone in Hids.
  inversion Hids; subst ids. clear Hids.
  split.
  - intros k st Hst.
    rewrite (getUnitSpikeTrain_constructed w self _ _ _ _ _ _ Huids Htrains Hfs).
    rewrite list_index_range by (by eapply lookup_lt_Some). simpl.
    unfold list_getitem. by rewrite Hst.
  - intros u Hu.
    rewrite (getUnitSpikeTrain_constructed w self _ _ _ _ _ _ Huids Htrains Hfs).
    rewrite list_index_absent; [done|]. by rewrite elem_of_range.
Qed.

Lemma positional_units_witness :
  exists self,
    MEArecSortingExtractor.__init__ Examples.two_plain_units "x.h5" = Ok self /\
    MEArecSortingExtractor.getUnitSpikeTrain Examples.two_plain_units self 1
      None None = Ok ([117], self) /\
    MEArecSortingExtractor.getUnitSpikeTrain Examples.two_plain_units self 2
      None None = Raise ValueError.
Proof.
  eexists. split; [reflexivity|].
  destruct (positional_units Examples.two_plain_units "x.h5" _ _ _ None None
              eq_refl eq_refl eq_refl eq_refl) as [Hpos Hout].
  split.
  - etrans; [exact (Hpos 1%nat _ eq_refl) | reflexivity].
  - apply Hout. simpl. lia.
Defined.

(** ** Exporting a sorting *)












Lemma build_spiketrain_inv {S : Type} `{spikeextractors.SortingExtractor S}
    (sorting : S) (fs : Q) (u : Z) (st : SpikeTrain) :
  MEArecSortingExtractor.build_spiketrain sorting fs u = Ok st ->
  exists a,
    spikeextractors.getUnitSpikeTrain sorting u = Ok a /\ a <> [] /\
    times st = MEArecSortingExtractor.to_seconds fs a /\
    annotations st = {[ "unit_id"%string := PInt u ]}.
Proof.
  unfold MEArecSortingExtractor.build_spiketrain. intros Hst.
  destruct (spikeextractors.getUnitSpikeTrain sorting u) as [a|] eqn:Ha;
    simpl in Hst; [|discriminate].
  destruct a as [|i a]; [discriminate|]. simpl in Hst.
  inversion Hst; subst st. exists (i :: a). by split_and!.
Qed.

Lemma writeSorting_Ok_inv {S : Type} `{spikeextractors.SortingExtractor S}
    (w : World) (sorting : S) (save_path : string) (fs : Q) (call : SaveCall) :
  (MEArecSortingExtractor.writeSorting w sorting save_path fs).2 = Ok call ->
  exists ids sts,
    _load_required_modules w = Ok tt /\
    has_h5_suffix (resolve_save_path w save_path "sorting.h5" sorting_notice).2
      = true /\
    spikeextractors.getUnitIds sorting = Ok ids /\
    mapM (MEArecSortingExtractor.build_spiketrain sorting fs) ids = Ok sts /\
    call = {| saved_generator :=
                {| arg_fs := fs;
                   arg_recordings := None;
                   arg_channel_positions := None;
                   arg_spiketrains := Some sts |};
              saved_path :=
                Path_str (resolve_save_path w save_path "sorting.h5"
                            sorting_notice).2 |}.
Proof.
  unfold MEArecSortingExtractor.writeSorting.
  destruct (_load_required_modules w) as [[]|]; simpl; [|discriminate].
  destruct (resolve_save_path _ _ _ _) as [out p]. simpl.
  destruct (has_h5_suffix p); [|discriminate].
  intros H1. apply bind_Ok in H1 as (ids & Hids & H1).
  apply bind_Ok in H1 as (sts & Hsts & H1). inversion H1.
  by exists ids, sts.
Qed.



(** ** Reading back what was exported *)

Lemma reload_sample (fs : Q) (i : Z) :
  (pow2 (-970) <= fs <= pow2 1022)%Q -> 0 <= i <= 2 ^ 50 ->
  exists p, fmul (fdiv (inject_Z (round_int i)) fs) fs = Finite p /\
            (0 <= p)%Q /\ rint p = i.
Proof.
  intros [Hf1 Hf2] Hi. rewrite round_int_exact by lia.
  assert (Hfs : (0 < fs)%Q).
  { eapply Qlt_le_trans; [apply (pow2_pos (-970)) | done]. }
  assert (Hfs0 : ~ (fs == 0)%Q).
  { intros H0. rewrite H0 in Hfs. by apply Qlt_irrefl in Hfs. }
  assert (Hcmp : Qcompare fs 0 = Gt) by (by apply Qgt_alt).
  unfold fdiv. rewrite Hcmp.
  destruct (decide (i = 0)) as [->|Hne].
  - exists 0%Q. split; [|by split].
    assert (H0 : round64 (inject_Z 0 / fs) = Finite 0).
    { unfold round64. by change (Qnum (inject_Z 0 / fs)) with 0. }
    rewrite H0. unfold fmul, round64. by change (Qnum (0 * fs)) with 0.
  - set (x := (inject_Z i / fs)%Q).
    assert (Hi1 : (1 <= inject_Z i)%Q) by (rewrite <- (Zle_Qle 1); lia).
    assert (Hi2 : (inject_Z i <= 1125899906842624)%Q).
    { change 1125899906842624%Q with (inject_Z (2 ^ 50)). rewrite <- Zle_Qle. lia. }
    assert (Hx : (x * fs == inject_Z i)%Q) by (unfold x; by field).
    assert (Hxlo : (pow2 (-1022) <= x)%Q).
    { apply Qle_shift_div_l; [done|].
      apply (Qle_trans _ (pow2 (-1022) * pow2 1022)).
      - apply Qmult_le_l; [apply pow2_pos | done].
      - rewrite <- pow2_plus. exact Hi1. }
    assert (Hxhi : (x < pow2 1023)%Q).
    { apply Qlt_shift_div_r; [done|].
      apply (Qlt_le_trans _ (pow2 1023 * pow2 (-970))).
      - rewrite <- pow2_plus. eapply Qle_lt_trans; [exact Hi2 | reflexivity].
      - apply Qmult_le_l; [apply pow2_pos | done]. }
    destruct (round64_normal x Hxlo Hxhi) as (r & Hr & Hr1 & Hr2).
    rewrite Hr. unfold fmul.
    apply (Qmult_le_compat_r _ _ fs) in Hr1; [|by apply Qlt_le_weak].
    apply (Qmult_le_compat_r _ _ fs) in Hr2; [|by apply Qlt_le_weak].
    assert (Hu : (pow2 (-53) == 1 # 9007199254740992)%Q) by reflexivity.
    assert (E1 : (x * (1 - pow2 (-53)) * fs
                  == inject_Z i * (1 - (1 # 9007199254740992)))%Q).
    { rewrite <- Hx, Hu. ring. }
    assert (E2 : (x * (1 + pow2 (-53)) * fs
                  == inject_Z i * (1 + (1 # 9007199254740992)))%Q).
    { rewrite <- Hx, Hu. ring. }
    rewrite E1 in Hr1. rewrite E2 in Hr2.
    destruct (round64_exact (4 * i + -1) (-2)) as (a & Ha & Haq); [lia | lia |].
    destruct (round64_exact (4 * i + 1) (-2)) as (b & Hb & Hbq); [lia | lia |].
    rewrite inject_Z_quarter in Haq, Hbq.
    change (inject_Z (-1)) with (- (1))%Q in Haq. change (inject_Z 1) with 1%Q in Hbq.
    assert (Hlo : (inject_Z (4 * i + -1) * pow2 (-2) <= r * fs)%Q).
    { rewrite inject_Z_quarter. change (inject_Z (-1)) with (- (1))%Q. lra. }
    assert (Hhi : (r * fs <= inject_Z (4 * i + 1) * pow2 (-2))%Q).
    { rewrite inject_Z_quarter. change (inject_Z 1) with 1%Q. lra. }
    apply round64_mono in Hlo, Hhi. rewrite Ha in Hlo. rewrite Hb in Hhi.
    destruct (round64 (r * fs)) as [p| | |]; try done.
    apply f64_le_Finite in Hlo, Hhi.
    exists p. split; [done|]. split; [lra|]. apply rint_within. lra.
Qed.

Lemma reload_samples (fs : Q) (a : list Z) :
  (pow2 (-970) <= fs <= pow2 1022)%Q ->
  Forall (fun i => 0 <= i <= 2 ^ 50) a ->
  astype_int <$>
    (f64_rint <$>
       List.filter (MEArecSortingExtractor.in_window 0 None)
         ((fun t => fmul t fs) <$> MEArecSortingExtractor.to_seconds fs a))
  = a.
Proof.
  intros Hfs. unfold MEArecSortingExtractor.to_seconds.
  induction 1 as [|i a Hi _ IH]; [done|].
  rewrite !fmap_cons. cbn [List.filter].
  destruct (reload_sample fs i Hfs Hi) as (p & Hp & Hpos & Hrint).
  rewrite Hp.
  assert (Hw : MEArecSortingExtractor.in_window 0 None (Finite p) = true).
  { apply in_window_spec. split; [done|]. by intros e [=]. }
  rewrite Hw, !fmap_cons, IH. f_equal.
  rewrite astype_int_rint; [done|]. rewrite Hrint. unfold int64_min. lia.
Qed.

(** X15.  Export and reload agree.  Let [writeSorting] reach the save call
    for a source with at least one unit and a sampling frequency between
    [2^-970] and [2^1022], and let the loader return the saved spike trains
    and frequency.  Then the sorting extractor constructed from them has the
    source's unit list, and for each unit whose samples lie between 0 and
    [2^50], [getUnitSpikeTrain] with the default window returns the source's
    samples, in the source's order: the two binary64 roundings, of the
    quotient on export and of the product on reading, cancel. *)
Theorem sorting_round_trip {S : Type} `{spikeextractors.SortingExtractor S}
    (w w' : World) (sorting : S) (save_path path' : string) (fs : Q)
    (call : SaveCall) (recgen : RecordingGenerator) (ids : list Z) :
  (MEArecSortingExtractor.writeSorting w sorting save_path fs).2 = Ok call ->
  spikeextractors.getUnitIds sorting = Ok ids ->
  ids <> [] -> (pow2 (-970) <= fs <= pow2 1022)%Q ->
  _load_required_modules w' = Ok tt ->
  load_recordings w' path' = Ok recgen ->
  Some (spiketrains recgen) = arg_spiketrains (saved_generator call) ->
  info_fs recgen = arg_fs (saved_generator call) ->
  exists self,
    MEArecSortingExtractor.__init__ w' path' = Ok self /\
    MEArecSortingExtractor.getUnitIds w' self = Ok (Some ids, self) /\
    forall u a,
      u ∈ ids -> spikeextractors.getUnitSpikeTrain sorting u = Ok a ->
      Forall (fun i => 0 <= i <= 2 ^ 50) a ->
      MEArecSortingExtractor.getUnitSpikeTrain w' self u None None
      = Ok (a, self).
Proof.
  intros Hcall Hids Hne Hfs Hmod Hload Hsts Hrate.
  apply writeSorting_Ok_inv in Hcall
    as (ids' & sts & _ & _ & Hids' & Hbuild & ->).
  rewrite Hids in Hids'. inversion Hids'; subst ids'. clear Hids'.
  simpl in Hsts, Hrate. inversion Hsts as [Hsts'].
  apply mapM_Forall2 in Hbuild.
  assert (Hann : Forall2 (fun st u => MEArecSortingExtractor.annotated_unit_id st = Ok u)
                   sts ids).
  { apply Forall2_flip. eapply Forall2_impl; [exact Hbuild|].
    intros u st Hst. apply build_spiketrain_inv in Hst as (a & _ & _ & _ & Hann).
    apply annotated_unit_id_Ok. exists (PInt u). split; [|done].
    rewrite Hann. apply lookup_singleton_eq. }
  destruct ids as [|u0 ids0]; [done|].
  destruct sts as [|first sts0]; [inversion Hbuild|].
  pose proof Hbuild as Hbuild'. apply Forall2_cons in Hbuild' as [Hfirst _].
  apply build_spiketrain_inv in Hfirst as (a0 & _ & _ & _ & Hann0).
  assert (Hinit : MEArecSortingExtractor.__init__ w' path'
            = Ok {| MEArecSortingExtractor._recording_path := path';
                    MEArecSortingExtractor._num_units := Some (length (first :: sts0));
                    MEArecSortingExtractor._spike_trains := Some (first :: sts0);
                    MEArecSortingExtractor._unit_ids := Some (u0 :: ids0);
                    MEArecSortingExtractor._fs := Some fs;
                    MEArecSortingExtractor._unit_properties := ∅ |}).
  { unfold MEArecSortingExtractor.__init__, MEArecSortingExtractor._initialize.
    rewrite Hmod. simpl. rewrite Hload. simpl. rewrite Hsts'. simpl.
    assert (Hc1 : contains (annotations first) "unit_id" = true).
    { apply contains_true. rewrite Hann0, lookup_singleton_eq. eauto. }
    assert (Hc2 : contains (annotations first) "soma_position" = false).
    { apply contains_false. rewrite Hann0. by apply lookup_singleton_ne. }
    rewrite Hc1. apply mapM_Forall2 in Hann. simpl in Hann. rewrite Hann.
    simpl. rewrite Hc2. by rewrite Hrate. }
  eexists. split; [exact Hinit|]. split; [by apply getUnitIds_constructed|].
  intros u a Hin Ha Hrange.
  rewrite (getUnitSpikeTrain_constructed w' _ (u0 :: ids0) (first :: sts0) fs)
    by done.
  destruct (list_index_present _ _ Hin) as [k Hk]. rewrite Hk. simpl.
  apply list_index_Ok in Hk as [Hk _].
  destruct (Forall2_lookup_l _ _ _ _ _ Hbuild Hk) as (st & Hst & Hbuilt).
  unfold list_getitem. rewrite Hst. simpl.
  apply build_spiketrain_inv in Hbuilt as (a' & Ha' & _ & Htimes & _).
  rewrite Ha in Ha'. inversion Ha'; subst a'.
  by rewrite Htimes, reload_samples.
Qed.

Lemma sorting_round_trip_witness :
  exists self,
    MEArecSortingExtractor.__init__ Examples.reloaded "out/sorting.h5" = Ok self /\
    MEArecSortingExtractor.getUnitIds Examples.reloaded self = Ok (Some [7; 3], self) /\
    MEArecSortingExtractor.getUnitSpikeTrain Examples.reloaded self 7
      None None = Ok ([30; 60; 90], self).
Proof.
  assert (Hcall : exists call,
            (MEArecSortingExtractor.writeSorting Examples.with_out_dir
               Examples.sorting_2 "out" 30000).2 = Ok call /\
            arg_spiketrains (saved_generator call) = Some Examples.exported_trains /\
            arg_fs (saved_generator call) = 30000%Q)
    by (eexists; split_and!; reflexivity).
  destruct Hcall as (call & Hcall & Hsts & Hfs).
  assert (Hids : spikeextractors.getUnitIds Examples.sorting_2 = Ok [7; 3])
    by reflexivity.
  assert (Hrate : (pow2 (-970) <= 30000 <= pow2 1022)%Q).
  { split; intros Hgt; vm_compute in Hgt; discriminate Hgt. }
  destruct (sorting_round_trip Examples.with_out_dir Examples.reloaded
              Examples.sorting_2 "out" "out/sorting.h5" 30000 call _ [7; 3]
              Hcall Hids ltac:(discriminate) Hrate eq_refl eq_refl)
    as (self & Hinit & Huids & Hget).
  - by rewrite Hsts.
  - by rewrite Hfs.
  - exists self. split_and!; [exact Hinit | exact Huids |].
    assert (Ha : spikeextractors.getUnitSpikeTrain Examples.sorting_2 7
                 = Ok [30; 60; 90]) by reflexivity.
    apply (Hget 7 [30; 60; 90]); [|exact Ha|].
    + apply elem_of_cons. by left.
    + repeat constructor; lia.
Defined.

(** X16.  A source without units exports an empty list of spike trains; a
    sorting extractor cannot be constructed from a container holding that
    list, since construction inspects the first spike train. *)
Theorem empty_sorting_export {S : Type} `{spikeextractors.SortingExtractor S}
    (w : World) (sorting : S) (save_path : string) (fs : Q) :
  _load_required_modules w = Ok tt ->
  has_h5_suffix (resolve_save_path w save_path "sorting.h5" sorting_notice).2
    = true ->
  spikeextractors.getUnitIds sorting = Ok [] ->
  exists call,
    (MEArecSortingExtractor.writeSorting w sorting save_path fs).2 = Ok call /\
    arg_spiketrains (saved_generator call) = Some [] /\
    forall w' path' recgen,
      _load_required_modules w' = Ok tt ->
      load_recordings w' path' = Ok recgen ->
      Some (spiketrains recgen) = arg_spiketrains (saved_generator call) ->
      MEArecSortingExtractor.__init__ w' path' = Raise IndexError.
Proof.
  intros Hmod Hsuffix Hids. unfold MEArecSortingExtractor.writeSorting.
  rewrite Hmod. destruct (resolve_save_path _ _ _ _) as [out p]. simpl in *.
  rewrite Hsuffix, Hids. simpl. eexists. split; [reflexivity|]. simpl.
  split; [done|]. intros w' path' recgen Hmod' Hload [= Hsts].
  unfold MEArecSortingExtractor.__init__, MEArecSortingExtractor._initialize.
  rewrite Hmod'. simpl. rewrite Hload. simpl. by rewrite Hsts.
Qed.

Lemma empty_sorting_export_witness :
  exists call,
    (MEArecSortingExtractor.writeSorting Examples.with_out_dir
       Examples.empty_sorting "out" 30000).2 = Ok call /\
    arg_spiketrains (saved_generator call) = Some [] /\
    MEArecSortingExtractor.__init__ (Examples.sorting_world 30000 []) "out/sorting.h5"
    = Raise IndexError.
Proof.
  assert (Hids : spikeextractors.getUnitIds Examples.empty_sorting = Ok [])
    by reflexivity.
  destruct (empty_sorting_export Examples.with_out_dir Examples.empty_sorting
              "out" 30000 eq_refl eq_refl Hids) as (call & Hcall & Hsts & Hload).
  exists call. split_and!; [exact Hcall | exact Hsts |].
  apply (Hload (Examples.sorting_world 30000 []) "out/sorting.h5" _ eq_refl eq_refl).
  by rewrite Hsts.
Defined.

(** ** Exporting a recording *)

Lemma writeRecording_Ok_inv {R : Type} `{spikeextractors.RecordingExtractor R}
    (w : World) (recording : R) (save_path : string) (call : SaveCall) :
  (MEArecRecordingExtractor.writeRecording w recording save_path).2 = Ok call ->
  exists traces positions,
    _load_required_modules w = Ok tt /\
    has_h5_suffix (resolve_save_path w save_path "recording.h5" recording_notice).2
      = true /\
    spikeextractors.getTraces recording = Ok traces /\
    MEArecRecordingExtractor.export_positions recording = Ok positions /\
    call = {| saved_generator :=
                {| arg_fs := spikeextractors.getSamplingFrequency recording;
                   arg_recordings := Some traces;
                   arg_channel_positions := positions;
                   arg_spiketrains := None |};
              saved_path :=
                Path_str (resolve_save_path w save_path "recording.h5"
                            recording_notice).2 |}.
Proof.
  unfold MEArecRecordingExtractor.writeRecording.
  destruct (_load_required_modules w) as [[]|]; simpl; [|discriminate].
  destruct (resolve_save_path _ _ _ _) as [out p]. simpl.
  destruct (has_h5_suffix p); [|discriminate].
  intros H1. apply bind_Ok in H1 as (traces & Htraces & H1).
  apply bind_Ok in H1 as (positions & Hpos & H1). inversion H1.
  by exists traces, positions.
Qed.

(** X17.  What [writeRecording] hands to the save routine: the source's
    sampling frequency, the matrix its [getTraces()] returns, no spike
    trains, and channel positions exactly when the source lists a [location]
    channel property, in which case there is one position per channel id, each
    the [location] property of that channel, in the order of the id list. *)
Theorem exported_recording {R : Type} `{spikeextractors.RecordingExtractor R}
    (w : World) (recording : R) (save_path : string) (call : SaveCall) :
  (MEArecRecordingExtractor.writeRecording w recording save_path).2 = Ok call ->
  arg_fs (saved_generator call) = spikeextractors.getSamplingFrequency recording /\
  (exists traces,
     spikeextractors.getTraces recording = Ok traces /\
     arg_recordings (saved_generator call) = Some traces) /\
  arg_spiketrains (saved_generator call) = None /\
  ("location"%string ∉ spikeextractors.getChannelPropertyNames recording ->
   arg_channel_positions (saved_generator call) = None) /\
  ("location"%string ∈ spikeextractors.getChannelPropertyNames recording ->
   exists positions,
     arg_channel_positions (saved_generator call) = Some positions /\
     Forall2 (fun chan pos =>
                spikeextractors.getChannelProperty recording chan "location" = Ok pos)
             (spikeextractors.getChannelIds recording) positions).
Proof.
  intros Hcall.
  apply writeRecording_Ok_inv in Hcall
    as (traces & positions & _ & _ & Htraces & Hpos & ->). simpl.
  unfold MEArecRecordingExtractor.export_positions in Hpos.
  split_and!; [done | by exists traces | done | |].
  - intros Hnotin. rewrite bool_decide_eq_false_2 in Hpos by done.
    by inversion Hpos.
  - intros Hin. rewrite bool_decide_eq_true_2 in Hpos by done.
    destruct (mapM _ _) as [ps|] eqn:Hps; simpl in Hpos; [|discriminate].
    inversion Hpos; subst positions. exists ps. split; [done|].
    by apply mapM_Forall2.
Qed.

Lemma exported_recording_witness :
  exists call,
    (MEArecRecordingExtractor.writeRecording Examples.with_out_dir
       Examples.recording_3x20 "out").2 = Ok call /\
    arg_recordings (saved_generator call) = Some Examples.traces_3x20 /\
    exists positions,
      arg_channel_positions (saved_generator call) = Some positions /\
      length positions = 3%nat.
Proof.
  assert (Hcall : exists call,
            (MEArecRecordingExtractor.writeRecording Examples.with_out_dir
               Examples.recording_3x20 "out").2 = Ok call /\
            arg_recordings (saved_generator call) = Some Examples.traces_3x20)
    by (eexists; split; reflexivity).
  destruct Hcall as (call & Hcall & Htraces).
  destruct (exported_recording Examples.with_out_dir Examples.recording_3x20
              "out" call Hcall) as (_ & _ & _ & _ & Hpos).
  destruct Hpos as (positions & Hpos & Hall).
  { apply elem_of_cons. by left. }
  exists call. split_and!; [exact Hcall | exact Htraces |].
  exists positions. split; [exact Hpos|].
  apply Forall2_length in Hall. by rewrite <- Hall.
Defined.

(** X18.  When the source lists a [location] property but some channel has
    none to give, [writeRecording] raises and no save call is made. *)
Theorem export_without_location {R : Type}
    `{spikeextractors.RecordingExtractor R}
    (w : World) (recording : R) (save_path : string) (chan : Z) :
  "location"%string ∈ spikeextractors.getChannelPropertyNames recording ->
  chan ∈ spikeextractors.getChannelIds recording ->
  raises (spikeextractors.getChannelProperty recording chan "location") ->
  raises (MEArecRecordingExtractor.writeRecording w recording save_path).2.
Proof.
  intros Hnames Hin Hraise.
  destruct (MEArecRecordingExtractor.writeRecording w recording save_path).2
    as [call|] eqn:Hcall; simpl; [|done].
  apply writeRecording_Ok_inv in Hcall
    as (traces & positions & _ & _ & _ & Hpos & _).
  unfold MEArecRecordingExtractor.export_positions in Hpos.
  rewrite bool_decide_eq_true_2 in Hpos by done.
  pose proof (mapM_raises
    (fun chan => spikeextractors.getChannelProperty recording chan "location")
    _ chan Hin Hraise) as Hmap.
  destruct (mapM _ _); [destruct Hmap | discriminate].
Qed.

Lemma export_without_location_witness :
  raises (MEArecRecordingExtractor.writeRecording Examples.with_out_dir
            Examples.recording_one_location "out").2.
Proof.
  apply (export_without_location Examples.with_out_dir
           Examples.recording_one_location "out" 1).
  - apply elem_of_cons. by left.
  - apply elem_of_cons. right. apply elem_of_cons. by left.
  - exact I.
Defined.

(** ** The path handed to the save routine *)

Lemma append_cons (c : ascii) (s t : string) :
  (String c s +:+ t = String c (s +:+ t))%string.
Proof. reflexivity. Qed.

Lemma append_nil_r (s : string) : (s +:+ "" = s)%string.
Proof. induction s as [|c s IH]; [done|]. by rewrite append_cons, IH. Qed.

Lemma append_assoc (s t u : string) :
  ((s +:+ t) +:+ u = s +:+ t +:+ u)%string.
Proof. induction s as [|c s IH]; [done|]. by rewrite !append_cons, IH. Qed.

Lemma substring_full (s : string) : String.substring 0 (String.length s) s = s.
Proof. induction s as [|c s IH]; simpl; [done | by rewrite IH]. Qed.

Lemma substring_split (s : string) (i : nat) :
  (i <= String.length s)%nat ->
  (s = String.substring 0 i s
       +:+ String.substring i (String.length s - i) s)%string.
Proof.
  revert i; induction s as [|c s IH]; intros [|i] Hi; simpl in *; try done.
  - by rewrite substring_full.
  - rewrite append_cons. f_equal. apply IH. lia.
Qed.

Lemma name_suffix_ends (name : string) :
  exists pre, (name = pre +:+ name_suffix name)%string.
Proof.
  unfold name_suffix. destruct (rfind "." name) as [i|].
  - destruct (andb _ _) eqn:Hi.
    + exists (String.substring 0 i name). apply substring_split.
      apply andb_true_iff in Hi as [_ Hi]. apply Nat.ltb_lt in Hi. lia.
    + exists name. by rewrite append_nil_r.
  - exists name. by rewrite append_nil_r.
Qed.

Lemma last_cons {A} (x d : A) (l : list A) : List.last (x :: l) d = List.last l x.
Proof.
  revert x d; induction l as [|y l IH]; intros x d; [done|].
  change (List.last (y :: l) d = List.last (y :: l) x). by rewrite !IH.
Qed.

Lemma join_ends (cs : list string) (acc name : string) :
  (exists pre, acc = pre +:+ name)%string ->
  exists pre,
    (fold_left (fun acc x => acc +:+ "/" +:+ x) cs acc
     = pre +:+ List.last cs name)%string.
Proof.
  revert acc name; induction cs as [|x cs IH]; intros acc name [pre Hacc].
  - exists pre. done.
  - simpl fold_left. destruct (IH (acc +:+ "/" +:+ x)%string x) as [pre' Hpre'].
    + exists (acc +:+ "/")%string. by rewrite append_assoc.
    + exists pre'. rewrite Hpre'. by rewrite last_cons.
Qed.

Lemma Path_str_ends (p : Path) :
  parts p <> [] -> exists pre, (Path_str p = pre +:+ Path_name p)%string.
Proof.
  unfold Path_str, Path_name. destruct (parts p) as [|c cs]; [done|]. intros _.
  destruct (join_ends cs c c) as [pre Hpre]; [by exists ""%string|].
  exists (anchor p +:+ pre)%string.
  rewrite Hpre, last_cons. by rewrite append_assoc.
Qed.

Lemma accepted_path_ends (p : Path) :
  has_h5_suffix p = true ->
  exists pre, (Path_str p = pre +:+ ".h5" \/ Path_str p = pre +:+ ".hdf5")%string.
Proof.
  intros Hsuffix.
  assert (Hparts : parts p <> []).
  { intros Hnil. unfold has_h5_suffix, Path_suffix, Path_name in Hsuffix.
    rewrite Hnil in Hsuffix. discriminate. }
  destruct (Path_str_ends p Hparts) as [pre Hpre].
  destruct (name_suffix_ends (Path_name p)) as [pre' Hname].
  exists (pre +:+ pre')%string. rewrite !append_assoc.
  apply has_h5_suffix_true in Hsuffix as [Hs|Hs]; unfold Path_suffix in Hs;
    rewrite Hs in Hname; rewrite Hpre, Hname; [by left | by right].
Qed.

(** X19.  Neither exporter ever calls the save routine with a path that does
    not end in [.h5] or [.hdf5]. *)
Theorem saved_path_extension (w : World) (save_path : string) (call : SaveCall) :
  (forall R (HR : spikeextractors.RecordingExtractor R) (recording : R),
     (MEArecRecordingExtractor.writeRecording w recording save_path).2 = Ok call ->
     exists pre, (saved_path call = pre +:+ ".h5" \/
                  saved_path call = pre +:+ ".hdf5")%string) /\
  (forall S (HS : spikeextractors.SortingExtractor S) (sorting : S) fs,
     (MEArecSortingExtractor.writeSorting w sorting save_path fs).2 = Ok call ->
     exists pre, (saved_path call = pre +:+ ".h5" \/
                  saved_path call = pre +:+ ".hdf5")%string).
Proof.
  split.
  - intros R HR recording Hcall.
    apply writeRecording_Ok_inv in Hcall as (? & ? & _ & Hsuffix & _ & _ & ->).
    by apply accepted_path_ends.
  - intros S HS sorting fs Hcall.
    apply writeSorting_Ok_inv in Hcall as (? & ? & _ & Hsuffix & _ & _ & ->).
    by apply accepted_path_ends.
Qed.

(** X20.  A save path that is not a directory is used as it is: nothing is
    printed, and a successful export saves under [str(Path(save_path))]. *)
Theorem plain_save_path (w : World) (save_path : string) :
  is_dir w (Path_of save_path) = false ->
  (forall R (HR : spikeextractors.RecordingExtractor R) (recording : R),
     (MEArecRecordingExtractor.writeRecording w recording save_path).1 = [] /\
     forall call,
       (MEArecRecordingExtractor.writeRecording w recording save_path).2 = Ok call ->
       saved_path call = Path_str (Path_of save_path)) /\
  (forall S (HS : spikeextractors.SortingExtractor S) (sorting : S) fs,
     (MEArecSortingExtractor.writeSorting w sorting save_path fs).1 = [] /\
     forall call,
       (MEArecSortingExtractor.writeSorting w sorting save_path fs).2 = Ok call ->
       saved_path call = Path_str (Path_of save_path)).
Proof.
  intros Hdir.
  assert (Hres : forall name notice,
            resolve_save_path w save_path name notice = ([], Path_of save_path)).
  { intros name notice. unfold resolve_save_path. by rewrite Hdir. }
  split.
  - intros R HR recording. split.
    + unfold MEArecRecordingExtractor.writeRecording.
      destruct (_load_required_modules w); [|done]. by rewrite Hres.
    + intros call Hcall.
      apply writeRecording_Ok_inv in Hcall as (? & ? & _ & _ & _ & _ & ->).
      simpl. by rewrite Hres.
  - intros S HS sorting fs. split.
    + unfold MEArecSortingExtractor.writeSorting.
      destruct (_load_required_modules w); [|done]. by rewrite Hres.
    + intros call Hcall.
      apply writeSorting_Ok_inv in Hcall as (? & ? & _ & _ & _ & _ & ->).
      simpl. by rewrite Hres.
Qed.

Lemma plain_save_path_witness :
  (MEArecRecordingExtractor.writeRecording Examples.with_out_dir
     Examples.recording_3x20 "data//rec.hdf5").1 = [] /\
  exists call,
    (MEArecRecordingExtractor.writeRecording Examples.with_out_dir
       Examples.recording_3x20 "data//rec.hdf5").2 = Ok call /\
    saved_path call = "data/rec.hdf5"%string.
Proof.
  destruct (plain_save_path Examples.with_out_dir "data//rec.hdf5" eq_refl)
    as [Hrec _].
  destruct (Hrec _ _ Examples.recording_3x20) as [Hout Hpath].
  split; [exact Hout|].
  assert (Hcall : exists call,
            (MEArecRecordingExtractor.writeRecording Examples.with_out_dir
               Examples.recording_3x20 "data//rec.hdf5").2 = Ok call)
    by (eexists; reflexivity).
  destruct Hcall as [call Hcall]. exists call. split; [exact Hcall|].
  rewrite (Hpath call Hcall). reflexivity.
Defined.

(** Two leading slashes are kept, three or more collapse to one. *)
Example leading_slashes_kept :
  Path_str (Path_of "//x.h5") = "//x.h5"%string /\
  Path_str (Path_of "///x.h5") = "/x.h5"%string /\
  Path_str (Path_of "/data/./x.h5") = "/data/x.h5"%string /\
  Path_str (Path_of "") = "."%string.
Proof. by split_and!. Qed.

Lemma saved_path_extension_witness :
  exists call pre,
    (MEArecSortingExtractor.writeSorting Examples.with_out_dir
       Examples.sorting_2 "out" 30000).2 = Ok call /\
    (saved_path call = pre +:+ ".h5" \/ saved_path call = pre +:+ ".hdf5")%string.
Proof.
  assert (Hcall : exists call,
            (MEArecSortingExtractor.writeSorting Examples.with_out_dir
               Examples.sorting_2 "out" 30000).2 = Ok call)
    by (eexists; reflexivity).
  destruct Hcall as [call Hcall].
  destruct (saved_path_extension Examples.with_out_dir "out" call) as [_ Hsort].
  destruct (Hsort _ _ Examples.sorting_2 30000%Q Hcall) as [pre Hpre].
  by exists call, pre.
Defined.
